(** * Invader: cache-file compression and weapon-HUD compile hooks

    A shallow embedding of

    - [src/compress/compression.cpp]: the header transcoder
      ([compress_header], [decompress_header]), the whole-buffer transforms
      ([compress_map_data], [decompress_map_data]) and the streaming file
      transform ([decompress_map_file]);
    - [src/tag/parser/compile/hud_interface.cpp]: the weapon HUD interface
      pre-compile hook and the four post-compile hooks.

    C++ exceptions become the [Throw] case of [result]; the output buffer of
    a function that throws is not observed.  Header fields and buffer sizes
    ([std::uint32_t], [std::size_t]) are integers of [Z]; the byte counts
    of the streaming loop are natural numbers. *)

From Stdlib Require Import Strings.String Strings.Byte.
From Stdlib Require Import ZArith List Bool Lia.
Import ListNotations.
Local Open Scope Z_scope.

Set Implicit Arguments.

(* ================================================================== *)
(** * Exceptions and results *)

Module Compression.

(** The exception classes thrown by [Invader::Compression]. *)
Inductive Exception : Type :=
| InvalidMapException
| MapNeedsDecompressedException
| MapNeedsCompressedException
| UnsupportedMapEngineException
| MaximumFileSizeException
| CompressionFailureException
| DecompressionFailureException
| FailedToOpenFileException.

Inductive result (A : Type) : Type :=
| OK (a : A)
| Throw (e : Exception).

Arguments OK {A} a.
Arguments Throw {A} e.

Definition bind {A B} (c : result A) (k : A -> result B) : result B :=
  match c with
  | OK a => k a
  | Throw e => Throw e
  end.

Notation "x <- c ;; k" := (bind c (fun x => k))
  (at level 61, c at next level, right associativity).

Definition UINT32_MAX : Z := 4294967295.

(* ================================================================== *)
(** * The cache file header *)

(** [HEK::CacheFileEngine].  The seven enumerators are the ones the
    transcoder names; every other 32-bit value of the field is
    [CACHE_FILE_ENGINE_OTHER], which the [switch] statements send to
    [default]. *)
Inductive CacheFileEngine : Type :=
| CACHE_FILE_CUSTOM_EDITION
| CACHE_FILE_RETAIL
| CACHE_FILE_DEMO
| CACHE_FILE_DARK_CIRCLET
| CACHE_FILE_CUSTOM_EDITION_COMPRESSED
| CACHE_FILE_RETAIL_COMPRESSED
| CACHE_FILE_DEMO_COMPRESSED
| CACHE_FILE_ENGINE_OTHER (raw : Z).

(** [HEK::CacheFileLiteral]. *)
Inductive CacheFileLiteral : Type :=
| CACHE_FILE_HEAD
| CACHE_FILE_FOOT
| CACHE_FILE_HEAD_DEMO
| CACHE_FILE_FOOT_DEMO
| CACHE_FILE_LITERAL_OTHER (raw : Z).

Definition engine_eqb (a b : CacheFileEngine) : bool :=
  match a, b with
  | CACHE_FILE_CUSTOM_EDITION, CACHE_FILE_CUSTOM_EDITION
  | CACHE_FILE_RETAIL, CACHE_FILE_RETAIL
  | CACHE_FILE_DEMO, CACHE_FILE_DEMO
  | CACHE_FILE_DARK_CIRCLET, CACHE_FILE_DARK_CIRCLET
  | CACHE_FILE_CUSTOM_EDITION_COMPRESSED, CACHE_FILE_CUSTOM_EDITION_COMPRESSED
  | CACHE_FILE_RETAIL_COMPRESSED, CACHE_FILE_RETAIL_COMPRESSED
  | CACHE_FILE_DEMO_COMPRESSED, CACHE_FILE_DEMO_COMPRESSED => true
  | CACHE_FILE_ENGINE_OTHER x, CACHE_FILE_ENGINE_OTHER y => x =? y
  | _, _ => false
  end.

Definition literal_eqb (a b : CacheFileLiteral) : bool :=
  match a, b with
  | CACHE_FILE_HEAD, CACHE_FILE_HEAD
  | CACHE_FILE_FOOT, CACHE_FILE_FOOT
  | CACHE_FILE_HEAD_DEMO, CACHE_FILE_HEAD_DEMO
  | CACHE_FILE_FOOT_DEMO, CACHE_FILE_FOOT_DEMO => true
  | CACHE_FILE_LITERAL_OTHER x, CACHE_FILE_LITERAL_OTHER y => x =? y
  | _, _ => false
  end.

(** [HEK::CacheFileHeader], as the transcoder reads and writes it.  The
    fields the transcoder never names (tag data offset and size, map name,
    build string, map type, checksum, padding) travel in [other_fields]. *)
Record CacheFileHeader : Type := {
  head_literal : CacheFileLiteral;
  engine : CacheFileEngine;
  decompressed_file_size : Z;
  other_fields : list byte;
  foot_literal : CacheFileLiteral
}.

(** What a transcoder leaves in [header_output]: the bytes of a
    [CacheFileHeader], or the bytes of the [CacheFileDemoHeader] that the
    conversion from the given [CacheFileHeader] produces. *)
Inductive HeaderImage : Type :=
| StandardHeader (h : CacheFileHeader)
| DemoHeader (h : CacheFileHeader).

Definition image_fields (i : HeaderImage) : CacheFileHeader :=
  match i with StandardHeader h | DemoHeader h => h end.

Definition is_demo_shape (i : HeaderImage) : bool :=
  match i with StandardHeader _ => false | DemoHeader _ => true end.

(** A map file held in memory, [data] with [data_size] bytes: the leading
    [sizeof(HEK::CacheFileHeader)] bytes read as a [CacheFileHeader]
    (the [reinterpret_cast] of the transforms), and the bytes after it.
    A buffer too short to hold a header has no such reading and is not
    represented. *)
Record MapData : Type := {
  map_header : CacheFileHeader;
  map_body : list byte
}.

(** What a transform leaves in its output buffer. *)
Record MapImage : Type := {
  image_header : HeaderImage;
  image_body : list byte
}.

(** The declarations of [invader/map/map.hpp] and [invader/hek/map.hpp]
    that the transforms use and that are not part of the sources at hand.
    They are parameters of the development.

    - [HEADER_SIZE] is [sizeof(HEK::CacheFileHeader)];
    - [valid] is [CacheFileHeader::valid()];
    - [demo_view h] is the [CacheFileHeader] obtained by reading the bytes
      of [h] as a [CacheFileDemoHeader] and converting the result to a
      [CacheFileHeader] (the [reinterpret_cast] followed by the
      [static_cast] of lines 81 and 132);
    - [map_with_pointer] is [Map::map_with_pointer], which parses a buffer
      or throws, and [get_cache_file_header] is the accessor of the header
      the parsed map holds. *)
Class HEK : Type := {
  HEADER_SIZE : Z;
  valid : CacheFileHeader -> bool;
  demo_view : CacheFileHeader -> CacheFileHeader;
  Map : Type;
  map_with_pointer : MapData -> result Map;
  get_cache_file_header : Map -> CacheFileHeader
}.

(** What the specification says of [valid()]: the head and foot literals
    are the expected constants.  Stated as a property of the parameter. *)
Definition ValidChecksLiterals (hek : HEK) : Prop :=
  forall h, valid h = true ->
    head_literal h = CACHE_FILE_HEAD /\ foot_literal h = CACHE_FILE_FOOT.

Section Transcoder.
Context {hek : HEK}.

(** The [switch] of [compress_header], lines 17-39. *)
Definition compress_engine (header : CacheFileHeader) : result CacheFileEngine :=
  match engine header with
  | CACHE_FILE_CUSTOM_EDITION => OK CACHE_FILE_CUSTOM_EDITION_COMPRESSED
  | CACHE_FILE_RETAIL => OK CACHE_FILE_RETAIL_COMPRESSED
  | CACHE_FILE_DEMO => OK CACHE_FILE_DEMO_COMPRESSED
  | CACHE_FILE_DARK_CIRCLET =>
      if decompressed_file_size header >? 0
      then Throw MapNeedsDecompressedException
      else OK (engine header)
  | CACHE_FILE_CUSTOM_EDITION_COMPRESSED
  | CACHE_FILE_RETAIL_COMPRESSED
  | CACHE_FILE_DEMO_COMPRESSED => Throw MapNeedsDecompressedException
  | CACHE_FILE_ENGINE_OTHER _ => Throw UnsupportedMapEngineException
  end.

(** [compress_header(header_input, header_output, decompressed_size)]. *)
Definition compress_header (header : CacheFileHeader) (decompressed_size : Z)
  : result HeaderImage :=
  if negb (valid header) then Throw InvalidMapException else
  new_engine_version <- compress_engine header ;;
  if decompressed_size >? UINT32_MAX then Throw MaximumFileSizeException else
  OK (StandardHeader
        {| head_literal := CACHE_FILE_HEAD;
           engine := new_engine_version;
           decompressed_file_size := decompressed_size;
           other_fields := other_fields header;
           foot_literal := CACHE_FILE_FOOT |}).

(** The [switch] of [decompress_header], lines 58-87. *)
Definition decompress_engine (header_copy : CacheFileHeader)
  : result CacheFileEngine :=
  match engine header_copy with
  | CACHE_FILE_RETAIL
  | CACHE_FILE_CUSTOM_EDITION
  | CACHE_FILE_DEMO => Throw MapNeedsCompressedException
  | CACHE_FILE_DARK_CIRCLET =>
      if decompressed_file_size header_copy =? 0
      then Throw MapNeedsCompressedException
      else OK (engine header_copy)
  | CACHE_FILE_CUSTOM_EDITION_COMPRESSED => OK CACHE_FILE_CUSTOM_EDITION
  | CACHE_FILE_RETAIL_COMPRESSED => OK CACHE_FILE_RETAIL
  | CACHE_FILE_DEMO_COMPRESSED => OK CACHE_FILE_DEMO
  | CACHE_FILE_ENGINE_OTHER _ =>
      if engine_eqb (engine (demo_view header_copy)) CACHE_FILE_DEMO
      then Throw MapNeedsCompressedException
      else Throw UnsupportedMapEngineException
  end.

(** [decompress_header(header_input, header_output)]. *)
Definition decompress_header (header_copy : CacheFileHeader)
  : result HeaderImage :=
  new_engine_version <- decompress_engine header_copy ;;
  if (decompressed_file_size header_copy <? HEADER_SIZE)
     || negb (valid header_copy)
  then Throw InvalidMapException else
  if engine_eqb new_engine_version CACHE_FILE_DEMO then
    OK (DemoHeader
          {| head_literal := CACHE_FILE_HEAD_DEMO;
             engine := new_engine_version;
             decompressed_file_size := 0;
             other_fields := other_fields header_copy;
             foot_literal := CACHE_FILE_FOOT_DEMO |})
  else
    OK (StandardHeader
          {| head_literal := head_literal header_copy;
             engine := new_engine_version;
             decompressed_file_size := 0;
             other_fields := other_fields header_copy;
             foot_literal := foot_literal header_copy |}).

(** The engine enumerators of the compressed representation. *)
Definition is_compressed_engine (e : CacheFileEngine) : bool :=
  match e with
  | CACHE_FILE_CUSTOM_EDITION_COMPRESSED
  | CACHE_FILE_RETAIL_COMPRESSED
  | CACHE_FILE_DEMO_COMPRESSED => true
  | _ => false
  end.

Definition is_unrecognized_engine (e : CacheFileEngine) : bool :=
  match e with CACHE_FILE_ENGINE_OTHER _ => true | _ => false end.

(** A header carries the compressed representation when its engine is a
    compressed enumerator, or when it is a Dark Circlet header whose
    decompressed size is set. *)
Definition carries_compressed_form (h : CacheFileHeader) : bool :=
  is_compressed_engine (engine h)
  || (engine_eqb (engine h) CACHE_FILE_DARK_CIRCLET
      && (decompressed_file_size h >? 0)).

End Transcoder.

(* ================================================================== *)
(** * The block compressor *)

(** What [ZSTD_decompressStream] hands back: the value it returns ([None]
    when [ZSTD_isError] holds of it, otherwise the number of input bytes
    it asks for next, 0 once a frame is decoded and flushed), the bytes it
    put in the output buffer ([output_buffer.pos] of them) and the state of
    the decompression context. *)
Record ZSTD_streamed (S : Type) : Type := {
  stream_return : option nat;
  stream_output : list byte;
  stream_next : S
}.

(** The functions of [zstd.h] the transforms call.  The library is
    external: its functions are parameters.  A one-shot function returns
    [None] when [ZSTD_isError] holds of its result, and otherwise the bytes
    it wrote; [dst_capacity] is the room it was given. *)
Class ZSTD : Type := {
  ZSTD_compressBound : Z -> Z;
  ZSTD_compress : forall (dst_capacity : Z) (src : list byte) (level : Z),
      option (list byte);
  ZSTD_decompress : forall (dst_capacity : Z) (src : list byte),
      option (list byte);
  ZSTD_DStream : Type;
  ZSTD_createDStream : ZSTD_DStream;
  ZSTD_initDStream : ZSTD_DStream -> nat * ZSTD_DStream;
  ZSTD_DStreamOutSize : nat;
  ZSTD_decompressStream : ZSTD_DStream -> forall (output_size : nat)
      (input : list byte), ZSTD_streamed ZSTD_DStream
}.

(** The contract of the one-shot functions: what was compressed
    decompresses to the source whenever the destination has room. *)
Definition ZSTD_lossless (zstd : ZSTD) : Prop :=
  forall capacity src level compressed dst_capacity,
    ZSTD_compress capacity src level = Some compressed ->
    Z.of_nat (length src) <= dst_capacity ->
    ZSTD_decompress dst_capacity compressed = Some src.

(* ================================================================== *)
(** * Whole-buffer transforms *)

Section WholeBuffer.
Context {hek : HEK} {zstd : ZSTD}.

Definition data_size (data : MapData) : Z :=
  HEADER_SIZE + Z.of_nat (length (map_body data)).

(** [compress_map_data(data, data_size, output, output_size,
    compression_level)], the overload that fills a caller's buffer. *)
Definition compress_map_data_into (data : MapData) (output_size : Z)
    (compression_level : Z) : result MapImage :=
  map <- map_with_pointer data ;;
  header_out <- compress_header (get_cache_file_header map) (data_size data) ;;
  match ZSTD_compress (output_size - HEADER_SIZE) (map_body data)
                      compression_level with
  | None => Throw CompressionFailureException
  | Some compressed =>
      OK {| image_header := header_out; image_body := compressed |}
  end.

(** [decompress_map_data(data, data_size, output, output_size)]. *)
Definition decompress_map_data_into (data : MapData) (output_size : Z)
  : result MapImage :=
  let header := map_header data in
  if (HEADER_SIZE >? data_size data) || negb (valid header) then
    let demo_header := demo_view header in
    if valid demo_header && engine_eqb (engine demo_header) CACHE_FILE_DEMO
    then Throw MapNeedsCompressedException
    else Throw InvalidMapException
  else
  header_out <- decompress_header header ;;
  match ZSTD_decompress (output_size - HEADER_SIZE) (map_body data) with
  | None => Throw DecompressionFailureException
  | Some decompressed =>
      if negb (Z.of_nat (length decompressed) + HEADER_SIZE
               =? decompressed_file_size header)
      then Throw DecompressionFailureException
      else OK {| image_header := header_out; image_body := decompressed |}
  end.

(** [compress_map_data(data, data_size, compression_level)], the overload
    that returns a vector. *)
Definition compress_map_data (data : MapData) (compression_level : Z)
  : result MapImage :=
  let new_data_size :=
    ZSTD_compressBound (data_size data - HEADER_SIZE) + HEADER_SIZE in
  compress_map_data_into data new_data_size compression_level.

(** [decompress_map_data(data, data_size)], the overload that returns a
    vector: the vector has the size the header declares. *)
Definition decompress_map_data (data : MapData) : result MapImage :=
  let new_data_size := decompressed_file_size (map_header data) in
  _ <- decompress_header (map_header data) ;;
  decompress_map_data_into data new_data_size.

End WholeBuffer.

(* ================================================================== *)
(** * The streaming file transform *)

(** The file named [input]: absent ([fopen] fails), shorter than a header
    (the first [fread] fails), or a header followed by a body. *)
Inductive InputFile : Type :=
| NoInputFile
| HeaderlessFile
| MapFile (data : MapData).

(** The files [decompress_map_file] works on.  [fwrite_ok written chunk]
    tells whether the [fwrite] of [chunk] succeeds after [written]. *)
Record FileSystem : Type := {
  input_file : InputFile;
  output_opens : bool;
  header_fwrite_ok : bool;
  fwrite_ok : list byte -> list byte -> bool
}.

(** The file named [output], once it is open. *)
Record OutputFile : Type := {
  file_header : option HeaderImage;
  file_body : list byte
}.

(** The calls the loop makes, in order: a request of [size] input bytes
    ([read_data]), and a return of [ZSTD_decompressStream] that is not an
    error. *)
Inductive Event : Type :=
| Requested (size : nat)
| Reported (q : nat).

(** The requests follow the reports: a report that is followed by a call
    is followed by the request of exactly the number of bytes it asked
    for, or, after a report of completion (0), of the [init] bytes that
    open the next frame. *)
Definition requests_follow_reports (init : nat) (log : list Event) : Prop :=
  forall before q after,
    log = before ++ Reported q :: after ->
    after = []
    \/ exists after',
         after = Requested (match q with O => init | S _ => q end) :: after'.

(** The last call is a report of completion. *)
Definition completion_reported_last (log : list Event) : Prop :=
  exists before, log = before ++ [Reported O].

Section Streaming.
Context {hek : HEK} {zstd : ZSTD}.

(** The variables the lambdas and the loop of [decompress_map_file] share:
    the decompression context, the unread rest of the input file,
    [total_read], and what [write_data] has written; [events] is the log
    of the calls. *)
Record Transfer : Type := {
  decompression_stream : ZSTD_DStream;
  unread : list byte;
  total_read : Z;
  written : list byte;
  events : list Event
}.

(** [read_data(where, size)]: [fread] of one item of [size] bytes fails
    when [size] is 0 or fewer than [size] bytes are left. *)
Definition read_data (st : Transfer) (size : nat)
  : result (list byte) * Transfer :=
  if (size =? 0)%nat || (length (unread st) <? size)%nat then
    (Throw DecompressionFailureException,
     {| decompression_stream := decompression_stream st;
        unread := unread st;
        total_read := total_read st;
        written := written st;
        events := events st ++ [Requested size] |})
  else
    (OK (firstn size (unread st)),
     {| decompression_stream := decompression_stream st;
        unread := skipn size (unread st);
        total_read := total_read st + Z.of_nat size;
        written := written st;
        events := events st ++ [Requested size] |}).

(** [write_data(where, size)]. *)
Definition write_data (fs : FileSystem) (st : Transfer) (chunk : list byte)
  : result unit * Transfer :=
  if fwrite_ok fs (written st) chunk then
    (OK tt,
     {| decompression_stream := decompression_stream st;
        unread := unread st;
        total_read := total_read st;
        written := written st ++ chunk;
        events := events st |})
  else (Throw DecompressionFailureException, st).

(** Where control is: at the test of the [while], or at the top of the
    [for(;;)] with [input_data] filled. *)
Inductive LoopPoint : Type :=
| AtWhile
| AtFor (input_data : list byte).

(** The [while] loop of lines 244-284 with its inner [for(;;)].  The result
    is the exception thrown, if any, and the shared variables at that
    point; [None] only when [fuel] runs out. *)
Fixpoint transfer_loop (fuel : nat) (fs : FileSystem) (total_size : Z)
    (init : nat) (at_ : LoopPoint) (st : Transfer)
  : option (option Exception * Transfer) :=
  match fuel with
  | O => None
  | S fuel' =>
    match at_ with
    | AtWhile =>
        if total_read st <? total_size then
          match read_data st init with
          | (Throw e, st1) => Some (Some e, st1)
          | (OK input_data, st1) =>
              transfer_loop fuel' fs total_size init (AtFor input_data) st1
          end
        else Some (None, st)
    | AtFor input_data =>
        let r := ZSTD_decompressStream (decompression_stream st)
                   ZSTD_DStreamOutSize input_data in
        match stream_return r with
        | None => Some (Some DecompressionFailureException, st)
        | Some q =>
            let st1 :=
              {| decompression_stream := stream_next r;
                 unread := unread st;
                 total_read := total_read st;
                 written := written st;
                 events := events st ++ [Reported q] |} in
            match (match stream_output r with
                   | [] => (OK tt, st1)
                   | _ :: _ => write_data fs st1 (stream_output r)
                   end) with
            | (Throw e, st2) => Some (Some e, st2)
            | (OK _, st2) =>
                if (0 <? q)%nat then
                  match read_data st2 q with
                  | (Throw e, st3) => Some (Some e, st3)
                  | (OK input_data', st3) =>
                      transfer_loop fuel' fs total_size init
                        (AtFor input_data') st3
                  end
                else transfer_loop fuel' fs total_size init AtWhile st2
            end
        end
    end
  end.

(** What holds of the log where control is: the requests have followed
    the reports, and at the test of the [while] the last call is a report
    of completion unless nothing was called yet; at the top of the
    [for(;;)] the last call is a request. *)
Definition loop_invariant (total_size : Z) (init : nat) (at_ : LoopPoint)
    (st : Transfer) : Prop :=
  requests_follow_reports init (events st)
  /\ match at_ with
     | AtWhile =>
         completion_reported_last (events st)
         \/ (events st = [] /\ total_read st < total_size)
     | AtFor _ => exists before n, events st = before ++ [Requested n]
     end.

(** What holds when the loop is left. *)
Definition loop_result (init : nat) (r : option Exception * Transfer) : Prop :=
  requests_follow_reports init (events (snd r))
  /\ (fst r = None -> completion_reported_last (events (snd r)))
  /\ (forall e, fst r = Some e -> e = DecompressionFailureException).

(** What bounds the steps left: a read that succeeds takes at least one
    byte off the input. *)
Definition loop_measure (at_ : LoopPoint) (st : Transfer) : nat :=
  match at_ with
  | AtWhile => 2 * length (unread st) + 1
  | AtFor _ => 2 * length (unread st) + 2
  end.

(** What a call of [decompress_map_file] leaves behind: the exception it
    threw, if any; the output file, if it was opened; the log of calls. *)
Record FileRun : Type := {
  thrown : option Exception;
  output_file : option OutputFile;
  calls : list Event
}.

(** Fuel that the loop cannot use up: a read that succeeds takes at least
    one byte off the input. *)
Definition transfer_fuel (body : list byte) : nat := 2 * length body + 2.

(** [decompress_map_file(input, output)]. *)
Definition decompress_map_file (fs : FileSystem) : option FileRun :=
  match input_file fs with
  | NoInputFile =>
      Some {| thrown := Some FailedToOpenFileException;
              output_file := None; calls := [] |}
  | HeaderlessFile =>
      Some {| thrown := Some DecompressionFailureException;
              output_file := None; calls := [] |}
  | MapFile data =>
      let total_size := data_size data in
      match decompress_header (map_header data) with
      | Throw e =>
          Some {| thrown := Some e; output_file := None; calls := [] |}
      | OK header_output =>
          if negb (output_opens fs) then
            Some {| thrown := Some FailedToOpenFileException;
                    output_file := None; calls := [] |}
          else if negb (header_fwrite_ok fs) then
            Some {| thrown := Some DecompressionFailureException;
                    output_file :=
                      Some {| file_header := None; file_body := [] |};
                    calls := [] |}
          else
            let (init, stream) := ZSTD_initDStream ZSTD_createDStream in
            match transfer_loop (transfer_fuel (map_body data)) fs
                    total_size init AtWhile
                    {| decompression_stream := stream;
                       unread := map_body data;
                       total_read := HEADER_SIZE;
                       written := [];
                       events := [] |} with
            | None => None
            | Some (e, st) =>
                Some {| thrown := e;
                        output_file :=
                          Some {| file_header := Some header_output;
                                  file_body := written st |};
                        calls := events st |}
            end
      end
  end.

End Streaming.

(* ================================================================== *)
(** * Concrete parameters, to run the transforms *)

(** A header format in which [valid()] checks the two literals and nothing
    else, the header has 2048 bytes, and the bytes of a standard header
    read as a demo header show no known engine. *)
Definition literal_hek : HEK := {|
  HEADER_SIZE := 2048;
  valid := fun h =>
    literal_eqb (head_literal h) CACHE_FILE_HEAD
    && literal_eqb (foot_literal h) CACHE_FILE_FOOT;
  demo_view := fun h =>
    {| head_literal := CACHE_FILE_LITERAL_OTHER 0;
       engine := CACHE_FILE_ENGINE_OTHER 0;
       decompressed_file_size := 0;
       other_fields := other_fields h;
       foot_literal := CACHE_FILE_LITERAL_OTHER 0 |};
  Map := MapData;
  map_with_pointer := fun data => OK data;
  get_cache_file_header := map_header
|}.

(** Modelled from the spec: [CacheFileHeader::valid()], which is not part
    of the sources at hand.  "[valid()] holds iff both literals match
    expected constants and the engine enumeration is one of the known
    values." *)
Definition spec_valid (h : CacheFileHeader) : bool :=
  literal_eqb (head_literal h) CACHE_FILE_HEAD
  && literal_eqb (foot_literal h) CACHE_FILE_FOOT
  && negb (is_unrecognized_engine (engine h)).

(** The header format with [valid()] as the specification words it; the
    loader accepts the buffers whose header is valid. *)
Definition spec_hek : HEK := {|
  HEADER_SIZE := 2048;
  valid := spec_valid;
  demo_view := @demo_view literal_hek;
  Map := MapData;
  map_with_pointer := fun data =>
    if spec_valid (map_header data) then OK data
    else Throw InvalidMapException;
  get_cache_file_header := map_header
|}.

(** A header that passes [valid()], with the given engine and size. *)
Definition header_of (e : CacheFileEngine) (size : Z) : CacheFileHeader :=
  {| head_literal := CACHE_FILE_HEAD;
     engine := e;
     decompressed_file_size := size;
     other_fields := [x01; x02; x03];
     foot_literal := CACHE_FILE_FOOT |}.

(** The same header with a head literal that is not the expected one. *)
Definition broken_header_of (e : CacheFileEngine) (size : Z) : CacheFileHeader :=
  {| head_literal := CACHE_FILE_LITERAL_OTHER 0;
     engine := e;
     decompressed_file_size := size;
     other_fields := [x01; x02; x03];
     foot_literal := CACHE_FILE_FOOT |}.

(** What a buffer looks like in an output buffer when it is copied as it
    is: its header in the standard shape, then its body. *)
Definition image_of (data : MapData) : MapImage :=
  {| image_header := StandardHeader (map_header data);
     image_body := map_body data |}.

(** [compress_header] writes headers that [valid()] accepts. *)
Definition CompressedHeaderValid (hek : HEK) : Prop :=
  forall h n h',
    compress_header h n = OK (StandardHeader h') -> valid h' = true.

(** A Custom Edition map of three body bytes whose header declares the
    size of the file, 2051 bytes. *)
Definition sized_map : MapData :=
  {| map_header := header_of CACHE_FILE_CUSTOM_EDITION 2051;
     map_body := [x0a; x0b; x0c] |}.

(** A retail map of three body bytes whose header leaves the declared
    size at 0. *)
Definition unsized_map : MapData :=
  {| map_header := header_of CACHE_FILE_RETAIL 0;
     map_body := [x0a; x0b; x0c] |}.

(** A compressed Custom Edition map whose header declares 2060 bytes and
    whose body is a frame of three bytes: 2051 bytes once decompressed. *)
Definition overdeclared_map : MapData :=
  {| map_header := header_of CACHE_FILE_CUSTOM_EDITION_COMPRESSED 2060;
     map_body := [x3a; x03; x0a; x0b; x0c] |}.

(** The same header over a body that is no frame. *)
Definition corrupt_map : MapData :=
  {| map_header := header_of CACHE_FILE_CUSTOM_EDITION_COMPRESSED 2060;
     map_body := [x00; x03; x0a; x0b; x0c] |}.

(** A file system in which every [fopen] and [fwrite] succeeds. *)
Definition file_system_of (input : InputFile) : FileSystem :=
  {| input_file := input;
     output_opens := true;
     header_fwrite_ok := true;
     fwrite_ok := fun _ _ => true |}.

(** A compressed file cut short: the header, the two bytes that open a
    frame of three bytes, and one byte of the three. *)
Definition truncated_file : InputFile :=
  MapFile {| map_header := header_of CACHE_FILE_CUSTOM_EDITION_COMPRESSED 2051;
             map_body := [x3a; x03; x0a] |}.

(** The whole file. *)
Definition complete_file : InputFile :=
  MapFile {| map_header := header_of CACHE_FILE_CUSTOM_EDITION_COMPRESSED 2051;
             map_body := [x3a; x03; x0a; x0b; x0c] |}.

(** The file cut right after its header. *)
Definition header_only_file : InputFile :=
  MapFile {| map_header := header_of CACHE_FILE_CUSTOM_EDITION_COMPRESSED 2051;
             map_body := [] |}.

(** A codec of stored frames: a frame is the byte 0x3a, a length byte
    and that many bytes of content.  It stands in for the external library
    where a transform is run on a concrete input. *)
Module Stored.

Definition magic : byte := x3a.

Definition compress (dst_capacity : Z) (src : list byte) (level : Z)
  : option (list byte) :=
  match Byte.of_nat (length src) with
  | Some len =>
      if Z.of_nat (length src) + 2 <=? dst_capacity
      then Some (magic :: len :: src) else None
  | None => None
  end.

Definition decompress (dst_capacity : Z) (src : list byte)
  : option (list byte) :=
  match src with
  | m :: len :: content =>
      if Byte.eqb m magic
         && (Byte.to_nat len =? length content)%nat
         && (Z.of_nat (length content) <=? dst_capacity)
      then Some content else None
  | _ => None
  end.

(** The streaming decoder waits for the two bytes that open a frame, then
    for the content. *)
Inductive DStream : Type :=
| AwaitFrame
| AwaitContent (n : nat).

Definition decompressStream (s : DStream) (output_size : nat)
    (input : list byte) : ZSTD_streamed DStream :=
  let error := {| stream_return := None; stream_output := [];
                  stream_next := s |} in
  match s with
  | AwaitFrame =>
      match input with
      | [m; len] =>
          if Byte.eqb m magic then
            match Byte.to_nat len with
            | O => {| stream_return := Some O; stream_output := [];
                      stream_next := AwaitFrame |}
            | S n => {| stream_return := Some (S n); stream_output := [];
                        stream_next := AwaitContent (S n) |}
            end
          else error
      | _ => error
      end
  | AwaitContent n =>
      if (length input =? n)%nat && (n <=? output_size)%nat then
        {| stream_return := Some O; stream_output := input;
           stream_next := AwaitFrame |}
      else error
  end.

Definition zstd : ZSTD := {|
  ZSTD_compressBound := fun n => n + 2;
  ZSTD_compress := compress;
  ZSTD_decompress := decompress;
  ZSTD_DStream := DStream;
  ZSTD_createDStream := AwaitFrame;
  ZSTD_initDStream := fun s => (2%nat, AwaitFrame);
  ZSTD_DStreamOutSize := 256%nat;
  ZSTD_decompressStream := decompressStream
|}.

End Stored.

End Compression.

(* ================================================================== *)
(** * Weapon HUD interface compile hooks *)

Module Parser.

(** The severities the hooks report with ([BuildWorkload::ErrorType]). *)
Inductive ErrorType : Type :=
| ERROR_TYPE_WARNING
| ERROR_TYPE_ERROR.

(** [HEK::TagID]: the null id, or the index of a tag of the workload. *)
Inductive TagID : Type :=
| TagID_null
| TagID_index (index : nat).

(** What [get_sequence_data] prints into [bitmap_tag_path]: ["NULL"], or
    the path of the bitmap tag and the extension of its class.  The
    arguments are kept instead of the rendered characters. *)
Inductive BitmapTagPath : Type :=
| Path_NULL
| Path_of (path : string) (tag_class_int : Z).

(** The format strings of the hooks, each with its arguments in order. *)
Inductive Message : Type :=
| OverlaysChangeOnZoom (zooms : nat)
| CrosshairOverlayOutOfBounds (sequence : Z) (bitmap : BitmapTagPath)
    (overlay : nat) (crosshair : Z) (sequence_count : Z)
| CrosshairOverlayZeroBitmaps (sequence : Z) (bitmap : BitmapTagPath)
    (overlay : nat) (crosshair : Z)
| CrosshairOverlayZeroSprites (sequence : Z) (bitmap : BitmapTagPath)
    (overlay : nat) (crosshair : Z)
| MeterOutOfBounds (sequence : Z) (bitmap : BitmapTagPath) (meter : Z)
    (sequence_count : Z)
| MeterZeroSprites (sequence : Z) (bitmap : BitmapTagPath) (meter : Z)
| StaticElementOutOfBounds (sequence : Z) (bitmap : BitmapTagPath)
    (element : Z) (sequence_count : Z)
| StaticElementZeroSpritesBitmaps (sequence : Z) (bitmap : BitmapTagPath)
    (element : Z)
| ElementOverlayOutOfBounds (sequence : Z) (bitmap : BitmapTagPath)
    (overlay : nat) (element : Z) (sequence_count : Z)
| ElementOverlayZeroBitmaps (sequence : Z) (bitmap : BitmapTagPath)
    (overlay : nat) (element : Z).

Record Diagnostic : Type := {
  severity : ErrorType;
  diagnostic_tag : nat;
  message : Message
}.

(** [BitmapGroupSequence::struct_little], the two counts the hooks read. *)
Record BitmapGroupSequence : Type := {
  bitmap_count : Z;
  sprites_count : Z
}.

(** The bytes of a struct of the workload, seen through the type the hooks
    cast them to: a [Bitmap::struct_little] with the count of its
    [bitmap_group_sequence] reflexive and the struct its pointer resolves
    to ([resolve_pointer]); an array of [BitmapGroupSequence]; or the bytes
    of any other struct. *)
Inductive StructData : Type :=
| BitmapData (bitmap_group_sequence_count : Z)
    (bitmap_group_sequence_pointer : option nat)
| BitmapGroupSequenceData (sequences : list BitmapGroupSequence)
| OtherData (bytes : list byte).

Record BuildWorkloadTag : Type := {
  path : string;
  tag_class_int : Z;
  base_struct : option nat
}.

(** [BuildWorkload] ([invader/build/build_workload.hpp], not part of the
    sources at hand), with the members the hooks touch. *)
Record BuildWorkload : Type := {
  engine_target : Compression.CacheFileEngine;
  tags : list BuildWorkloadTag;
  structs : list StructData;
  errors : list Diagnostic
}.

(** Modelled from the spec: the diagnostics sink behind the macro
    [REPORT_ERROR_PRINTF], which is not part of the sources at hand.
    "[report(severity, record_id, message)] ... insertion order, stable.
    No deduplication of repeated messages - each call is recorded
    independently." *)
Definition report_error (w : BuildWorkload) (d : Diagnostic) : BuildWorkload :=
  {| engine_target := engine_target w;
     tags := tags w;
     structs := structs w;
     errors := errors w ++ [d] |}.

(** The workload after the diagnostics [new] were reported. *)
Definition add_errors (w : BuildWorkload) (new : list Diagnostic)
  : BuildWorkload :=
  {| engine_target := engine_target w;
     tags := tags w;
     structs := structs w;
     errors := errors w ++ new |}.

(** ** The records *)

Record WeaponHUDInterfaceOverlayFlags : Type := {
  show_only_when_zoomed : bool;
  dont_show_when_zoomed : bool;
  not_a_sprite : bool
}.

Record WeaponHUDInterfaceCrosshairOverlay : Type := {
  overlay_sequence_index : Z;
  overlay_flags : WeaponHUDInterfaceOverlayFlags
}.

Record WeaponHUDInterfaceCrosshair : Type := {
  crosshair_type : Z;
  crosshair_bitmap : TagID;
  crosshair_overlays : list WeaponHUDInterfaceCrosshairOverlay
}.

(** [crosshair_types] is the 32-bit word that the union of lines 11-14
    shares with the flags. *)
Record WeaponHUDInterface : Type := {
  crosshairs : list WeaponHUDInterfaceCrosshair;
  crosshair_types : Z
}.

Record WeaponHUDInterfaceMeter : Type := {
  meter_sequence_index : Z;
  meter_bitmap : TagID
}.

Record WeaponHUDInterfaceStaticElement : Type := {
  static_sequence_index : Z;
  interface_bitmap : TagID
}.

Record WeaponHUDInterfaceOverlay : Type := {
  element_sequence_index : Z
}.

Record WeaponHUDInterfaceOverlayElement : Type := {
  overlay_bitmap : TagID;
  overlays : list WeaponHUDInterfaceOverlay
}.

(** Constants of the missing headers: [NULL_INDEX],
    [sizeof(WeaponHUDInterfaceCrosshair::struct_little)], and the position
    of the [zoom] bit in [WeaponHUDInterfaceCrosshairTypeFlags]. *)
Class Constants : Type := {
  NULL_INDEX : Z;
  sizeof_WeaponHUDInterfaceCrosshair : Z;
  zoom : Z
}.

(** ** Hooks as state transformers

    A hook is a method of a record ([this]) that is handed the workload by
    reference: it may read and write both.  [None] stands for a C++
    operation without defined behaviour (an index outside a vector, an
    empty optional). *)
Record HookState (T : Type) : Type := {
  this : T;
  workload : BuildWorkload
}.

Definition Hook (T A : Type) : Type := HookState T -> option (A * HookState T).

Definition ret {T A} (a : A) : Hook T A := fun s => Some (a, s).

Definition bind {T A B} (c : Hook T A) (k : A -> Hook T B) : Hook T B :=
  fun s => match c s with
           | Some (a, s') => k a s'
           | None => None
           end.

Notation "x <- c ;; k" := (bind c (fun x => k))
  (at level 61, c at next level, right associativity).
Notation "c ;;; k" := (bind c (fun _ => k))
  (at level 61, right associativity).

Definition get_this {T} : Hook T T := fun s => Some (this s, s).

Definition set_this {T} (t : T) : Hook T unit :=
  fun s => Some (tt, {| this := t; workload := workload s |}).

Definition get_workload {T} : Hook T BuildWorkload :=
  fun s => Some (workload s, s).

Definition defined {T A} (o : option A) : Hook T A :=
  fun s => match o with Some a => Some (a, s) | None => None end.

Definition REPORT_ERROR_PRINTF {T} (type : ErrorType) (tag_index : nat)
    (m : Message) : Hook T unit :=
  fun s => Some (tt, {| this := this s;
                        workload := report_error (workload s)
                          {| severity := type; diagnostic_tag := tag_index;
                             message := m |} |}).

(** [for(std::size_t i = first; i < first + count; i++) body(i)]. *)
Fixpoint for_each_index {T} (first count : nat) (body : nat -> Hook T unit)
  : Hook T unit :=
  match count with
  | O => ret tt
  | S count' => body first ;;; for_each_index (S first) count' body
  end.

Section Hooks.
Context {constants : Constants}.

(** [(1 << n)], a shift of the [int] 1: for [n] from 0 to 31 it is the
    word with bit [n] alone, as it is or-ed into the 32-bit [inty]; for
    any other [n] the shift has no defined behaviour ([None]). *)
Definition one_shifted_left (n : Z) : option Z :=
  if (0 <=? n) && (n <? 32) then Some (Z.shiftl 1 n) else None.

(** The loop over [this->crosshairs] that ors the shifts into [inty]. *)
Fixpoint or_crosshair_types (crosshairs : list WeaponHUDInterfaceCrosshair)
    (inty : Z) : option Z :=
  match crosshairs with
  | [] => Some inty
  | c :: crosshairs' =>
      match one_shifted_left (crosshair_type c) with
      | Some bit => or_crosshair_types crosshairs' (Z.lor inty bit)
      | None => None
      end
  end.

Definition changes_on_zoom (o : WeaponHUDInterfaceCrosshairOverlay) : bool :=
  dont_show_when_zoomed (overlay_flags o)
  || show_only_when_zoomed (overlay_flags o).

(** [WeaponHUDInterface::pre_compile]. *)
Definition pre_compile (tag_index : nat) : Hook WeaponHUDInterface unit :=
  self <- get_this ;;
  inty <- defined (or_crosshair_types (crosshairs self) 0) ;;
  set_this {| crosshairs := crosshairs self; crosshair_types := inty |} ;;;
  w <- get_workload ;;
  self <- get_this ;;
  if negb (Compression.engine_eqb (engine_target w)
             Compression.CACHE_FILE_DARK_CIRCLET)
     && negb (Z.testbit (crosshair_types self) zoom)
  then
    let zooms :=
      fold_left (fun zooms c =>
        fold_left (fun zooms o =>
                     if changes_on_zoom o then S zooms else zooms)
                  (crosshair_overlays c) zooms)
        (crosshairs self) O in
    match zooms with
    | O => ret tt
    | S _ => REPORT_ERROR_PRINTF ERROR_TYPE_WARNING tag_index
               (OverlaysChangeOnZoom zooms)
    end
  else ret tt.

(** [get_sequence_data]: the sequence count, the sequences and the printed
    path of the bitmap tag [tag_id]. *)
Definition get_sequence_data (w : BuildWorkload) (tag_id : TagID)
  : option (Z * list BitmapGroupSequence * BitmapTagPath) :=
  match tag_id with
  | TagID_null => Some (0, [], Path_NULL)
  | TagID_index index =>
      match nth_error (tags w) index with
      | None => None
      | Some bitmap_tag =>
          let bitmap_tag_path :=
            Path_of (path bitmap_tag) (tag_class_int bitmap_tag) in
          match base_struct bitmap_tag with
          | None => None
          | Some b =>
              match nth_error (structs w) b with
              | Some (BitmapData sequence_count pointer) =>
                  if sequence_count >? 0 then
                    match pointer with
                    | None => None
                    | Some p =>
                        match nth_error (structs w) p with
                        | Some (BitmapGroupSequenceData sequences) =>
                            Some (sequence_count, sequences, bitmap_tag_path)
                        | _ => None
                        end
                    end
                  else Some (sequence_count, [], bitmap_tag_path)
              | _ => None
              end
          end
      end
  end.

Definition sequence_at (sequences : list BitmapGroupSequence) (index : Z)
  : option BitmapGroupSequence :=
  nth_error sequences (Z.to_nat index).

(** [WeaponHUDInterfaceCrosshair::post_compile]. *)
Definition crosshair_post_compile (tag_index : nat) (struct_offset : Z)
  : Hook WeaponHUDInterfaceCrosshair unit :=
  w <- get_workload ;;
  self <- get_this ;;
  data <- defined (get_sequence_data w (crosshair_bitmap self)) ;;
  let '(sequence_count, sequences, bitmap_tag_path) := data in
  let crosshair := struct_offset / sizeof_WeaponHUDInterfaceCrosshair in
  let overlay_count := length (crosshair_overlays self) in
  for_each_index 0 overlay_count (fun i =>
    self <- get_this ;;
    overlay <- defined (nth_error (crosshair_overlays self) i) ;;
    let index := overlay_sequence_index overlay in
    if negb (index =? NULL_INDEX) then
      if index >=? sequence_count then
        REPORT_ERROR_PRINTF ERROR_TYPE_ERROR tag_index
          (CrosshairOverlayOutOfBounds index bitmap_tag_path i crosshair
             sequence_count)
      else
        sequence <- defined (sequence_at sequences index) ;;
        if not_a_sprite (overlay_flags overlay) then
          if bitmap_count sequence =? 0 then
            REPORT_ERROR_PRINTF ERROR_TYPE_ERROR tag_index
              (CrosshairOverlayZeroBitmaps index bitmap_tag_path i crosshair)
          else ret tt
        else
          if sprites_count sequence =? 0 then
            REPORT_ERROR_PRINTF ERROR_TYPE_ERROR tag_index
              (CrosshairOverlayZeroSprites index bitmap_tag_path i crosshair)
          else ret tt
    else ret tt).

(** [WeaponHUDInterfaceMeter::post_compile]. *)
Definition meter_post_compile (tag_index : nat) (struct_offset : Z)
  : Hook WeaponHUDInterfaceMeter unit :=
  self <- get_this ;;
  let index := meter_sequence_index self in
  if negb (index =? NULL_INDEX) then
    w <- get_workload ;;
    data <- defined (get_sequence_data w (meter_bitmap self)) ;;
    let '(sequence_count, sequences, bitmap_tag_path) := data in
    let meter := struct_offset / sizeof_WeaponHUDInterfaceCrosshair in
    if index >=? sequence_count then
      REPORT_ERROR_PRINTF ERROR_TYPE_ERROR tag_index
        (MeterOutOfBounds index bitmap_tag_path meter sequence_count)
    else
      sequence <- defined (sequence_at sequences index) ;;
      if sprites_count sequence =? 0 then
        REPORT_ERROR_PRINTF ERROR_TYPE_ERROR tag_index
          (MeterZeroSprites index bitmap_tag_path meter)
      else ret tt
  else ret tt.

(** [WeaponHUDInterfaceStaticElement::post_compile]. *)
Definition static_element_post_compile (tag_index : nat) (struct_offset : Z)
  : Hook WeaponHUDInterfaceStaticElement unit :=
  self <- get_this ;;
  let index := static_sequence_index self in
  if negb (index =? NULL_INDEX) then
    w <- get_workload ;;
    data <- defined (get_sequence_data w (interface_bitmap self)) ;;
    let '(sequence_count, sequences, bitmap_tag_path) := data in
    let element := struct_offset / sizeof_WeaponHUDInterfaceCrosshair in
    if index >=? sequence_count then
      REPORT_ERROR_PRINTF ERROR_TYPE_ERROR tag_index
        (StaticElementOutOfBounds index bitmap_tag_path element
           sequence_count)
    else
      sequence <- defined (sequence_at sequences index) ;;
      if (bitmap_count sequence =? 0) && (sprites_count sequence =? 0) then
        REPORT_ERROR_PRINTF ERROR_TYPE_ERROR tag_index
          (StaticElementZeroSpritesBitmaps index bitmap_tag_path element)
      else ret tt
  else ret tt.

(** [WeaponHUDInterfaceOverlayElement::post_compile]. *)
Definition overlay_element_post_compile (tag_index : nat) (struct_offset : Z)
  : Hook WeaponHUDInterfaceOverlayElement unit :=
  w <- get_workload ;;
  self <- get_this ;;
  data <- defined (get_sequence_data w (overlay_bitmap self)) ;;
  let '(sequence_count, sequences, bitmap_tag_path) := data in
  let element := struct_offset / sizeof_WeaponHUDInterfaceCrosshair in
  let overlay_count := length (overlays self) in
  for_each_index 0 overlay_count (fun i =>
    self <- get_this ;;
    overlay <- defined (nth_error (overlays self) i) ;;
    let index := element_sequence_index overlay in
    if negb (index =? NULL_INDEX) then
      if index >=? sequence_count then
        REPORT_ERROR_PRINTF ERROR_TYPE_ERROR tag_index
          (ElementOverlayOutOfBounds index bitmap_tag_path i element
             sequence_count)
      else
        sequence <- defined (sequence_at sequences index) ;;
        if bitmap_count sequence =? 0 then
          REPORT_ERROR_PRINTF ERROR_TYPE_ERROR tag_index
            (ElementOverlayZeroBitmaps index bitmap_tag_path i element)
        else ret tt
    else ret tt).

End Hooks.

(** ** What the hooks report, as lists *)

Section Reports.
Context {constants : Constants}.

Definition error_of (tag_index : nat) (m : Message) : Diagnostic :=
  {| severity := ERROR_TYPE_ERROR; diagnostic_tag := tag_index; message := m |}.

(** What [WeaponHUDInterfaceCrosshair::post_compile] reports of overlay
    [i]. *)
Definition crosshair_overlay_reports (tag_index : nat) (struct_offset : Z)
    (sequence_count : Z) (sequences : list BitmapGroupSequence)
    (bitmap_tag_path : BitmapTagPath)
    (crosshair_overlays : list WeaponHUDInterfaceCrosshairOverlay) (i : nat)
  : list Diagnostic :=
  match nth_error crosshair_overlays i with
  | None => []
  | Some overlay =>
      let index := overlay_sequence_index overlay in
      let crosshair := struct_offset / sizeof_WeaponHUDInterfaceCrosshair in
      if index =? NULL_INDEX then []
      else if index >=? sequence_count then
        [error_of tag_index
           (CrosshairOverlayOutOfBounds index bitmap_tag_path i crosshair
              sequence_count)]
      else
        match sequence_at sequences index with
        | None => []
        | Some sequence =>
            if not_a_sprite (overlay_flags overlay) then
              if bitmap_count sequence =? 0 then
                [error_of tag_index
                   (CrosshairOverlayZeroBitmaps index bitmap_tag_path i
                      crosshair)]
              else []
            else
              if sprites_count sequence =? 0 then
                [error_of tag_index
                   (CrosshairOverlayZeroSprites index bitmap_tag_path i
                      crosshair)]
              else []
        end
  end.

(** What [WeaponHUDInterfaceMeter::post_compile] reports. *)
Definition meter_reports (tag_index : nat) (struct_offset : Z)
    (sequence_count : Z) (sequences : list BitmapGroupSequence)
    (bitmap_tag_path : BitmapTagPath) (self : WeaponHUDInterfaceMeter)
  : list Diagnostic :=
  let index := meter_sequence_index self in
  let meter := struct_offset / sizeof_WeaponHUDInterfaceCrosshair in
  if index =? NULL_INDEX then []
  else if index >=? sequence_count then
    [error_of tag_index
       (MeterOutOfBounds index bitmap_tag_path meter sequence_count)]
  else
    match sequence_at sequences index with
    | None => []
    | Some sequence =>
        if sprites_count sequence =? 0 then
          [error_of tag_index (MeterZeroSprites index bitmap_tag_path meter)]
        else []
    end.

End Reports.

(** The values of the constants in the tag definitions of the engine, to
    run the hooks on concrete records. *)
Definition halo_constants : Constants := {|
  NULL_INDEX := 65535;
  sizeof_WeaponHUDInterfaceCrosshair := 104;
  zoom := 1
|}.

(** A hook that returns has left [this] as it was and has done nothing to
    the workload but report diagnostics. *)
Definition only_reports {T A} (hook : Hook T A) : Prop :=
  forall s a s',
    hook s = Some (a, s') ->
    this s' = this s
    /\ exists new, workload s' = add_errors (workload s) new.

(** A workload with one bitmap tag of two sequences, the second of which
    has neither bitmaps nor sprites. *)
Definition sample_workload : BuildWorkload :=
  {| engine_target := Compression.CACHE_FILE_CUSTOM_EDITION;
     tags := [{| path := "crosshairs";
                 tag_class_int := 1651078253;
                 base_struct := Some 0%nat |}];
     structs := [BitmapData 2 (Some 1%nat);
                 BitmapGroupSequenceData
                   [{| bitmap_count := 1; sprites_count := 4 |};
                    {| bitmap_count := 0; sprites_count := 0 |}]];
     errors := [] |}.

Definition sample_path : BitmapTagPath :=
  Path_of "crosshairs" 1651078253.

Definition overlay_of (index : Z) : WeaponHUDInterfaceCrosshairOverlay :=
  {| overlay_sequence_index := index;
     overlay_flags := {| show_only_when_zoomed := false;
                         dont_show_when_zoomed := false;
                         not_a_sprite := false |} |}.

(** A crosshair with three overlays: sequence 0, sequence 5 (there are two
    sequences), and no sequence. *)
Definition sample_crosshair : WeaponHUDInterfaceCrosshair :=
  {| crosshair_type := 0;
     crosshair_bitmap := TagID_index 0;
     crosshair_overlays := [overlay_of 0; overlay_of 5; overlay_of 65535] |}.

Definition sample_meter : WeaponHUDInterfaceMeter :=
  {| meter_sequence_index := 2; meter_bitmap := TagID_index 0 |}.

(** An interface with crosshairs of types 0, 3 and 3, whose aggregated
    flags hold a stale value. *)
Definition sample_interface : WeaponHUDInterface :=
  {| crosshairs :=
       [sample_crosshair;
        {| crosshair_type := 3; crosshair_bitmap := TagID_null;
           crosshair_overlays := [] |};
        {| crosshair_type := 3; crosshair_bitmap := TagID_null;
           crosshair_overlays := [] |}];
     crosshair_types := 4294967295 |}.

(** An interface with one crosshair, of type 0, one overlay of which is
    shown only when zoomed. *)
Definition zooming_interface : WeaponHUDInterface :=
  {| crosshairs :=
       [{| crosshair_type := 0;
           crosshair_bitmap := TagID_null;
           crosshair_overlays :=
             [overlay_of 0;
              {| overlay_sequence_index := 0;
                 overlay_flags := {| show_only_when_zoomed := true;
                                     dont_show_when_zoomed := false;
                                     not_a_sprite := false |} |}] |}];
     crosshair_types := 0 |}.

End Parser.

(* ================================================================== *)
(** * Further definitions for the properties of the transforms *)

Module CompressionSupport.
Import Compression.

(** The bytes the loop asked [read_data] for, all requests together. *)
Fixpoint requested_bytes (log : list Event) : nat :=
  match log with
  | [] => O
  | Requested size :: log' => size + requested_bytes log'
  | Reported _ :: log' => requested_bytes log'
  end.

(** The engine enumerators of the decompressed representation. *)
Definition is_uncompressed_engine (e : CacheFileEngine) : bool :=
  match e with
  | CACHE_FILE_CUSTOM_EDITION
  | CACHE_FILE_RETAIL
  | CACHE_FILE_DEMO => true
  | _ => false
  end.

(** The header [decompress_header] writes for the header [h] once
    compressed: the engine and the untouched fields of [h], size 0, in
    the demo shape with the demo literals when [h] is a demo header. *)
Definition decompressed_image_of (h : CacheFileHeader) : HeaderImage :=
  if engine_eqb (engine h) CACHE_FILE_DEMO then
    DemoHeader {| head_literal := CACHE_FILE_HEAD_DEMO;
                  engine := engine h;
                  decompressed_file_size := 0;
                  other_fields := other_fields h;
                  foot_literal := CACHE_FILE_FOOT_DEMO |}
  else
    StandardHeader {| head_literal := CACHE_FILE_HEAD;
                      engine := engine h;
                      decompressed_file_size := 0;
                      other_fields := other_fields h;
                      foot_literal := CACHE_FILE_FOOT |}.



Section Accounting.
Context {hek : HEK} {zstd : ZSTD}.

(** While nothing was thrown, what was requested and what is unread make
    up the body, of [body_length] bytes, and [total_read] counts the
    header and what was requested. *)
Definition accounted (body_length : nat) (st : Transfer) : Prop :=
  (requested_bytes (events st) + length (unread st) = body_length)%nat
  /\ total_read st = HEADER_SIZE + Z.of_nat (requested_bytes (events st)).

End Accounting.

End CompressionSupport.

(* ================================================================== *)
(** * Further definitions for the properties of the hooks *)

Module ParserSupport.
Import Parser.

(** The overlay a message is about, for the messages about overlays. *)
Definition message_overlay (m : Message) : option nat :=
  match m with
  | CrosshairOverlayOutOfBounds _ _ overlay _ _
  | CrosshairOverlayZeroBitmaps _ _ overlay _
  | CrosshairOverlayZeroSprites _ _ overlay _
  | ElementOverlayOutOfBounds _ _ overlay _ _
  | ElementOverlayZeroBitmaps _ _ overlay _ => Some overlay
  | _ => None
  end.

(** Whether a diagnostic is about overlay [i]. *)
Definition about_overlay (i : nat) (d : Diagnostic) : bool :=
  match message_overlay (message d) with
  | Some j => (j =? i)%nat
  | None => false
  end.

(** The diagnostics of a list that are about overlay [i], in order. *)
Definition reports_about (i : nat) (new : list Diagnostic) : list Diagnostic :=
  filter (about_overlay i) new.

(** The overlays of all crosshairs, in order. *)
Definition all_overlays (crosshairs : list WeaponHUDInterfaceCrosshair)
  : list WeaponHUDInterfaceCrosshairOverlay :=
  flat_map crosshair_overlays crosshairs.

Section Reports.
Context {constants : Constants}.

(** What [WeaponHUDInterfaceStaticElement::post_compile] reports. *)
Definition static_element_reports (tag_index : nat) (struct_offset : Z)
    (sequence_count : Z) (sequences : list BitmapGroupSequence)
    (bitmap_tag_path : BitmapTagPath) (self : WeaponHUDInterfaceStaticElement)
  : list Diagnostic :=
  let index := static_sequence_index self in
  let element := struct_offset / sizeof_WeaponHUDInterfaceCrosshair in
  if index =? NULL_INDEX then []
  else if index >=? sequence_count then
    [error_of tag_index
       (StaticElementOutOfBounds index bitmap_tag_path element sequence_count)]
  else
    match sequence_at sequences index with
    | None => []
    | Some sequence =>
        if (bitmap_count sequence =? 0) && (sprites_count sequence =? 0) then
          [error_of tag_index
             (StaticElementZeroSpritesBitmaps index bitmap_tag_path element)]
        else []
    end.

(** What [WeaponHUDInterfaceOverlayElement::post_compile] reports of
    overlay [i]. *)
Definition element_overlay_reports (tag_index : nat) (struct_offset : Z)
    (sequence_count : Z) (sequences : list BitmapGroupSequence)
    (bitmap_tag_path : BitmapTagPath)
    (overlays : list WeaponHUDInterfaceOverlay) (i : nat)
  : list Diagnostic :=
  match nth_error overlays i with
  | None => []
  | Some overlay =>
      let index := element_sequence_index overlay in
      let element := struct_offset / sizeof_WeaponHUDInterfaceCrosshair in
      if index =? NULL_INDEX then []
      else if index >=? sequence_count then
        [error_of tag_index
           (ElementOverlayOutOfBounds index bitmap_tag_path i element
              sequence_count)]
      else
        match sequence_at sequences index with
        | None => []
        | Some sequence =>
            if bitmap_count sequence =? 0 then
              [error_of tag_index
                 (ElementOverlayZeroBitmaps index bitmap_tag_path i element)]
            else []
        end
  end.

(** What [WeaponHUDInterface::pre_compile] reports: one warning that
    counts the overlays that change on zoom, when the target is not Dark
    Circlet, no crosshair is of the zoom type and there is such an
    overlay. *)
Definition zoom_warning (tag_index : nat) (w : BuildWorkload)
    (crosshairs : list WeaponHUDInterfaceCrosshair) : list Diagnostic :=
  let zooms := length (filter changes_on_zoom (all_overlays crosshairs)) in
  if negb (Compression.engine_eqb (engine_target w)
             Compression.CACHE_FILE_DARK_CIRCLET)
     && negb (existsb (fun c => crosshair_type c =? zoom) crosshairs)
     && negb (zooms =? 0)%nat
  then [{| severity := ERROR_TYPE_WARNING;
           diagnostic_tag := tag_index;
           message := OverlaysChangeOnZoom zooms |}]
  else [].

End Reports.

(** A static element whose sequence, the second of the sample bitmap, has
    neither bitmaps nor sprites. *)
Definition sample_static_element : WeaponHUDInterfaceStaticElement :=
  {| static_sequence_index := 1; interface_bitmap := TagID_index 0 |}.

(** An overlay element with overlays on sequence 1 (no bitmaps), sequence
    0, sequence 9 (there are two) and no sequence. *)
Definition sample_overlay_element : WeaponHUDInterfaceOverlayElement :=
  {| overlay_bitmap := TagID_index 0;
     overlays := [{| element_sequence_index := 1 |};
                  {| element_sequence_index := 0 |};
                  {| element_sequence_index := 9 |};
                  {| element_sequence_index := 65535 |}] |}.

(** A crosshair with a sprite overlay and an overlay that is not a sprite,
    both on sequence 1, which has neither sprites nor bitmaps. *)
Definition empty_sequence_crosshair : WeaponHUDInterfaceCrosshair :=
  {| crosshair_type := 0;
     crosshair_bitmap := TagID_index 0;
     crosshair_overlays :=
       [overlay_of 1;
        {| overlay_sequence_index := 1;
           overlay_flags := {| show_only_when_zoomed := false;
                               dont_show_when_zoomed := false;
                               not_a_sprite := true |} |};
        overlay_of 0] |}.

End ParserSupport.

(* ================================================================== *)
(** * Paths and the tag directory listing ([src/file/file.cpp]) *)

Module File.

Local Open Scope nat_scope.

(** A character ([char]) and the characters of a C string before its
    terminator; a [std::string] is given by its characters, none of which
    is NUL. *)
Definition char : Type := Ascii.ascii.
Definition chars : Type := list char.

Definition NUL : char := Ascii.zero.
Definition HALO_PATH_SEPARATOR : char := Ascii.ascii_of_nat 92.
Definition PORTABLE_PATH_SEPARATOR : char := Ascii.ascii_of_nat 47.
Definition DOT : char := Ascii.ascii_of_nat 46.
Definition STAR : char := Ascii.ascii_of_nat 42.
Definition QUESTION_MARK : char := Ascii.ascii_of_nat 63.

(** The test [*c == '.'] of the loops that look for the extension. *)
Definition is_dot (c : char) : bool := Ascii.eqb c DOT.

(** What [file.cpp] takes from headers that are not part of the sources
    at hand: the macro [INVADER_PREFERRED_PATH_SEPARATOR], the function
    [HEK::tag_extension_to_fourcc] and the two enumerators of [TagFourCC]
    it is compared with. *)
Class Platform : Type := {
  INVADER_PREFERRED_PATH_SEPARATOR : char;
  tag_extension_to_fourcc : chars -> Z;
  TAG_FOURCC_NONE : Z;
  TAG_FOURCC_NULL : Z
}.

Section Paths.
Context {platform : Platform}.

Definition SYSTEM_PATH_SEPARATOR : char := INVADER_PREFERRED_PATH_SEPARATOR.

(** The test the functions of the file repeat: one of the three
    separators. *)
Definition is_separator (c : char) : bool :=
  Ascii.eqb c HALO_PATH_SEPARATOR
  || Ascii.eqb c SYSTEM_PATH_SEPARATOR
  || Ascii.eqb c PORTABLE_PATH_SEPARATOR.

(** [halo_path_to_preferred_path_chars], which rewrites the string in
    place. *)
Definition halo_path_to_preferred_path_chars (tag_path : chars) : chars :=
  map (fun c => if is_separator c then SYSTEM_PATH_SEPARATOR else c) tag_path.

(** [preferred_path_to_halo_path_chars]. *)
Definition preferred_path_to_halo_path_chars (tag_path : chars) : chars :=
  map (fun c => if is_separator c then HALO_PATH_SEPARATOR else c) tag_path.

(** [halo_path_to_preferred_path]: the characters are copied with their
    terminator, rewritten, and made a string again. *)
Definition halo_path_to_preferred_path (tag_path : chars) : chars :=
  halo_path_to_preferred_path_chars tag_path.

(** [preferred_path_to_halo_path]. *)
Definition preferred_path_to_halo_path (tag_path : chars) : chars :=
  preferred_path_to_halo_path_chars tag_path.

(** The loop of [base_name_chars]: [tag_path] runs over the string and
    [base_name] is set to what follows each separator met. *)
Fixpoint base_name_chars_loop (tag_path base_name : chars) : chars :=
  match tag_path with
  | [] => base_name
  | c :: tag_path' =>
      if is_separator c
      then base_name_chars_loop tag_path' tag_path'
      else base_name_chars_loop tag_path' base_name
  end.

(** [base_name_chars]. *)
Definition base_name_chars (tag_path : chars) : chars :=
  base_name_chars_loop tag_path tag_path.

(** The loop of [base_name] that looks for the last dot: [before] holds
    the characters from [base_name] up to [c], and [base_name_end], once
    set, the characters before the last dot met. *)
Fixpoint base_name_end_loop (before c : chars) (base_name_end : option chars)
  : option chars :=
  match c with
  | [] => base_name_end
  | ch :: c' =>
      base_name_end_loop (before ++ [ch]) c'
        (if Ascii.eqb ch DOT then Some before else base_name_end)
  end.

(** [base_name(tag_path, drop_extension)]. *)
Definition base_name (tag_path : chars) (drop_extension : bool) : chars :=
  let base_name := base_name_chars tag_path in
  if drop_extension then
    match base_name_end_loop [] base_name None with
    | Some before_dot => before_dot
    | None => base_name
    end
  else base_name.

(** The characters of a buffer up to its first NUL. *)
Fixpoint c_string (buffer : chars) : chars :=
  match buffer with
  | [] => []
  | c :: buffer' => if Ascii.eqb c NUL then [] else c :: c_string buffer'
  end.

(** [buffer[i] = c]. *)
Fixpoint store (buffer : chars) (i : nat) (c : char) : chars :=
  match buffer, i with
  | [], _ => []
  | _ :: buffer', O => c :: buffer'
  | b :: buffer', S i' => b :: store buffer' i' c
  end.

(** The loop of [remove_trailing_slashes_chars] over the buffer [path],
    [i] being the index it is at; the source writes [i++], so the index
    goes up.  [None]: the index left the buffer, or the fuel ran out. *)
Fixpoint remove_trailing_slashes_loop (fuel : nat) (path : chars) (i : Z)
  : option chars :=
  match fuel with
  | O => None
  | S fuel' =>
      if (i >=? 0)%Z then
        match nth_error path (Z.to_nat i) with
        | None => None
        | Some c =>
            if is_separator c
            then remove_trailing_slashes_loop fuel'
                   (store path (Z.to_nat i) NUL) (i + 1)%Z
            else Some path
        end
      else Some path
  end.

(** [remove_trailing_slashes_chars(path)] on a buffer; [strlen] is the
    length of its C string. *)
Definition remove_trailing_slashes_chars (path : chars) : option chars :=
  let path_length := Z.of_nat (length (c_string path)) in
  remove_trailing_slashes_loop (S (length path)) path (path_length - 1)%Z.

(** [remove_trailing_slashes(path)]: the buffer holds the characters, the
    terminator and one more NUL. *)
Definition remove_trailing_slashes (path : chars) : option chars :=
  match remove_trailing_slashes_chars (path ++ [NUL; NUL]) with
  | Some v => Some (c_string v)
  | None => None
  end.



(** [TagFilePath]: the path without its extension, and the class. *)
Record TagFilePath : Type := {
  path : chars;
  fourcc : Z
}.

(** The loop of [split_tag_class_extension_chars]: [before] holds the
    characters before [c]; [extension], once set, is the pair of the
    characters before the last dot met and of those after it. *)
Fixpoint extension_loop (before c : chars) (extension : option (chars * chars))
  : option (chars * chars) :=
  match c with
  | [] => extension
  | ch :: c' =>
      extension_loop (before ++ [ch]) c'
        (if Ascii.eqb ch DOT then Some (before, c') else extension)
  end.

(** [split_tag_class_extension_chars]. *)
Definition split_tag_class_extension_chars (tag_path : chars)
  : option TagFilePath :=
  match extension_loop [] tag_path None with
  | None => None
  | Some (before_dot, extension) =>
      let tag_class := tag_extension_to_fourcc extension in
      if (tag_class =? TAG_FOURCC_NONE)%Z || (tag_class =? TAG_FOURCC_NULL)%Z
      then None
      else Some {| path := before_dot;
                   fourcc := tag_extension_to_fourcc extension |}
  end.

(** [split_tag_class_extension]. *)
Definition split_tag_class_extension (tag_path : chars) : option TagFilePath :=
  split_tag_class_extension_chars tag_path.

(** ** [path_matches] *)

(** What a call comes to: an answer, or no defined behaviour because the
    character after the terminator of [path] was read. *)
Inductive Matched : Type :=
| Answer (b : bool)
| ReadPastEnd.

(** The loop that moves [p] past the stars it is at. *)
Fixpoint skip_stars (p : chars) : chars :=
  match p with
  | c :: p' => if Ascii.eqb c STAR then skip_stars p' else p
  | [] => []
  end.

(** The loop of [s] from [path] up to its terminator that returns true at
    the first [s] for which the call, here [matches], does, and false
    after the last. *)
Fixpoint any_suffix_matches (matches : chars -> option Matched) (s : chars)
  : option Matched :=
  match s with
  | [] => Some (Answer false)
  | _ :: s' =>
      match matches s with
      | Some (Answer false) => any_suffix_matches matches s'
      | other => other
      end
  end.

(** [path_matches(path, pattern)], [p] being where the loop is in the
    pattern.  [path] is [None] once it was moved past its terminator.
    Each turn of the loop and each call shortens the pattern and takes one
    unit of [fuel]; the outer [None] is for fuel that ran out. *)
Fixpoint path_matches_loop (fuel : nat) (path : option chars) (p : chars)
  : option Matched :=
  match fuel with
  | O => None
  | S fuel' =>
      match path with
      | None => Some ReadPastEnd
      | Some path =>
          let star (p : chars) :=
            match skip_stars p with
            | [] => Some (Answer true)
            | p'' =>
                any_suffix_matches
                  (fun s => path_matches_loop fuel' (Some s) p'') path
            end in
          match p, path with
          | [], [] => Some (Answer true)
          | [], _ :: _ => Some (Answer false)
          | pc :: p', [] =>
              if Ascii.eqb pc QUESTION_MARK
              then path_matches_loop fuel' None p'
              else if Ascii.eqb pc STAR then star p
              else Some (Answer false)
          | pc :: p', c :: path' =>
              if Ascii.eqb pc QUESTION_MARK || Ascii.eqb pc c
                 || (is_separator pc && is_separator c)
              then path_matches_loop fuel' (Some path') p'
              else if Ascii.eqb pc STAR then star p
              else Some (Answer false)
          end
      end
  end.

(** [path_matches(path, pattern)]. *)
Definition path_matches (path pattern : chars) : option Matched :=
  path_matches_loop (S (length pattern)) (Some path) pattern.

(** The first loop of the overload with lists: [Some true] when a pattern
    of [exclude] matched. *)
Fixpoint any_pattern_matches (path : chars) (patterns : list chars)
  : option Matched :=
  match patterns with
  | [] => Some (Answer false)
  | e :: patterns' =>
      match path_matches path e with
      | Some (Answer false) => any_pattern_matches path patterns'
      | other => other
      end
  end.

(** [path_matches(path, include, exclude)]. *)
Definition path_matches_lists (path : chars) (include exclude : list chars)
  : option Matched :=
  match any_pattern_matches path exclude with
  | Some (Answer true) => Some (Answer false)
  | Some (Answer false) =>
      match any_pattern_matches path include with
      | Some (Answer true) => Some (Answer true)
      | Some (Answer false) =>
          Some (Answer (match include with [] => true | _ :: _ => false end))
      | other => other
      end
  | other => other
  end.

(** Two characters that [path_matches] takes for each other when the one
    of the pattern is no wildcard. *)
Definition same_char (pc c : char) : bool :=
  Ascii.eqb pc c || (is_separator pc && is_separator c).

Definition is_wildcard (pc : char) : bool :=
  Ascii.eqb pc QUESTION_MARK || Ascii.eqb pc STAR.

(** A pattern without wildcard against a path, character by character. *)
Fixpoint same_chars (pattern path : chars) : bool :=
  match pattern, path with
  | [], [] => true
  | pc :: pattern', c :: path' => same_char pc c && same_chars pattern' path'
  | _, _ => false
  end.


(** Whether a call of [path_matches] returned true. *)
Definition returned_true (m : option Matched) : bool :=
  match m with
  | Some (Answer true) => true
  | _ => false
  end.

End Paths.

(** ** The listing of tags and its duplicates *)

(** [TagFile]. *)
Record TagFile : Type := {
  full_path : chars;
  tag_fourcc : Z;
  tag_directory : nat;
  tag_path : chars
}.

Fixpoint chars_eqb (a b : chars) : bool :=
  match a, b with
  | [], [] => true
  | x :: a', y :: b' => Ascii.eqb x y && chars_eqb a' b'
  | _, _ => false
  end.

(** [tagi.tag_fourcc == tagj.tag_fourcc && tagi.tag_path == tagj.tag_path]. *)
Definition same_tag (tagi tagj : TagFile) : bool :=
  (tag_fourcc tagi =? tag_fourcc tagj)%Z
  && chars_eqb (tag_path tagi) (tag_path tagj).

(** The two fields that comparison reads. *)
Definition tag_key (tag : TagFile) : Z * chars :=
  (tag_fourcc tag, tag_path tag).

(** [all_tags.erase(all_tags.begin() + k)]. *)
Definition erase (all_tags : list TagFile) (k : nat) : list TagFile :=
  firstn k all_tags ++ skipn (S k) all_tags.

(** The inner loop of lines 417-432, from [j] with [count] turns left:
    the first [j] below [i] whose tag is the same as [tagi]. *)
Fixpoint first_same_tag (all_tags : list TagFile) (tagi : TagFile)
    (j count : nat) : option nat :=
  match count with
  | O => None
  | S count' =>
      match nth_error all_tags j with
      | Some tagj =>
          if same_tag tagi tagj then Some j
          else first_same_tag all_tags tagi (S j) count'
      | None => None
      end
  end.

(** The outer loop of lines 416-433 at index [i].  When a tag below [i]
    is the same as the tag at [i], the one of the two with the greater
    [tag_directory] (the earlier one when they are equal) is erased, and
    after [i--] and the [i++] of the loop [i] is what it was. *)
Fixpoint filter_duplicates_loop (fuel : nat) (all_tags : list TagFile)
    (i : nat) : option (list TagFile) :=
  match fuel with
  | O => None
  | S fuel' =>
      match nth_error all_tags i with
      | None => Some all_tags
      | Some tagi =>
          match first_same_tag all_tags tagi 0 i with
          | Some j =>
              match nth_error all_tags j with
              | Some tagj =>
                  if (tag_directory tagj <? tag_directory tagi)
                  then filter_duplicates_loop fuel' (erase all_tags i) i
                  else filter_duplicates_loop fuel' (erase all_tags j) i
              | None => None
              end
          | None => filter_duplicates_loop fuel' all_tags (S i)
          end
      end
  end.

(** The removal of duplicates at the end of [load_virtual_tag_folder],
    when [filter_duplicates] is set. *)
Definition filter_duplicates (all_tags : list TagFile)
  : option (list TagFile) :=
  filter_duplicates_loop (S (2 * length all_tags)) all_tags 0.

(** The same removal, told by what is kept: [kept] are the tags below
    [i], [rest] the tags from [i] on. *)
Fixpoint keep_lowest_directory (kept rest : list TagFile) : list TagFile :=
  match rest with
  | [] => kept
  | tagi :: rest' =>
      match first_same_tag kept tagi 0 (length kept) with
      | Some j =>
          match nth_error kept j with
          | Some tagj =>
              if (tag_directory tagj <? tag_directory tagi)
              then keep_lowest_directory kept rest'
              else keep_lowest_directory (erase kept j ++ [tagi]) rest'
          | None => kept ++ rest
          end
      | None => keep_lowest_directory (kept ++ [tagi]) rest'
      end
  end.

(** ** [TagFile::split_tag_path] *)

Section SplitTagPath.
Context {platform : Platform}.




End SplitTagPath.

(** Two platforms, to run the functions: the preferred separator is the
    slash or the backslash; the classes known are those of the extensions
    of one letter, numbered by that letter. *)
Definition one_letter_fourcc (extension : chars) : Z :=
  match extension with
  | [c] => Z.of_nat (Ascii.nat_of_ascii c)
  | _ => 0%Z
  end.

Definition posix : Platform := {|
  INVADER_PREFERRED_PATH_SEPARATOR := PORTABLE_PATH_SEPARATOR;
  tag_extension_to_fourcc := one_letter_fourcc;
  TAG_FOURCC_NONE := 0%Z;
  TAG_FOURCC_NULL := 4294967295%Z
|}.

Definition windows : Platform := {|
  INVADER_PREFERRED_PATH_SEPARATOR := HALO_PATH_SEPARATOR;
  tag_extension_to_fourcc := one_letter_fourcc;
  TAG_FOURCC_NONE := 0%Z;
  TAG_FOURCC_NULL := 4294967295%Z
|}.

(** The characters of a string literal. *)
Definition of_string (s : string) : chars := list_ascii_of_string s.

End File.

Unset Implicit Arguments.

(* ================================================================== *)
(** * Properties of the header transcoder *)

Module TranscoderFacts.
Import Compression.
Import CompressionSupport.

Lemma engine_eqb_eq (a b : CacheFileEngine) : engine_eqb a b = true <-> a = b.
Proof.
  split.
  - destruct a, b; simpl; try discriminate; try reflexivity.
    intros H. apply Z.eqb_eq in H. now subst.
  - intros <-. destruct a; simpl; try reflexivity. apply Z.eqb_refl.
Qed.

Lemma literal_eqb_eq (a b : CacheFileLiteral) : literal_eqb a b = true <-> a = b.
Proof.
  split.
  - destruct a, b; simpl; try discriminate; try reflexivity.
    intros H. apply Z.eqb_eq in H. now subst.
  - intros <-. destruct a; simpl; try reflexivity. apply Z.eqb_refl.
Qed.

Lemma literal_hek_checks_literals : ValidChecksLiterals literal_hek.
Proof.
  intros h H. simpl in H. apply andb_true_iff in H as [H1 H2].
  split; now apply literal_eqb_eq.
Qed.

Lemma spec_hek_checks_literals : ValidChecksLiterals spec_hek.
Proof.
  intros h H. simpl in H. unfold spec_valid in H.
  apply andb_true_iff in H as [H _]. apply andb_true_iff in H as [H1 H2].
  split; now apply literal_eqb_eq.
Qed.

Section WithHEK.
Context {hek : HEK}.

Lemma compress_header_invalid h n :
  valid h = false -> compress_header h n = Throw InvalidMapException.
Proof. intros H. unfold compress_header. now rewrite H. Qed.

Lemma compress_header_valid h n :
  valid h = true ->
  compress_header h n =
    bind (compress_engine h) (fun new_engine_version =>
      if n >? UINT32_MAX then Throw MaximumFileSizeException else
      OK (StandardHeader
            {| head_literal := CACHE_FILE_HEAD;
               engine := new_engine_version;
               decompressed_file_size := n;
               other_fields := other_fields h;
               foot_literal := CACHE_FILE_FOOT |})).
Proof. intros H. unfold compress_header. now rewrite H. Qed.

Lemma compress_engine_needs_decompressed h :
  compress_engine h = Throw MapNeedsDecompressedException <->
  carries_compressed_form h = true.
Proof.
  unfold compress_engine, carries_compressed_form.
  destruct (engine h); simpl;
    try destruct (decompressed_file_size h >? 0); simpl;
    split; intros H; try reflexivity; discriminate.
Qed.

End WithHEK.

(** C3, as stated, fails: a header whose engine is a compressed enumerator
    but whose head literal is wrong is refused by the validity check, with
    [InvalidMapException], before the engine is looked at. *)
Lemma compressed_engine_invalid_header_counterexample :
  is_compressed_engine
    (engine (broken_header_of CACHE_FILE_CUSTOM_EDITION_COMPRESSED 4096)) = true
  /\ compress_header (hek := literal_hek)
       (broken_header_of CACHE_FILE_CUSTOM_EDITION_COMPRESSED 4096) 4096
     = Throw InvalidMapException
  /\ compress_header (hek := spec_hek)
       (broken_header_of CACHE_FILE_CUSTOM_EDITION_COMPRESSED 4096) 4096
     = Throw InvalidMapException.
Proof. repeat split. Qed.

(** C3, amended: for a header that passes [valid()], compressing fails with
    [MapNeedsDecompressedException] when the engine is one of the
    compressed enumerators, and with [UnsupportedMapEngineException] when
    the engine is not recognized; [MapNeedsDecompressedException] is thrown
    exactly when the header already carries the compressed form. *)
Theorem compress_header_already_compressed
    (hek : HEK) (h : CacheFileHeader) (decompressed_size : Z)
    (Hvalid : valid h = true) :
  (is_compressed_engine (engine h) = true ->
     compress_header h decompressed_size = Throw MapNeedsDecompressedException)
  /\ (is_unrecognized_engine (engine h) = true ->
     compress_header h decompressed_size = Throw UnsupportedMapEngineException)
  /\ (compress_header h decompressed_size = Throw MapNeedsDecompressedException
      <-> carries_compressed_form h = true).
Proof.
  rewrite (compress_header_valid h decompressed_size Hvalid).
  repeat split.
  - unfold compress_engine. destruct (engine h); simpl; intros; congruence.
  - unfold compress_engine. destruct (engine h); simpl; intros; congruence.
  - intros H. apply compress_engine_needs_decompressed.
    destruct (compress_engine h) as [e|e]; simpl in H.
    + destruct (decompressed_size >? UINT32_MAX); discriminate.
    + congruence.
  - intros H. apply compress_engine_needs_decompressed in H.
    now rewrite H.
Qed.

Lemma compress_header_already_compressed_witness :
  valid (HEK := spec_hek) (header_of CACHE_FILE_RETAIL_COMPRESSED 4096) = true
  /\ compress_header (hek := spec_hek)
       (header_of CACHE_FILE_RETAIL_COMPRESSED 4096) 4096
     = Throw MapNeedsDecompressedException.
Proof.
  split; [reflexivity|].
  apply (compress_header_already_compressed spec_hek
           (header_of CACHE_FILE_RETAIL_COMPRESSED 4096) 4096);
    reflexivity.
Defined.

(** With a [valid()] that looks at the literals only, the [default] case
    of the switch is reached. *)
Example compress_header_unrecognized_engine :
  compress_header (hek := literal_hek)
    (header_of (CACHE_FILE_ENGINE_OTHER 5) 0) 4096
  = Throw UnsupportedMapEngineException.
Proof. reflexivity. Qed.





(** Compressing a demo map writes the standard shape, with the compressed
    demo engine. *)
Example compress_demo_header :
  compress_header (hek := literal_hek) (header_of CACHE_FILE_DEMO 0) 4096
  = OK (StandardHeader (header_of CACHE_FILE_DEMO_COMPRESSED 4096)).
Proof. reflexivity. Qed.

Example decompress_retail_header :
  decompress_header (hek := literal_hek)
    (header_of CACHE_FILE_RETAIL_COMPRESSED 4096)
  = OK (StandardHeader (header_of CACHE_FILE_RETAIL 0)).
Proof. reflexivity. Qed.

(** C5, as stated, fails: the engine switch comes before the checks of the
    size and of the literals.  A Dark Circlet header that declares size 0,
    less than the header size, and a retail header with a wrong head
    literal both fail with [MapNeedsCompressedException]. *)
Lemma undersized_header_counterexample :
  decompressed_file_size (header_of CACHE_FILE_DARK_CIRCLET 0)
    < HEADER_SIZE (HEK := literal_hek)
  /\ decompress_header (hek := literal_hek) (header_of CACHE_FILE_DARK_CIRCLET 0)
     = Throw MapNeedsCompressedException
  /\ head_literal (broken_header_of CACHE_FILE_RETAIL 4096) <> CACHE_FILE_HEAD
  /\ decompress_header (hek := literal_hek)
       (broken_header_of CACHE_FILE_RETAIL 4096)
     = Throw MapNeedsCompressedException.
Proof. repeat split. discriminate. Qed.

(** C5, amended: for every header that the engine switch of
    [decompress_header] lets through, a declared decompressed size below
    the header size, or a head or foot literal that is not the expected
    constant, makes [decompress_header] throw [InvalidMapException]; no
    header is written. *)
Theorem decompress_header_rejects_invalid
    (hek : HEK) (Hliterals : ValidChecksLiterals hek)
    (h : CacheFileHeader) (new_engine_version : CacheFileEngine)
    (Hengine : decompress_engine h = OK new_engine_version)
    (Hbad : decompressed_file_size h < HEADER_SIZE
            \/ head_literal h <> CACHE_FILE_HEAD
            \/ foot_literal h <> CACHE_FILE_FOOT) :
  decompress_header h = Throw InvalidMapException.
Proof.
  unfold decompress_header. rewrite Hengine. simpl.
  destruct (decompressed_file_size h <? HEADER_SIZE) eqn:Hsize; [reflexivity|].
  destruct (valid h) eqn:Hv; [|reflexivity].
  exfalso. destruct (Hliterals h Hv) as [Hhead Hfoot].
  apply Z.ltb_ge in Hsize.
  destruct Hbad as [Hb | [Hb | Hb]]; [lia | contradiction | contradiction].
Qed.

Lemma decompress_header_rejects_invalid_witness :
  ValidChecksLiterals spec_hek
  /\ decompress_engine (hek := spec_hek)
       (header_of CACHE_FILE_CUSTOM_EDITION_COMPRESSED 100)
     = OK CACHE_FILE_CUSTOM_EDITION
  /\ decompressed_file_size (header_of CACHE_FILE_CUSTOM_EDITION_COMPRESSED 100)
     < HEADER_SIZE (HEK := spec_hek)
  /\ decompress_header (hek := spec_hek)
       (header_of CACHE_FILE_CUSTOM_EDITION_COMPRESSED 100)
     = Throw InvalidMapException.
Proof.
  split; [exact spec_hek_checks_literals|].
  split; [reflexivity|].
  split; [reflexivity|].
  apply (decompress_header_rejects_invalid spec_hek spec_hek_checks_literals
           (header_of CACHE_FILE_CUSTOM_EDITION_COMPRESSED 100)
           CACHE_FILE_CUSTOM_EDITION).
  - reflexivity.
  - left. reflexivity.
Defined.

(** The literals are checked as well: a compressed header with a wrong
    head literal is refused. *)
Example decompress_header_wrong_literal :
  decompress_header (hek := literal_hek)
    (broken_header_of CACHE_FILE_RETAIL_COMPRESSED 4096)
  = Throw InvalidMapException.
Proof. reflexivity. Qed.

(** C10, as stated, fails for compression: a Dark Circlet header with a
    nonzero declared size and a wrong head literal is refused with
    [InvalidMapException], not with [MapNeedsDecompressedException]. *)
Lemma dark_circlet_invalid_header_counterexample :
  engine (broken_header_of CACHE_FILE_DARK_CIRCLET 4096)
    = CACHE_FILE_DARK_CIRCLET
  /\ decompressed_file_size (broken_header_of CACHE_FILE_DARK_CIRCLET 4096) <> 0
  /\ compress_header (hek := literal_hek)
       (broken_header_of CACHE_FILE_DARK_CIRCLET 4096) 4096
     = Throw InvalidMapException.
Proof. repeat split. discriminate. Qed.

(** C10, amended: for a Dark Circlet header (whose declared size is an
    unsigned number), a transcoder that succeeds writes the Dark
    Circlet engine again; compressing a header that passes [valid()]
    throws [MapNeedsDecompressedException] exactly when the declared
    decompressed size is not 0; decompressing throws
    [MapNeedsCompressedException] exactly when it is 0. *)
Theorem dark_circlet_transcoding
    (hek : HEK) (h : CacheFileHeader) (decompressed_size : Z)
    (Hengine : engine h = CACHE_FILE_DARK_CIRCLET)
    (Hunsigned : 0 <= decompressed_file_size h) :
  (valid h = true ->
     (compress_header h decompressed_size = Throw MapNeedsDecompressedException
      <-> decompressed_file_size h <> 0))
  /\ (decompress_header h = Throw MapNeedsCompressedException
      <-> decompressed_file_size h = 0)
  /\ (forall out, compress_header h decompressed_size = OK out ->
        engine (image_fields out) = CACHE_FILE_DARK_CIRCLET)
  /\ (forall out, decompress_header h = OK out ->
        engine (image_fields out) = CACHE_FILE_DARK_CIRCLET).
Proof.
  split; [intros Hvalid; split | split; [split | split]].
  - intros H Hz. unfold compress_header, compress_engine in H.
    rewrite Hvalid, Hengine in H. simpl in H.
    replace (decompressed_file_size h >? 0) with false in H by lia.
    simpl in H. destruct (decompressed_size >? UINT32_MAX); discriminate.
  - intros Hnz. unfold compress_header, compress_engine.
    rewrite Hvalid, Hengine. simpl.
    replace (decompressed_file_size h >? 0) with true by lia.
    reflexivity.
  - intros H. unfold decompress_header, decompress_engine in H.
    rewrite Hengine in H.
    destruct (decompressed_file_size h =? 0) eqn:Hz; [lia|].
    simpl in H.
    destruct ((decompressed_file_size h <? HEADER_SIZE) || negb (valid h));
      discriminate.
  - intros Hz. unfold decompress_header, decompress_engine.
    rewrite Hengine, Hz. reflexivity.
  - intros out H. unfold compress_header, compress_engine in H.
    rewrite Hengine in H.
    destruct (valid h); simpl in H; [|discriminate].
    destruct (decompressed_file_size h >? 0); simpl in H; [discriminate|].
    destruct (decompressed_size >? UINT32_MAX); [discriminate|].
    injection H as <-. reflexivity.
  - intros out H. unfold decompress_header, decompress_engine in H.
    rewrite Hengine in H.
    destruct (decompressed_file_size h =? 0); simpl in H; [discriminate|].
    destruct ((decompressed_file_size h <? HEADER_SIZE) || negb (valid h));
      [discriminate|].
    simpl in H. injection H as <-. reflexivity.
Qed.

Lemma dark_circlet_transcoding_witness :
  engine (header_of CACHE_FILE_DARK_CIRCLET 4096) = CACHE_FILE_DARK_CIRCLET
  /\ 0 <= decompressed_file_size (header_of CACHE_FILE_DARK_CIRCLET 4096)
  /\ (decompress_header (hek := literal_hek)
        (header_of CACHE_FILE_DARK_CIRCLET 4096)
      = Throw MapNeedsCompressedException
      <-> decompressed_file_size (header_of CACHE_FILE_DARK_CIRCLET 4096) = 0).
Proof.
  split; [reflexivity|].
  split; [simpl; lia|].
  apply (dark_circlet_transcoding literal_hek
           (header_of CACHE_FILE_DARK_CIRCLET 4096) 0).
  - reflexivity.
  - simpl; lia.
Defined.

Example dark_circlet_compress_set_size :
  compress_header (hek := literal_hek)
    (header_of CACHE_FILE_DARK_CIRCLET 4096) 8192
  = Throw MapNeedsDecompressedException.
Proof. reflexivity. Qed.

Example dark_circlet_compress_unset_size :
  compress_header (hek := literal_hek)
    (header_of CACHE_FILE_DARK_CIRCLET 0) 8192
  = OK (StandardHeader (header_of CACHE_FILE_DARK_CIRCLET 8192)).
Proof. reflexivity. Qed.

Example dark_circlet_decompress_set_size :
  decompress_header (hek := literal_hek)
    (header_of CACHE_FILE_DARK_CIRCLET 8192)
  = OK (StandardHeader (header_of CACHE_FILE_DARK_CIRCLET 0)).
Proof. reflexivity. Qed.

End TranscoderFacts.

(* ================================================================== *)
(** * Properties of the whole-buffer transforms *)

Module WholeBufferFacts.
Import Compression.
Import TranscoderFacts.

Lemma stored_lossless : ZSTD_lossless Stored.zstd.
Proof.
  intros capacity src level compressed dst_capacity H Hroom.
  simpl in *. unfold Stored.compress in H.
  destruct (Byte.of_nat (length src)) as [len|] eqn:Hlen; [|discriminate].
  destruct (Z.of_nat (length src) + 2 <=? capacity); [|discriminate].
  injection H as <-.
  unfold Stored.decompress.
  assert (Hto : Byte.to_nat len = length src).
  { now apply Byte.to_of_nat in Hlen. }
  rewrite Hto, Nat.eqb_refl.
  replace (Z.of_nat (length src) <=? dst_capacity) with true by lia.
  reflexivity.
Qed.

Lemma literal_hek_compressed_header_valid : CompressedHeaderValid literal_hek.
Proof.
  intros h n h' H. unfold compress_header in H.
  destruct (valid h); simpl in H; [|discriminate].
  destruct (compress_engine h); simpl in H; [|discriminate].
  destruct (n >? UINT32_MAX); [discriminate|].
  injection H as <-. reflexivity.
Qed.

Lemma spec_hek_compressed_header_valid : CompressedHeaderValid spec_hek.
Proof.
  intros h n h' H. unfold compress_header in H.
  destruct (valid h); simpl in H; [|discriminate].
  unfold compress_engine in H.
  destruct (engine h); simpl in H;
    try destruct (decompressed_file_size h >? 0); simpl in H;
    try discriminate;
    destruct (n >? UINT32_MAX); try discriminate;
    injection H as <-; reflexivity.
Qed.

Section WithParameters.
Context {hek : HEK} {zstd : ZSTD}.

(** The overload that returns a vector gives the other one a buffer of the
    declared size. *)
Lemma decompress_map_data_vector data header_out :
  decompress_header (map_header data) = OK header_out ->
  decompress_map_data data
  = decompress_map_data_into data (decompressed_file_size (map_header data)).
Proof. intros H. unfold decompress_map_data. now rewrite H. Qed.

(** Whatever [decompress_header] writes declares size 0. *)
Lemma decompress_header_unsets_size h out :
  decompress_header h = OK out ->
  decompressed_file_size (image_fields out) = 0.
Proof.
  unfold decompress_header.
  destruct (decompress_engine h) as [e|]; simpl; [|discriminate].
  destruct ((decompressed_file_size h <? HEADER_SIZE) || negb (valid h));
    [discriminate|].
  destruct (engine_eqb e CACHE_FILE_DEMO); intros H; injection H as <-;
    reflexivity.
Qed.

(** So does the header of every buffer [decompress_map_data] returns:
    with any codec, a buffer whose header declares a size is not what
    decompression returns. *)
Lemma decompress_map_data_unsets_size data image :
  decompress_map_data data = OK image ->
  decompressed_file_size (image_fields (image_header image)) = 0.
Proof.
  unfold decompress_map_data, decompress_map_data_into.
  destruct (decompress_header (map_header data)) as [out|] eqn:Hout; simpl;
    [|discriminate].
  destruct ((HEADER_SIZE >? data_size data) || negb (valid (map_header data))).
  - destruct (valid (demo_view (map_header data))
              && engine_eqb (engine (demo_view (map_header data)))
                   CACHE_FILE_DEMO); discriminate.
  - destruct (ZSTD_decompress _ (map_body data)) as [d|]; [|discriminate].
    destruct (negb _); [discriminate|].
    intros H; injection H as <-. simpl.
    now apply decompress_header_unsets_size with (map_header data).
Qed.

(** What [compress_header] returns when it returns. *)
Lemma compress_header_OK h n out :
  compress_header h n = OK out ->
  exists e,
    valid h = true /\ compress_engine h = OK e /\ n <= UINT32_MAX
    /\ out = StandardHeader
               {| head_literal := CACHE_FILE_HEAD;
                  engine := e;
                  decompressed_file_size := n;
                  other_fields := other_fields h;
                  foot_literal := CACHE_FILE_FOOT |}.
Proof.
  unfold compress_header.
  destruct (valid h); simpl; [|discriminate].
  destruct (compress_engine h) as [e|]; simpl; [|discriminate].
  destruct (n >? UINT32_MAX) eqn:Hn; [discriminate|].
  intros H; injection H as <-. exists e.
  repeat split. lia.
Qed.

(** The engine switch of [decompress_header] undoes the one of
    [compress_header], the size being set. *)
Lemma decompress_engine_of_compressed h e h' :
  compress_engine h = OK e ->
  engine h' = e -> decompressed_file_size h' <> 0 ->
  decompress_engine h' = OK (engine h).
Proof.
  unfold compress_engine, decompress_engine. intros He -> Hsize.
  destruct (engine h); simpl in He;
    try destruct (decompressed_file_size h >? 0);
    try discriminate; injection He as <-; try reflexivity.
  apply Z.eqb_neq in Hsize. now rewrite Hsize.
Qed.

End WithParameters.

(** C1, as stated, fails: [decompress_header] sets the declared size to 0.
    A Custom Edition map whose valid header declares the size of the file
    compresses, and the result decompresses to a buffer whose header
    declares 0: the body is back, the header is not. *)
Lemma roundtrip_counterexample :
  valid (HEK := literal_hek) (map_header sized_map) = true
  /\ compress_map_data (hek := literal_hek) (zstd := Stored.zstd) sized_map 3
     = OK {| image_header :=
               StandardHeader (header_of CACHE_FILE_CUSTOM_EDITION_COMPRESSED 2051);
             image_body := [Stored.magic; x03; x0a; x0b; x0c] |}
  /\ decompress_map_data (hek := literal_hek) (zstd := Stored.zstd)
       {| map_header := header_of CACHE_FILE_CUSTOM_EDITION_COMPRESSED 2051;
          map_body := [Stored.magic; x03; x0a; x0b; x0c] |}
     = OK {| image_header :=
               StandardHeader (header_of CACHE_FILE_CUSTOM_EDITION 0);
             image_body := [x0a; x0b; x0c] |}
  /\ {| image_header := StandardHeader (header_of CACHE_FILE_CUSTOM_EDITION 0);
        image_body := [x0a; x0b; x0c] |}
     <> image_of sized_map.
Proof.
  split; [reflexivity|].
  split; [reflexivity|].
  split; [reflexivity|].
  discriminate.
Qed.

(** C1, amended: take a buffer whose header is that of a Custom Edition,
    retail or Dark Circlet map the loader accepts, with the declared
    decompressed size left at 0.  If compressing it succeeds, decompressing
    the result returns the buffer, header and body.  The codec is assumed
    lossless; [valid()] is assumed to check the literals and to accept
    what [compress_header] writes; the loader hands out the header of the
    buffer. *)
Theorem decompress_compress_roundtrip
    (hek : HEK) (zstd : ZSTD)
    (Hlossless : ZSTD_lossless zstd)
    (Hliterals : ValidChecksLiterals hek)
    (Hstable : CompressedHeaderValid hek)
    (Hsizeof : 0 < HEADER_SIZE)
    (B : MapData) (level : Z) (h' : CacheFileHeader) (compressed : list byte)
    (Hloader : forall m, map_with_pointer B = OK m ->
                         get_cache_file_header m = map_header B)
    (Hunset : decompressed_file_size (map_header B) = 0)
    (Hengine : engine (map_header B) <> CACHE_FILE_DEMO)
    (Hcompress : compress_map_data B level
                 = OK {| image_header := StandardHeader h';
                         image_body := compressed |}) :
  decompress_map_data {| map_header := h'; map_body := compressed |}
  = OK (image_of B).
Proof.
  unfold compress_map_data, compress_map_data_into in Hcompress.
  destruct (map_with_pointer B) as [m|] eqn:Hm; simpl in Hcompress;
    [|discriminate].
  rewrite (Hloader m eq_refl) in Hcompress.
  destruct (compress_header (map_header B) (data_size B)) as [out|] eqn:Hh;
    simpl in Hcompress; [|discriminate].
  destruct (ZSTD_compress _ (map_body B) level) as [c|] eqn:Hc;
    [|discriminate].
  injection Hcompress as -> ->.
  pose proof (Hstable _ _ _ Hh) as Hvalid'.
  destruct (compress_header_OK _ _ _ Hh) as (e & Hvalid & He & Hmax & Hout).
  injection Hout as ->.
  destruct (Hliterals _ Hvalid) as [Hhead Hfoot].
  assert (Hdata : data_size B = HEADER_SIZE + Z.of_nat (length (map_body B)))
    by reflexivity.
  set (hc := {| head_literal := CACHE_FILE_HEAD; engine := e;
                decompressed_file_size := data_size B;
                other_fields := other_fields (map_header B);
                foot_literal := CACHE_FILE_FOOT |}) in *.
  assert (Hde : decompress_engine hc = OK (engine (map_header B))).
  { apply (decompress_engine_of_compressed _ e); [exact He|reflexivity|].
    simpl. lia. }
  assert (Hdh : decompress_header hc = OK (StandardHeader (map_header B))).
  { unfold decompress_header. rewrite Hde. simpl.
    replace (data_size B <? HEADER_SIZE) with false by lia.
    rewrite Hvalid'. simpl.
    destruct (engine_eqb (engine (map_header B)) CACHE_FILE_DEMO) eqn:Hd.
    - apply engine_eqb_eq in Hd. contradiction.
    - destruct B as [[hd en sz ot ft] body]. simpl in *. subst.
      reflexivity. }
  unfold decompress_map_data. simpl map_header. rewrite Hdh. simpl.
  unfold decompress_map_data_into. simpl map_header. simpl map_body.
  rewrite Hvalid', Hdh.
  assert (Hfits : (HEADER_SIZE
                   >? data_size {| map_header := hc; map_body := compressed |})
                  = false).
  { rewrite Z.gtb_ltb. apply Z.ltb_ge. unfold data_size. simpl. lia. }
  rewrite Hfits. simpl.
  rewrite (Hlossless _ _ _ _ (data_size B - HEADER_SIZE) Hc) by lia.
  replace (Z.of_nat (length (map_body B)) + HEADER_SIZE =? data_size B)
    with true by lia.
  reflexivity.
Qed.

Lemma decompress_compress_roundtrip_witness :
  compress_map_data (hek := literal_hek) (zstd := Stored.zstd) unsized_map 19
  = OK {| image_header :=
            StandardHeader (header_of CACHE_FILE_RETAIL_COMPRESSED 2051);
          image_body := [Stored.magic; x03; x0a; x0b; x0c] |}
  /\ decompress_map_data (hek := literal_hek) (zstd := Stored.zstd)
       {| map_header := header_of CACHE_FILE_RETAIL_COMPRESSED 2051;
          map_body := [Stored.magic; x03; x0a; x0b; x0c] |}
     = OK (image_of unsized_map).
Proof.
  split; [reflexivity|].
  apply (decompress_compress_roundtrip literal_hek Stored.zstd
           stored_lossless literal_hek_checks_literals
           literal_hek_compressed_header_valid eq_refl unsized_map 19).
  - intros m H. injection H as <-. reflexivity.
  - reflexivity.
  - discriminate.
  - reflexivity.
Defined.

(** C2, as stated, fails: the transforms have one exception for the two
    failures.  A body that decompresses without a codec error to a length
    the header does not declare makes [decompress_map_data] throw
    [DecompressionFailureException], the exception a body that the codec
    refuses makes it throw. *)
Lemma size_mismatch_counterexample :
  ZSTD_decompress (ZSTD := Stored.zstd) (2060 - 2048) (map_body overdeclared_map)
    = Some [x0a; x0b; x0c]
  /\ Z.of_nat (length [x0a; x0b; x0c]) + HEADER_SIZE (HEK := literal_hek)
     <> decompressed_file_size (map_header overdeclared_map)
  /\ decompress_map_data_into (hek := literal_hek) (zstd := Stored.zstd)
       overdeclared_map 2060
     = Throw DecompressionFailureException
  /\ decompress_map_data (hek := literal_hek) (zstd := Stored.zstd)
       overdeclared_map
     = Throw DecompressionFailureException
  /\ ZSTD_decompress (ZSTD := Stored.zstd) (2060 - 2048) (map_body corrupt_map)
     = None
  /\ decompress_map_data (hek := literal_hek) (zstd := Stored.zstd) corrupt_map
     = Throw DecompressionFailureException.
Proof. repeat split. discriminate. Qed.

(** C2, amended: when the header transcodes and the body decompresses
    without a codec error, [decompress_map_data] throws
    [DecompressionFailureException], the exception of the codec errors,
    exactly when the length of the decompressed body plus the header size
    differs from the declared decompressed size; otherwise it returns the
    transcoded header and the decompressed body. *)
Theorem size_mismatch_is_decompression_failure
    (hek : HEK) (zstd : ZSTD) (data : MapData) (output_size : Z)
    (header_out : HeaderImage) (decompressed : list byte)
    (Hheader : decompress_header (map_header data) = OK header_out)
    (Hcodec : ZSTD_decompress (output_size - HEADER_SIZE) (map_body data)
              = Some decompressed) :
  (decompress_map_data_into data output_size
     = Throw DecompressionFailureException
   <-> Z.of_nat (length decompressed) + HEADER_SIZE
       <> decompressed_file_size (map_header data))
  /\ (Z.of_nat (length decompressed) + HEADER_SIZE
       = decompressed_file_size (map_header data) ->
      decompress_map_data_into data output_size
      = OK {| image_header := header_out; image_body := decompressed |}).
Proof.
  assert (Hvalid : valid (map_header data) = true).
  { unfold decompress_header in Hheader.
    destruct (decompress_engine (map_header data)); simpl in Hheader;
      [|discriminate].
    destruct (decompressed_file_size (map_header data) <? HEADER_SIZE);
      simpl in Hheader; [discriminate|].
    destruct (valid (map_header data)); [reflexivity|discriminate]. }
  assert (Hfits : (HEADER_SIZE >? data_size data) = false).
  { rewrite Z.gtb_ltb. apply Z.ltb_ge. unfold data_size. lia. }
  unfold decompress_map_data_into.
  rewrite Hfits, Hvalid, Hheader, Hcodec. simpl.
  destruct (Z.of_nat (length decompressed) + HEADER_SIZE
            =? decompressed_file_size (map_header data)) eqn:Hsize; simpl.
  - apply Z.eqb_eq in Hsize. repeat split; intros; try reflexivity.
    + discriminate.
    + contradiction.
  - apply Z.eqb_neq in Hsize. repeat split; intros; try reflexivity.
    + assumption.
    + contradiction.
Qed.

Lemma size_mismatch_is_decompression_failure_witness :
  decompress_header (hek := literal_hek) (map_header overdeclared_map)
    = OK (StandardHeader (header_of CACHE_FILE_CUSTOM_EDITION 0))
  /\ ZSTD_decompress (ZSTD := Stored.zstd)
       (2060 - HEADER_SIZE (HEK := literal_hek)) (map_body overdeclared_map)
     = Some [x0a; x0b; x0c]
  /\ (decompress_map_data_into (hek := literal_hek) (zstd := Stored.zstd)
        overdeclared_map 2060
      = Throw DecompressionFailureException
      <-> Z.of_nat (length [x0a; x0b; x0c]) + HEADER_SIZE (HEK := literal_hek)
          <> decompressed_file_size (map_header overdeclared_map)).
Proof.
  split; [reflexivity|].
  split; [reflexivity|].
  apply (size_mismatch_is_decompression_failure literal_hek Stored.zstd
           overdeclared_map 2060
           (StandardHeader (header_of CACHE_FILE_CUSTOM_EDITION 0))
           [x0a; x0b; x0c]); reflexivity.
Defined.

(** When the sizes agree the buffer is returned. *)
Example decompress_declared_size :
  decompress_map_data (hek := literal_hek) (zstd := Stored.zstd)
    {| map_header := header_of CACHE_FILE_CUSTOM_EDITION_COMPRESSED 2051;
       map_body := [x3a; x03; x0a; x0b; x0c] |}
  = OK {| image_header := StandardHeader (header_of CACHE_FILE_CUSTOM_EDITION 0);
          image_body := [x0a; x0b; x0c] |}.
Proof. reflexivity. Qed.

End WholeBufferFacts.

(* ================================================================== *)
(** * Properties of the streaming file transform *)

Module StreamingFacts.
Import Compression.

(** ** Logs *)

Lemma follows_snoc (init : nat) (log : list Event) (e : Event) :
  requests_follow_reports init log ->
  (forall before q, log = before ++ [Reported q] ->
     e = Requested (match q with O => init | S _ => q end)) ->
  requests_follow_reports init (log ++ [e]).
Proof.
  intros Hlog Hlast before q after Heq.
  destruct after as [|a after0] using rev_ind; [now left|]. clear IHafter0.
  right.
  change (before ++ Reported q :: after0 ++ [a])
    with (before ++ (Reported q :: after0) ++ [a]) in Heq.
  rewrite app_assoc in Heq.
  apply app_inj_tail in Heq as [Heq <-].
  destruct (Hlog _ _ _ Heq) as [-> | [after' ->]].
  - rewrite (Hlast _ _ Heq). now exists [].
  - now exists (after' ++ [e]).
Qed.

Lemma follows_nil (init : nat) : requests_follow_reports init [].
Proof.
  intros before q after H. destruct before; discriminate.
Qed.

Lemma follows_after_request (init : nat) (log : list Event) (n : nat) (e : Event) :
  requests_follow_reports init (log ++ [Requested n]) ->
  requests_follow_reports init ((log ++ [Requested n]) ++ [e]).
Proof.
  intros H. apply follows_snoc; [exact H|].
  intros before q Heq. apply app_inj_tail in Heq as [_ Heq]. discriminate.
Qed.

Lemma follows_after_report (init : nat) (log : list Event) (q : nat) :
  requests_follow_reports init (log ++ [Reported q]) ->
  requests_follow_reports init
    ((log ++ [Reported q])
       ++ [Requested (match q with O => init | S _ => q end)]).
Proof.
  intros H. apply follows_snoc; [exact H|].
  intros before q' Heq. apply app_inj_tail in Heq as [_ Heq].
  injection Heq as ->. reflexivity.
Qed.

Section WithParameters.
Context {hek : HEK} {zstd : ZSTD}.
Variable fs : FileSystem.
Variable total_size : Z.
Variable init : nat.

(** ** The two lambdas *)

Lemma read_data_events st size :
  events (snd (read_data st size)) = events st ++ [Requested size].
Proof.
  unfold read_data.
  destruct ((size =? 0)%nat || (length (unread st) <? size)%nat); reflexivity.
Qed.

Lemma read_data_throws st size e :
  fst (read_data st size) = Throw e -> e = DecompressionFailureException.
Proof.
  unfold read_data.
  destruct ((size =? 0)%nat || (length (unread st) <? size)%nat); simpl;
    intros H; [now injection H | discriminate].
Qed.

(** A read that finds fewer bytes than it asks for throws. *)
Lemma read_data_short st size :
  (length (unread st) < size)%nat ->
  fst (read_data st size) = Throw DecompressionFailureException.
Proof.
  intros H. unfold read_data.
  replace (length (unread st) <? size)%nat with true
    by (symmetry; now apply Nat.ltb_lt).
  rewrite orb_true_r. reflexivity.
Qed.

(** A read that succeeds takes at least one byte off the input. *)
Lemma read_data_unread st size input :
  fst (read_data st size) = OK input ->
  (length (unread (snd (read_data st size))) < length (unread st))%nat.
Proof.
  unfold read_data.
  destruct ((size =? 0)%nat || (length (unread st) <? size)%nat) eqn:H;
    simpl; [discriminate|].
  intros _. apply orb_false_iff in H as [H1 H2].
  apply Nat.eqb_neq in H1. apply Nat.ltb_ge in H2.
  rewrite length_skipn. lia.
Qed.

Lemma write_data_events st chunk :
  events (snd (write_data fs st chunk)) = events st.
Proof. unfold write_data. destruct (fwrite_ok fs _ _); reflexivity. Qed.

Lemma write_data_unread st chunk :
  unread (snd (write_data fs st chunk)) = unread st.
Proof. unfold write_data. destruct (fwrite_ok fs _ _); reflexivity. Qed.

Lemma write_data_throws st chunk e :
  fst (write_data fs st chunk) = Throw e -> e = DecompressionFailureException.
Proof.
  unfold write_data. destruct (fwrite_ok fs _ _); simpl; intros H;
    [discriminate | now injection H].
Qed.

(** ** The loop *)

Lemma loop_result_throw st e :
  requests_follow_reports init (events st) ->
  e = DecompressionFailureException ->
  loop_result init (Some e, st).
Proof.
  intros Hlog He. repeat split; simpl.
  - exact Hlog.
  - discriminate.
  - intros e' H. injection H as <-. exact He.
Qed.

Lemma transfer_loop_result fuel :
  forall at_ st r,
    transfer_loop fuel fs total_size init at_ st = Some r ->
    loop_invariant total_size init at_ st -> loop_result init r.
Proof.
  induction fuel as [|fuel IH]; intros at_ st r Hrun [Hlog Hat];
    simpl in Hrun; [discriminate|].
  destruct at_ as [|input_data].
  - destruct (total_read st <? total_size) eqn:Hmore.
    + pose proof (read_data_events st init) as Hev.
      pose proof (read_data_throws st init) as Hthrow.
      destruct (read_data st init) as [res st1]. simpl in Hev, Hthrow.
      assert (Hlog1 : requests_follow_reports init (events st1)).
      { rewrite Hev. destruct Hat as [[before Hlast] | [Hnil _]].
        - rewrite Hlast in *. apply (follows_after_report init before O Hlog).
        - rewrite Hnil. apply follows_snoc; [apply follows_nil|].
          intros before q H. destruct before; discriminate. }
      destruct res as [input|e].
      * apply (IH _ _ _ Hrun). split; [exact Hlog1|].
        exists (events st), init. exact Hev.
      * injection Hrun as <-. apply loop_result_throw; [exact Hlog1|].
        now apply Hthrow.
    + injection Hrun as <-. repeat split; simpl.
      * exact Hlog.
      * intros _. destruct Hat as [H | [_ H]]; [exact H|].
        apply Z.ltb_ge in Hmore. lia.
      * discriminate.
  - destruct Hat as (before & n & Hlast).
    destruct (stream_return
                (ZSTD_decompressStream (decompression_stream st)
                   ZSTD_DStreamOutSize input_data)) as [q|] eqn:Hq.
    2:{ injection Hrun as <-. now apply loop_result_throw. }
    set (r0 := ZSTD_decompressStream (decompression_stream st)
                 ZSTD_DStreamOutSize input_data) in *.
    set (st1 := {| decompression_stream := stream_next r0;
                   unread := unread st;
                   total_read := total_read st;
                   written := written st;
                   events := events st ++ [Reported q] |}) in *.
    assert (Hlog1 : requests_follow_reports init (events st1)).
    { simpl. rewrite Hlast in *. now apply follows_after_request. }
    set (w := match stream_output r0 with
              | [] => (OK tt, st1)
              | _ :: _ => write_data fs st1 (stream_output r0)
              end) in *.
    assert (Hw : events (snd w) = events st ++ [Reported q]
                 /\ forall e, fst w = Throw e ->
                              e = DecompressionFailureException).
    { unfold w. destruct (stream_output r0).
      - split; [reflexivity | discriminate].
      - split; [apply write_data_events | apply write_data_throws]. }
    destruct Hw as [Hev2 Hthrow2].
    destruct w as [res st2]. simpl in Hev2, Hthrow2.
    destruct res as [[]|e].
    2:{ injection Hrun as <-. apply loop_result_throw.
        - rewrite Hev2. exact Hlog1.
        - now apply Hthrow2. }
    destruct (0 <? q)%nat eqn:Hpos.
    + pose proof (read_data_events st2 q) as Hev3.
      pose proof (read_data_throws st2 q) as Hthrow3.
      destruct (read_data st2 q) as [res st3]. simpl in Hev3, Hthrow3.
      assert (Hlog3 : requests_follow_reports init (events st3)).
      { rewrite Hev3, Hev2. apply Nat.ltb_lt in Hpos.
        destruct q as [|q']; [lia|].
        apply (follows_after_report init (events st) (S q')). exact Hlog1. }
      destruct res as [input|e].
      * apply (IH _ _ _ Hrun). split; [exact Hlog3|].
        exists (events st2), q. exact Hev3.
      * injection Hrun as <-. apply loop_result_throw; [exact Hlog3|].
        now apply Hthrow3.
    + apply (IH _ _ _ Hrun). apply Nat.ltb_ge in Hpos.
      assert (q = O) by lia. subst q.
      split; [rewrite Hev2; exact Hlog1|].
      left. exists (events st). exact Hev2.
Qed.

(** The loop does not use up its fuel. *)
Lemma transfer_loop_returns fuel :
  forall at_ st,
    (loop_measure at_ st <= fuel)%nat ->
    exists r, transfer_loop fuel fs total_size init at_ st = Some r.
Proof.
  induction fuel as [|fuel IH]; intros at_ st Hfuel.
  - destruct at_; simpl in Hfuel; lia.
  - simpl. destruct at_ as [|input_data]; simpl in Hfuel.
    + destruct (total_read st <? total_size); [|now eexists].
      pose proof (read_data_unread st init) as Hless.
      destruct (read_data st init) as [[input|e] st1]; simpl in Hless;
        [|now eexists].
      apply IH. simpl. specialize (Hless input eq_refl). lia.
    + destruct (stream_return _) as [q|]; [|now eexists].
      set (st1 := {| decompression_stream := _; unread := unread st;
                     total_read := _; written := _; events := _ |}).
      set (w := match stream_output _ with
                | [] => (OK tt, st1)
                | _ :: _ => write_data fs st1 _
                end).
      assert (Hw : unread (snd w) = unread st).
      { unfold w. destruct (stream_output _); [reflexivity|].
        rewrite write_data_unread. reflexivity. }
      destruct w as [[[]|e] st2]; simpl in Hw; [|now eexists].
      destruct (0 <? q)%nat.
      * pose proof (read_data_unread st2 q) as Hless.
        destruct (read_data st2 q) as [[input|e] st3]; simpl in Hless;
          [|now eexists].
        apply IH. simpl. specialize (Hless input eq_refl).
        rewrite Hw in Hless. lia.
      * apply IH. simpl. rewrite Hw. lia.
Qed.

End WithParameters.

(** C6, as stated, fails: no exception is particular to a truncated input.
    Where the input ends inside a frame, the read of the missing bytes
    throws [DecompressionFailureException], which is also what an input
    that the decoder refuses throws.  And of a file that ends right after
    its header the loop reads nothing: the call returns without an
    exception, the output file holding the header alone. *)
Lemma truncated_file_counterexample :
  decompress_map_file (hek := literal_hek) (zstd := Stored.zstd)
    (file_system_of truncated_file)
  = Some {| thrown := Some DecompressionFailureException;
            output_file :=
              Some {| file_header :=
                        Some (StandardHeader
                                (header_of CACHE_FILE_CUSTOM_EDITION 0));
                      file_body := [] |};
            calls := [Requested 2; Reported 3; Requested 3] |}
  /\ option_map thrown
       (decompress_map_file (hek := literal_hek) (zstd := Stored.zstd)
          (file_system_of (MapFile corrupt_map)))
     = Some (Some DecompressionFailureException)
  /\ decompress_map_file (hek := literal_hek) (zstd := Stored.zstd)
       (file_system_of header_only_file)
     = Some {| thrown := None;
               output_file :=
                 Some {| file_header :=
                           Some (StandardHeader
                                   (header_of CACHE_FILE_CUSTOM_EDITION 0));
                         file_body := [] |};
               calls := [] |}.
Proof. repeat split. Qed.

(** C6, amended: take an input file with a header that transcodes and a
    body that is not empty, the output file being open with the header
    written.  Then [decompress_map_file] returns or throws; each report of
    the decoder that is followed by a call is followed by the request of
    exactly the bytes it asked for; and unless the last call is the
    decoder's report of completion, [DecompressionFailureException] is
    thrown.  A call that returns without an exception ends with that
    report. *)
Theorem truncated_stream_throws
    (hek : HEK) (zstd : ZSTD) (fs : FileSystem) (data : MapData)
    (header_output : HeaderImage)
    (Hinput : input_file fs = MapFile data)
    (Hbody : map_body data <> [])
    (Hheader : decompress_header (map_header data) = OK header_output)
    (Hopen : output_opens fs = true)
    (Hwrite : header_fwrite_ok fs = true) :
  exists run,
    decompress_map_file fs = Some run
    /\ requests_follow_reports (fst (ZSTD_initDStream ZSTD_createDStream))
         (calls run)
    /\ (~ completion_reported_last (calls run) ->
        thrown run = Some DecompressionFailureException)
    /\ (thrown run = None -> completion_reported_last (calls run)).
Proof.
  unfold decompress_map_file.
  rewrite Hinput, Hheader, Hopen, Hwrite. simpl.
  destruct (ZSTD_initDStream ZSTD_createDStream) as [init stream]. simpl.
  set (st0 := {| decompression_stream := stream; unread := map_body data;
                 total_read := HEADER_SIZE; written := []; events := [] |}).
  destruct (transfer_loop_returns fs (data_size data) init
              (transfer_fuel (map_body data)) AtWhile st0) as [[e st] Hrun].
  { unfold transfer_fuel. simpl. lia. }
  rewrite Hrun.
  assert (Hres : loop_result init (e, st)).
  { apply (transfer_loop_result fs (data_size data) init _ _ _ _ Hrun).
    split; [apply follows_nil|].
    right. split; [reflexivity|].
    unfold data_size. simpl.
    destruct (map_body data); [contradiction | simpl; lia]. }
  destruct Hres as (Hlog & Hdone & Hthrow). simpl in *.
  eexists. split; [reflexivity|]. simpl.
  repeat split.
  - exact Hlog.
  - intros Hlast. destruct e as [e|].
    + now rewrite (Hthrow e eq_refl).
    + exfalso. apply Hlast. now apply Hdone.
  - intros ->. now apply Hdone.
Qed.

Lemma truncated_stream_throws_witness :
  map_body {| map_header := header_of CACHE_FILE_CUSTOM_EDITION_COMPRESSED 2051;
              map_body := [x3a; x03; x0a] |} <> []
  /\ decompress_header (hek := literal_hek)
       (header_of CACHE_FILE_CUSTOM_EDITION_COMPRESSED 2051)
     = OK (StandardHeader (header_of CACHE_FILE_CUSTOM_EDITION 0))
  /\ exists run,
       decompress_map_file (hek := literal_hek) (zstd := Stored.zstd)
         (file_system_of truncated_file) = Some run
       /\ requests_follow_reports 2 (calls run)
       /\ (~ completion_reported_last (calls run) ->
           thrown run = Some DecompressionFailureException)
       /\ (thrown run = None -> completion_reported_last (calls run)).
Proof.
  split; [discriminate|].
  split; [reflexivity|].
  apply (truncated_stream_throws literal_hek Stored.zstd
           (file_system_of truncated_file)
           {| map_header := header_of CACHE_FILE_CUSTOM_EDITION_COMPRESSED 2051;
              map_body := [x3a; x03; x0a] |}
           (StandardHeader (header_of CACHE_FILE_CUSTOM_EDITION 0)));
    try reflexivity.
  discriminate.
Defined.

(** The whole file decompresses, and the last call is the report of
    completion. *)
Example decompress_complete_file :
  decompress_map_file (hek := literal_hek) (zstd := Stored.zstd)
    (file_system_of complete_file)
  = Some {| thrown := None;
            output_file :=
              Some {| file_header :=
                        Some (StandardHeader
                                (header_of CACHE_FILE_CUSTOM_EDITION 0));
                      file_body := [x0a; x0b; x0c] |};
            calls := [Requested 2; Reported 3; Requested 3; Reported 0] |}.
Proof. reflexivity. Qed.

End StreamingFacts.

(* ================================================================== *)
(** * Properties of the weapon HUD interface hooks *)

Module HookFacts.
Import Parser.

(** ** Reporting *)

Lemma add_errors_nil w : add_errors w [] = w.
Proof. destruct w. unfold add_errors. simpl. now rewrite app_nil_r. Qed.

Lemma add_errors_app w new1 new2 :
  add_errors (add_errors w new1) new2 = add_errors w (new1 ++ new2).
Proof. unfold add_errors. simpl. now rewrite app_assoc. Qed.

(** ** The frame of a hook, by its construction *)

Lemma only_reports_ret {T A} (a : A) : only_reports (@ret T A a).
Proof.
  intros s a' s' H. injection H as <- <-.
  split; [reflexivity|]. exists []. now rewrite add_errors_nil.
Qed.

Lemma only_reports_bind {T A B} (c : Hook T A) (k : A -> Hook T B) :
  only_reports c -> (forall a, only_reports (k a)) ->
  only_reports (bind c k).
Proof.
  intros Hc Hk s b s' H. unfold bind in H.
  destruct (c s) as [[a s1]|] eqn:Hcs; [|discriminate].
  destruct (Hc _ _ _ Hcs) as [Hthis1 [new1 Hw1]].
  destruct (Hk a _ _ _ H) as [Hthis2 [new2 Hw2]].
  split; [congruence|].
  exists (new1 ++ new2). now rewrite Hw2, Hw1, add_errors_app.
Qed.

Lemma only_reports_get_this {T} : only_reports (@get_this T).
Proof.
  intros s a s' H. injection H as <- <-.
  split; [reflexivity|]. exists []. now rewrite add_errors_nil.
Qed.

Lemma only_reports_get_workload {T} : only_reports (@get_workload T).
Proof.
  intros s a s' H. injection H as <- <-.
  split; [reflexivity|]. exists []. now rewrite add_errors_nil.
Qed.

Lemma only_reports_defined {T A} (o : option A) : only_reports (@defined T A o).
Proof.
  intros s a s' H. unfold defined in H. destruct o; [|discriminate].
  injection H as <- <-.
  split; [reflexivity|]. exists []. now rewrite add_errors_nil.
Qed.

Lemma only_reports_REPORT_ERROR_PRINTF {T} type tag_index m :
  only_reports (@REPORT_ERROR_PRINTF T type tag_index m).
Proof.
  intros s a s' H. injection H as <- <-.
  split; [reflexivity|]. now eexists [_].
Qed.

Lemma only_reports_for_each_index {T} (body : nat -> Hook T unit) :
  (forall i, only_reports (body i)) ->
  forall count first, only_reports (for_each_index first count body).
Proof.
  intros Hbody. induction count as [|count IH]; intros first; simpl.
  - apply only_reports_ret.
  - apply only_reports_bind; [apply Hbody|]. intros _. apply IH.
Qed.

(** Takes a hook apart along its construction. *)
Ltac frame :=
  repeat first
    [ apply only_reports_ret
    | apply only_reports_get_this
    | apply only_reports_get_workload
    | apply only_reports_defined
    | apply only_reports_REPORT_ERROR_PRINTF
    | apply only_reports_for_each_index; intros ?
    | apply only_reports_bind; [|intros ?]
    | match goal with
      | |- only_reports (if ?b then _ else _) => destruct b
      | |- only_reports (let (_, _) := ?p in _) => destruct p
      | |- only_reports (match ?p with _ => _ end) => destruct p
      end ].

(** C9: each of the four post-compile hooks of the HUD interface, whenever
    it returns, leaves the record it was called on as it was, and leaves
    the workload as it was (its tags, its structs and their bytes, its
    engine target) but for diagnostics appended to its errors. *)
Theorem post_compile_only_reports
    (constants : Constants) (tag_index : nat) (struct_offset : Z) :
  only_reports (crosshair_post_compile tag_index struct_offset)
  /\ only_reports (meter_post_compile tag_index struct_offset)
  /\ only_reports (static_element_post_compile tag_index struct_offset)
  /\ only_reports (overlay_element_post_compile tag_index struct_offset).
Proof.
  split; [|split; [|split]].
  - unfold crosshair_post_compile. frame.
  - unfold meter_post_compile. frame.
  - unfold static_element_post_compile. frame.
  - unfold overlay_element_post_compile. frame.
Qed.

(** ** What the loops report *)

Lemma for_each_index_reports {T} (t : T) (f : nat -> list Diagnostic)
    (body : nat -> Hook T unit) :
  forall count first w,
    (forall i w', (first <= i < first + count)%nat ->
       body i {| this := t; workload := w' |}
       = Some (tt, {| this := t; workload := add_errors w' (f i) |})) ->
    for_each_index first count body {| this := t; workload := w |}
    = Some (tt, {| this := t;
                   workload := add_errors w (flat_map f (seq first count)) |}).
Proof.
  induction count as [|count IH]; intros first w Hbody; simpl.
  - unfold ret. now rewrite add_errors_nil.
  - unfold bind at 1. rewrite Hbody by lia.
    rewrite IH.
    + now rewrite add_errors_app.
    + intros i w' Hi. apply Hbody. lia.
Qed.

Section SequenceChecks.
Context {constants : Constants}.
Variable tag_index : nat.
Variable struct_offset : Z.
Variable sequence_count : Z.
Variable sequences : list BitmapGroupSequence.
Variable bitmap_tag_path : BitmapTagPath.

(** A report about overlay [i] is about no other overlay. *)
Lemma crosshair_overlay_reports_about overlays i d s b j c n :
  In d (crosshair_overlay_reports tag_index struct_offset sequence_count
          sequences bitmap_tag_path overlays i) ->
  message d = CrosshairOverlayOutOfBounds s b j c n ->
  j = i
  /\ exists overlay,
       nth_error overlays i = Some overlay
       /\ (overlay_sequence_index overlay >=? sequence_count) = true.
Proof.
  unfold crosshair_overlay_reports.
  destruct (nth_error overlays i) as [overlay|]; [|intros []].
  destruct (overlay_sequence_index overlay =? NULL_INDEX); [intros []|].
  destruct (overlay_sequence_index overlay >=? sequence_count) eqn:Hge.
  - intros [<- | []] Hm. simpl in Hm. injection Hm as _ _ <- _ _.
    split; [reflexivity|]. now exists overlay.
  - destruct (sequence_at sequences (overlay_sequence_index overlay));
      [|intros []].
    destruct (not_a_sprite (overlay_flags overlay)).
    + destruct (bitmap_count b0 =? 0); [|intros []].
      intros [<- | []] Hm. discriminate.
    + destruct (sprites_count b0 =? 0); [|intros []].
      intros [<- | []] Hm. discriminate.
Qed.

(** An index below a count that the array covers finds its sequence. *)
Lemma sequence_at_in_bounds index :
  sequence_count <= Z.of_nat (length sequences) ->
  0 <= index -> (index >=? sequence_count) = false ->
  exists sequence, sequence_at sequences index = Some sequence.
Proof.
  intros Hcount Hindex Hlt. unfold sequence_at.
  destruct (nth_error sequences (Z.to_nat index)) as [sequence|] eqn:Hnth;
    [now exists sequence|].
  apply nth_error_None in Hnth.
  rewrite Z.geb_leb in Hlt. apply Z.leb_gt in Hlt. lia.
Qed.

Lemma report_one {T} (t : T) (w : BuildWorkload) (m : Message) :
  REPORT_ERROR_PRINTF ERROR_TYPE_ERROR tag_index m
    {| this := t; workload := w |}
  = Some (tt, {| this := t;
                 workload := add_errors w [error_of tag_index m] |}).
Proof. reflexivity. Qed.

Lemma report_none {T} (t : T) (w : BuildWorkload) :
  @ret T unit tt {| this := t; workload := w |}
  = Some (tt, {| this := t; workload := add_errors w [] |}).
Proof. now rewrite add_errors_nil. Qed.

End SequenceChecks.

Section CrosshairHook.
Context {constants : Constants}.

(** [WeaponHUDInterfaceCrosshair::post_compile] returns, and reports of
    each overlay in turn what [crosshair_overlay_reports] lists. *)
Lemma crosshair_post_compile_reports
    (w : BuildWorkload) (self : WeaponHUDInterfaceCrosshair)
    (tag_index : nat) (struct_offset : Z)
    (sequence_count : Z) (sequences : list BitmapGroupSequence)
    (bitmap_tag_path : BitmapTagPath) :
  get_sequence_data w (crosshair_bitmap self)
    = Some (sequence_count, sequences, bitmap_tag_path) ->
  sequence_count <= Z.of_nat (length sequences) ->
  Forall (fun o => 0 <= overlay_sequence_index o) (crosshair_overlays self) ->
  crosshair_post_compile tag_index struct_offset
    {| this := self; workload := w |}
  = Some (tt,
          {| this := self;
             workload :=
               add_errors w
                 (flat_map
                    (crosshair_overlay_reports tag_index struct_offset
                       sequence_count sequences bitmap_tag_path
                       (crosshair_overlays self))
                    (seq 0 (length (crosshair_overlays self)))) |}).
Proof.
  intros Hdata Hcount Hunsigned.
  unfold crosshair_post_compile.
  unfold bind at 1. unfold get_workload at 1. simpl.
  unfold bind at 1. unfold get_this at 1. simpl.
  unfold bind at 1. rewrite Hdata. simpl.
  apply for_each_index_reports.
  intros i w' Hi.
  unfold bind at 1. unfold get_this at 1. simpl.
  unfold bind at 1. unfold crosshair_overlay_reports.
  destruct (nth_error (crosshair_overlays self) i) as [overlay|] eqn:Hnth.
  2:{ apply nth_error_None in Hnth. lia. }
  simpl.
  assert (Hindex : 0 <= overlay_sequence_index overlay).
  { rewrite Forall_forall in Hunsigned. apply Hunsigned.
    now apply nth_error_In with i. }
  destruct (overlay_sequence_index overlay =? NULL_INDEX); simpl;
    [apply report_none|].
  destruct (overlay_sequence_index overlay >=? sequence_count) eqn:Hge;
    [apply report_one|].
  destruct (sequence_at_in_bounds sequence_count sequences _
              Hcount Hindex Hge) as [sequence Hseq].
  unfold bind at 1. rewrite Hseq. simpl.
  destruct (not_a_sprite (overlay_flags overlay)).
  - destruct (bitmap_count sequence =? 0);
      [apply report_one | apply report_none].
  - destruct (sprites_count sequence =? 0);
      [apply report_one | apply report_none].
Qed.

Lemma meter_post_compile_reports
    (w : BuildWorkload) (self : WeaponHUDInterfaceMeter)
    (tag_index : nat) (struct_offset : Z)
    (sequence_count : Z) (sequences : list BitmapGroupSequence)
    (bitmap_tag_path : BitmapTagPath) :
  get_sequence_data w (meter_bitmap self)
    = Some (sequence_count, sequences, bitmap_tag_path) ->
  sequence_count <= Z.of_nat (length sequences) ->
  0 <= meter_sequence_index self ->
  meter_post_compile tag_index struct_offset {| this := self; workload := w |}
  = Some (tt,
          {| this := self;
             workload :=
               add_errors w
                 (meter_reports tag_index struct_offset sequence_count
                    sequences bitmap_tag_path self) |}).
Proof.
  intros Hdata Hcount Hindex.
  unfold meter_post_compile, meter_reports.
  unfold bind at 1. unfold get_this at 1. simpl.
  destruct (meter_sequence_index self =? NULL_INDEX); simpl;
    [apply report_none|].
  unfold bind at 1. unfold get_workload at 1. simpl.
  unfold bind at 1. rewrite Hdata. simpl.
  destruct (meter_sequence_index self >=? sequence_count) eqn:Hge;
    [apply report_one|].
  destruct (sequence_at_in_bounds sequence_count sequences _
              Hcount Hindex Hge) as [sequence Hseq].
  unfold bind at 1. rewrite Hseq. simpl.
  destruct (sprites_count sequence =? 0);
    [apply report_one | apply report_none].
Qed.

End CrosshairHook.

(** C8: take a workload in which the bitmap of a crosshair, and of a
    meter, resolves to [sequence_count] sequences (the sequence array
    has at least that many, and sequence indices are unsigned).  The
    post-compile hook of the crosshair returns, having reported an error
    with the out-of-bounds message for each overlay whose sequence index
    is not [NULL_INDEX] and is at least [sequence_count], and none with
    that message for an overlay whose index is below it; and so does the
    hook of the meter for the sequence index of the meter. *)
Theorem out_of_bounds_sequence_reported
    (constants : Constants) (w : BuildWorkload)
    (tag_index : nat) (struct_offset : Z)
    (crosshair : WeaponHUDInterfaceCrosshair)
    (sequence_count : Z) (sequences : list BitmapGroupSequence)
    (bitmap_tag_path : BitmapTagPath)
    (meter : WeaponHUDInterfaceMeter)
    (meter_count : Z) (meter_sequences : list BitmapGroupSequence)
    (meter_path : BitmapTagPath)
    (Hcrosshair : get_sequence_data w (crosshair_bitmap crosshair)
                  = Some (sequence_count, sequences, bitmap_tag_path))
    (Hcovers : sequence_count <= Z.of_nat (length sequences))
    (Hunsigned : Forall (fun o => 0 <= overlay_sequence_index o)
                        (crosshair_overlays crosshair))
    (Hmeter : get_sequence_data w (meter_bitmap meter)
              = Some (meter_count, meter_sequences, meter_path))
    (Hmeter_covers : meter_count <= Z.of_nat (length meter_sequences))
    (Hmeter_unsigned : 0 <= meter_sequence_index meter) :
  (exists new,
     crosshair_post_compile tag_index struct_offset
       {| this := crosshair; workload := w |}
     = Some (tt, {| this := crosshair; workload := add_errors w new |})
     /\ forall i overlay,
         nth_error (crosshair_overlays crosshair) i = Some overlay ->
         overlay_sequence_index overlay <> NULL_INDEX ->
         (sequence_count <= overlay_sequence_index overlay ->
          In {| severity := ERROR_TYPE_ERROR;
                diagnostic_tag := tag_index;
                message :=
                  CrosshairOverlayOutOfBounds
                    (overlay_sequence_index overlay) bitmap_tag_path i
                    (struct_offset / sizeof_WeaponHUDInterfaceCrosshair)
                    sequence_count |} new)
         /\ (overlay_sequence_index overlay < sequence_count ->
             forall d s b c n,
               In d new ->
               message d <> CrosshairOverlayOutOfBounds s b i c n))
  /\ (exists new,
       meter_post_compile tag_index struct_offset
         {| this := meter; workload := w |}
       = Some (tt, {| this := meter; workload := add_errors w new |})
       /\ (meter_sequence_index meter <> NULL_INDEX ->
           (meter_count <= meter_sequence_index meter ->
            In {| severity := ERROR_TYPE_ERROR;
                  diagnostic_tag := tag_index;
                  message :=
                    MeterOutOfBounds (meter_sequence_index meter) meter_path
                      (struct_offset / sizeof_WeaponHUDInterfaceCrosshair)
                      meter_count |} new)
           /\ (meter_sequence_index meter < meter_count ->
               forall d s b m n,
                 In d new -> message d <> MeterOutOfBounds s b m n))).
Proof.
  split.
  - eexists. split.
    + apply (crosshair_post_compile_reports w crosshair tag_index struct_offset
               sequence_count sequences bitmap_tag_path
               Hcrosshair Hcovers Hunsigned).
    + intros i overlay Hnth Hnull. split.
      * intros Hout. apply in_flat_map. exists i. split.
        -- apply in_seq. split; [lia|]. simpl.
           apply nth_error_Some. congruence.
        -- unfold crosshair_overlay_reports. rewrite Hnth. simpl.
           apply Z.eqb_neq in Hnull. rewrite Hnull.
           replace (overlay_sequence_index overlay >=? sequence_count)
             with true by (symmetry; rewrite Z.geb_leb; now apply Z.leb_le).
           now left.
      * intros Hin d s b c n Hd Hm.
        apply in_flat_map in Hd as (j & _ & Hd).
        destruct (crosshair_overlay_reports_about _ _ _ _ _ _ _ _ _ _ _ _ _
                    Hd Hm) as (<- & overlay' & Hnth' & Hge).
        rewrite Hnth in Hnth'. injection Hnth' as <-.
        rewrite Z.geb_leb in Hge. apply Z.leb_le in Hge. lia.
  - eexists. split.
    + apply (meter_post_compile_reports w meter tag_index struct_offset
               meter_count meter_sequences meter_path
               Hmeter Hmeter_covers Hmeter_unsigned).
    + intros Hnull. unfold meter_reports.
      apply Z.eqb_neq in Hnull. rewrite Hnull. split.
      * intros Hout.
        replace (meter_sequence_index meter >=? meter_count)
          with true by (symmetry; rewrite Z.geb_leb; now apply Z.leb_le).
        now left.
      * intros Hin d s b m n Hd Hm.
        replace (meter_sequence_index meter >=? meter_count)
          with false in Hd
          by (symmetry; rewrite Z.geb_leb; now apply Z.leb_gt).
        destruct (sequence_at meter_sequences (meter_sequence_index meter));
          [|destruct Hd].
        destruct (sprites_count b0 =? 0); [|destruct Hd].
        destruct Hd as [<- | []]. discriminate.
Qed.

Lemma out_of_bounds_sequence_reported_witness :
  get_sequence_data sample_workload (crosshair_bitmap sample_crosshair)
    = Some (2, [{| bitmap_count := 1; sprites_count := 4 |};
                {| bitmap_count := 0; sprites_count := 0 |}], sample_path)
  /\ Forall (fun o => 0 <= overlay_sequence_index o)
            (crosshair_overlays sample_crosshair)
  /\ exists new,
       crosshair_post_compile (constants := halo_constants) 7 208
         {| this := sample_crosshair; workload := sample_workload |}
       = Some (tt, {| this := sample_crosshair;
                      workload := add_errors sample_workload new |})
       /\ In {| severity := ERROR_TYPE_ERROR;
                diagnostic_tag := 7;
                message := CrosshairOverlayOutOfBounds 5 sample_path 1 2 2 |}
             new.
Proof.
  assert (Hunsigned : Forall (fun o => 0 <= overlay_sequence_index o)
                             (crosshair_overlays sample_crosshair)).
  { repeat constructor; simpl; lia. }
  split; [reflexivity|].
  split; [exact Hunsigned|].
  destruct (out_of_bounds_sequence_reported halo_constants sample_workload
              7 208 sample_crosshair
              2 [{| bitmap_count := 1; sprites_count := 4 |};
                 {| bitmap_count := 0; sprites_count := 0 |}] sample_path
              sample_meter
              2 [{| bitmap_count := 1; sprites_count := 4 |};
                 {| bitmap_count := 0; sprites_count := 0 |}] sample_path
              eq_refl ltac:(simpl; lia) Hunsigned
              eq_refl ltac:(simpl; lia) ltac:(simpl; lia))
    as [[new [Hrun Hall]] _].
  exists new. split; [exact Hrun|].
  apply (Hall 1%nat (overlay_of 5) eq_refl).
  - simpl. discriminate.
  - simpl. lia.
Defined.

(** The hooks on the samples: of the crosshair, overlay 1 is out of bounds
    and overlay 0 is in bounds, on a sequence that has sprites; the meter
    is out of bounds. *)
Example crosshair_post_compile_sample :
  crosshair_post_compile (constants := halo_constants) 7 208
    {| this := sample_crosshair; workload := sample_workload |}
  = Some (tt,
          {| this := sample_crosshair;
             workload :=
               add_errors sample_workload
                 [{| severity := ERROR_TYPE_ERROR;
                     diagnostic_tag := 7;
                     message :=
                       CrosshairOverlayOutOfBounds 5 sample_path 1 2 2 |}] |}).
Proof. reflexivity. Qed.

Example meter_post_compile_sample :
  meter_post_compile (constants := halo_constants) 7 104
    {| this := sample_meter; workload := sample_workload |}
  = Some (tt,
          {| this := sample_meter;
             workload :=
               add_errors sample_workload
                 [{| severity := ERROR_TYPE_ERROR;
                     diagnostic_tag := 7;
                     message := MeterOutOfBounds 2 sample_path 1 2 |}] |}).
Proof. reflexivity. Qed.

Lemma post_compile_only_reports_witness :
  this {| this := sample_crosshair;
          workload :=
            add_errors sample_workload
              [{| severity := ERROR_TYPE_ERROR;
                  diagnostic_tag := 7;
                  message :=
                    CrosshairOverlayOutOfBounds 5 sample_path 1 2 2 |}] |}
  = this {| this := sample_crosshair; workload := sample_workload |}
  /\ exists new,
       workload {| this := sample_crosshair;
                   workload :=
                     add_errors sample_workload
                       [{| severity := ERROR_TYPE_ERROR;
                           diagnostic_tag := 7;
                           message :=
                             CrosshairOverlayOutOfBounds 5 sample_path 1 2 2
                         |}] |}
       = add_errors
           (workload {| this := sample_crosshair;
                        workload := sample_workload |})
           new.
Proof.
  apply (proj1 (post_compile_only_reports halo_constants 7 208)
           {| this := sample_crosshair; workload := sample_workload |} tt).
  reflexivity.
Defined.

(** ** The aggregated crosshair types *)

Lemma testbit_one_shifted_left (n k : Z) :
  0 <= n < 32 ->
  exists bit,
    one_shifted_left n = Some bit /\ Z.testbit bit k = (n =? k).
Proof.
  intros Hn. exists (Z.shiftl 1 n). split.
  - unfold one_shifted_left.
    replace (0 <=? n) with true by (symmetry; apply Z.leb_le; lia).
    replace (n <? 32) with true by (symmetry; apply Z.ltb_lt; lia).
    reflexivity.
  - rewrite Z.shiftl_1_l. apply Z.pow2_bits_eqb. lia.
Qed.

(** Outside 0..31 the shift is not defined. *)
Lemma one_shifted_left_undefined (n : Z) :
  n < 0 \/ 32 <= n -> one_shifted_left n = None.
Proof.
  intros Hn. unfold one_shifted_left.
  destruct (0 <=? n) eqn:Hlow; [|reflexivity].
  apply Z.leb_le in Hlow.
  replace (n <? 32) with false by (symmetry; apply Z.ltb_ge; lia).
  reflexivity.
Qed.

(** When every type is an enumerator the loop ends with a word whose bit
    [k] is set exactly when it was set before or a crosshair is of type
    [k]. *)
Lemma testbit_or_crosshair_types
    (crosshairs : list WeaponHUDInterfaceCrosshair) :
  Forall (fun c => 0 <= crosshair_type c < 32) crosshairs ->
  forall inty,
    exists inty',
      or_crosshair_types crosshairs inty = Some inty'
      /\ forall k,
           Z.testbit inty' k
           = Z.testbit inty k
             || existsb (fun c => crosshair_type c =? k) crosshairs.
Proof.
  induction 1 as [|c crosshairs Hc _ IH]; intros inty.
  - exists inty. split; [reflexivity|]. intros k. simpl.
    now rewrite orb_false_r.
  - cbn [or_crosshair_types].
    destruct (testbit_one_shifted_left (crosshair_type c) 0 Hc)
      as (bit & Hbit & _).
    rewrite Hbit.
    destruct (IH (Z.lor inty bit)) as (inty' & Hloop & Hbits).
    exists inty'. split; [exact Hloop|].
    intros k. rewrite Hbits, Z.lor_spec. cbn [existsb].
    destruct (testbit_one_shifted_left (crosshair_type c) k Hc)
      as (bit' & Hbit' & Hk).
    rewrite Hbit in Hbit'. injection Hbit' as <-.
    rewrite Hk. now rewrite orb_assoc.
Qed.

Section PreCompile.
Context {constants : Constants}.

(** The record [pre_compile] leaves when every type is an enumerator:
    the crosshairs as they were, and the bits the loop ors together
    from 0. *)
Lemma pre_compile_this (tag_index : nat) (self : WeaponHUDInterface)
    (w : BuildWorkload) :
  Forall (fun c => 0 <= crosshair_type c < 32) (crosshairs self) ->
  exists inty w',
    or_crosshair_types (crosshairs self) 0 = Some inty
    /\ pre_compile tag_index {| this := self; workload := w |}
       = Some (tt,
               {| this := {| crosshairs := crosshairs self;
                             crosshair_types := inty |};
                  workload := w' |}).
Proof.
  intros Htypes.
  destruct (testbit_or_crosshair_types (crosshairs self) Htypes 0)
    as (inty & Hloop & _).
  exists inty.
  unfold pre_compile, bind, get_this, set_this, get_workload, defined. simpl.
  rewrite Hloop. simpl.
  match goal with
  | |- context [if ?b then _ else _] => destruct b
  end.
  - match goal with
    | |- context [match ?z with O => _ | S _ => _ end] => destruct z
    end; eexists; split; reflexivity.
  - eexists; split; reflexivity.
Qed.

(** With a type that is no enumerator the shift, and so the hook, has no
    defined behaviour. *)
Lemma pre_compile_undefined_shift (tag_index : nat) (self : WeaponHUDInterface)
    (w : BuildWorkload) :
  Exists (fun c => crosshair_type c < 0 \/ 32 <= crosshair_type c)
         (crosshairs self) ->
  pre_compile tag_index {| this := self; workload := w |} = None.
Proof.
  intros Hbad.
  assert (Hloop : forall inty,
             or_crosshair_types (crosshairs self) inty = None).
  { induction Hbad as [c crosshairs Hc | c crosshairs _ IH]; intros inty;
      cbn [or_crosshair_types].
    - now rewrite one_shifted_left_undefined.
    - destruct (one_shifted_left (crosshair_type c)); [apply IH | reflexivity]. }
  unfold pre_compile, bind, get_this, defined. simpl.
  now rewrite Hloop.
Qed.

End PreCompile.

(** C7: when the crosshair types of the record are enumerators (below 32,
    where the shift is defined), [pre_compile] returns and leaves in
    [crosshair_types] a word whose bit [k] is set exactly when a crosshair
    of the record declares type [k]; the record it leaves is the same
    whatever [crosshair_types] held before. *)
Theorem crosshair_types_aggregated
    (constants : Constants) (tag_index : nat)
    (self : WeaponHUDInterface) (w : BuildWorkload)
    (Htypes : Forall (fun c => 0 <= crosshair_type c < 32) (crosshairs self)) :
  exists self' w',
    pre_compile tag_index {| this := self; workload := w |}
    = Some (tt, {| this := self'; workload := w' |})
    /\ crosshairs self' = crosshairs self
    /\ (forall k,
          Z.testbit (crosshair_types self') k = true
          <-> exists c, In c (crosshairs self) /\ crosshair_type c = k)
    /\ (forall prior w2,
          exists w2',
            pre_compile tag_index
              {| this := {| crosshairs := crosshairs self;
                            crosshair_types := prior |};
                 workload := w2 |}
            = Some (tt, {| this := self'; workload := w2' |})).
Proof.
  destruct (pre_compile_this tag_index self w Htypes)
    as (inty & w' & Hloop & Hrun).
  eexists. exists w'. split; [exact Hrun|].
  split; [reflexivity|]. split.
  - intros k. simpl.
    destruct (testbit_or_crosshair_types (crosshairs self) Htypes 0)
      as (inty' & Hloop' & Hbits).
    rewrite Hloop in Hloop'. injection Hloop' as <-.
    rewrite Hbits, Z.bits_0. simpl.
    rewrite existsb_exists.
    split.
    + intros (c & Hin & Hbit). exists c. split; [exact Hin|].
      now apply Z.eqb_eq.
    + intros (c & Hin & <-). exists c. split; [exact Hin|].
      apply Z.eqb_refl.
  - intros prior w2.
    destruct (pre_compile_this tag_index
                {| crosshairs := crosshairs self; crosshair_types := prior |}
                w2 Htypes) as (inty' & w2' & Hloop' & Hrun').
    simpl in Hloop', Hrun'.
    rewrite Hloop in Hloop'. injection Hloop' as <-.
    exists w2'. exact Hrun'.
Qed.

Lemma crosshair_types_aggregated_witness :
  Forall (fun c => 0 <= crosshair_type c < 32) (crosshairs sample_interface)
  /\ exists self' w',
       pre_compile (constants := halo_constants) 7
         {| this := sample_interface; workload := sample_workload |}
       = Some (tt, {| this := self'; workload := w' |})
       /\ (Z.testbit (crosshair_types self') 3 = true
           <-> exists c, In c (crosshairs sample_interface)
                         /\ crosshair_type c = 3).
Proof.
  assert (Htypes : Forall (fun c => 0 <= crosshair_type c < 32)
                          (crosshairs sample_interface)).
  { repeat constructor; simpl; lia. }
  split; [exact Htypes|].
  destruct (crosshair_types_aggregated halo_constants 7 sample_interface
              sample_workload Htypes) as (self' & w' & Hrun & _ & Hbits & _).
  exists self', w'. split; [exact Hrun|]. apply Hbits.
Defined.

(** On the sample the stale flags are replaced by bits 0 and 3. *)
Example pre_compile_sample :
  pre_compile (constants := halo_constants) 7
    {| this := sample_interface; workload := sample_workload |}
  = Some (tt,
          {| this := {| crosshairs := crosshairs sample_interface;
                        crosshair_types := 9 |};
             workload := sample_workload |}).
Proof. reflexivity. Qed.

(** Without a zoom crosshair, an overlay that changes on zoom earns a
    warning, except when the target is Dark Circlet. *)
Example pre_compile_zoom_warning :
  pre_compile (constants := halo_constants) 7
    {| this := zooming_interface; workload := sample_workload |}
  = Some (tt,
          {| this := {| crosshairs := crosshairs zooming_interface;
                        crosshair_types := 1 |};
             workload :=
               add_errors sample_workload
                 [{| severity := ERROR_TYPE_WARNING;
                     diagnostic_tag := 7;
                     message := OverlaysChangeOnZoom 1 |}] |}).
Proof. reflexivity. Qed.

Example pre_compile_zoom_dark_circlet :
  pre_compile (constants := halo_constants) 7
    {| this := zooming_interface;
       workload :=
         {| engine_target := Compression.CACHE_FILE_DARK_CIRCLET;
            tags := []; structs := []; errors := [] |} |}
  = Some (tt,
          {| this := {| crosshairs := crosshairs zooming_interface;
                        crosshair_types := 1 |};
             workload :=
               {| engine_target := Compression.CACHE_FILE_DARK_CIRCLET;
                  tags := []; structs := []; errors := [] |} |}).
Proof. reflexivity. Qed.

End HookFacts.

(* ================================================================== *)
(** * Further properties of the transforms *)

Module CompressionMore.
Import Compression.
Import CompressionSupport.

Section WithParameters.
Context {hek : HEK} {zstd : ZSTD}.

(** What [compress_header] returns, by cases of the engine. *)
Lemma compress_header_returns h n out :
  compress_header h n = OK out ->
  valid h = true /\ n <= UINT32_MAX
  /\ carries_compressed_form h = false
  /\ exists e,
       compress_engine h = OK e
       /\ (is_compressed_engine e = true
           \/ (e = CACHE_FILE_DARK_CIRCLET /\ engine h = CACHE_FILE_DARK_CIRCLET))
       /\ out = StandardHeader
                  {| head_literal := CACHE_FILE_HEAD;
                     engine := e;
                     decompressed_file_size := n;
                     other_fields := other_fields h;
                     foot_literal := CACHE_FILE_FOOT |}.
Proof.
  unfold compress_header, carries_compressed_form.
  destruct (valid h); simpl; [|discriminate].
  unfold compress_engine.
  destruct (engine h) eqn:He; simpl;
    try destruct (decompressed_file_size h >? 0); simpl;
    try discriminate;
    destruct (n >? UINT32_MAX) eqn:Hn; try discriminate;
    intros H; injection H as <-;
    (split; [reflexivity|]); (split; [lia|]); (split; [reflexivity|]);
    eexists; (split; [reflexivity|]); split; try reflexivity;
    try (left; reflexivity); right; split; reflexivity.
Qed.

(** What [decompress_header] returns, by cases of the engine. *)
Lemma decompress_header_returns h out :
  decompress_header h = OK out ->
  valid h = true /\ HEADER_SIZE <= decompressed_file_size h
  /\ exists e,
       decompress_engine h = OK e
       /\ (is_uncompressed_engine e = true
           \/ (e = CACHE_FILE_DARK_CIRCLET /\ engine h = CACHE_FILE_DARK_CIRCLET))
       /\ engine (image_fields out) = e
       /\ decompressed_file_size (image_fields out) = 0
       /\ other_fields (image_fields out) = other_fields h.
Proof.
  unfold decompress_header.
  destruct (decompress_engine h) as [e|] eqn:He; simpl; [|discriminate].
  destruct (decompressed_file_size h <? HEADER_SIZE) eqn:Hsize; simpl;
    [discriminate|].
  destruct (valid h); simpl; [|discriminate].
  apply Z.ltb_ge in Hsize.
  assert (Hcases : is_uncompressed_engine e = true
                   \/ (e = CACHE_FILE_DARK_CIRCLET
                       /\ engine h = CACHE_FILE_DARK_CIRCLET)).
  { unfold decompress_engine in He.
    destruct (engine h); simpl in He;
      try destruct (decompressed_file_size h =? 0);
      try destruct (engine_eqb _ _);
      try discriminate; injection He as <-;
      try (left; reflexivity); right; split; reflexivity. }
  destruct (engine_eqb e CACHE_FILE_DEMO); intros H; injection H as <-;
    simpl; (split; [reflexivity|]); (split; [exact Hsize|]);
    exists e; repeat split; assumption.
Qed.

End WithParameters.

(** X1: a header that [compress_header] wrote (for a decompressed size of
    at least a header) and that [valid()] accepts is taken back by
    [decompress_header] to the engine and the untouched fields it came
    from, with size 0: in the standard shape with the standard literals,
    or, for a demo header, in the demo shape with the demo literals. *)
Theorem decompress_header_of_compressed
    (hek : HEK) (h h' : CacheFileHeader) (decompressed_size : Z)
    (Hsizeof : 0 < HEADER_SIZE)
    (Hfits : HEADER_SIZE <= decompressed_size)
    (Hcompress : compress_header h decompressed_size = OK (StandardHeader h'))
    (Hvalid : valid h' = true) :
  decompress_header h' = OK (decompressed_image_of h).
Proof.
  destruct (compress_header_returns h decompressed_size _ Hcompress)
    as (_ & _ & _ & e & He & _ & Hout).
  injection Hout as ->.
  unfold decompress_header, decompressed_image_of.
  assert (Hde : decompress_engine
                  {| head_literal := CACHE_FILE_HEAD; engine := e;
                     decompressed_file_size := decompressed_size;
                     other_fields := other_fields h;
                     foot_literal := CACHE_FILE_FOOT |}
                = OK (engine h)).
  { apply (WholeBufferFacts.decompress_engine_of_compressed h e);
      [exact He | reflexivity | simpl; lia]. }
  rewrite Hde. simpl.
  replace (decompressed_size <? HEADER_SIZE) with false by lia.
  rewrite Hvalid. simpl.
  destruct (engine_eqb (engine h) CACHE_FILE_DEMO); reflexivity.
Qed.

Lemma decompress_header_of_compressed_witness :
  compress_header (hek := literal_hek) (header_of CACHE_FILE_DEMO 0) 4096
    = OK (StandardHeader (header_of CACHE_FILE_DEMO_COMPRESSED 4096))
  /\ decompress_header (hek := literal_hek)
       (header_of CACHE_FILE_DEMO_COMPRESSED 4096)
     = OK (decompressed_image_of (header_of CACHE_FILE_DEMO 0)).
Proof.
  split; [reflexivity|].
  apply (decompress_header_of_compressed literal_hek
           (header_of CACHE_FILE_DEMO 0)
           (header_of CACHE_FILE_DEMO_COMPRESSED 4096) 4096);
    first [reflexivity | simpl; lia].
Defined.

(** X2: for a header that [valid()] accepts, of a recognized engine and
    not in compressed form, [compress_header] throws
    [MaximumFileSizeException] exactly when the decompressed size exceeds
    [UINT32_MAX]; otherwise it writes a header that declares exactly that
    size and keeps the untouched fields. *)
Theorem compress_header_size_limit
    (hek : HEK) (h : CacheFileHeader) (decompressed_size : Z)
    (Hvalid : valid h = true)
    (Hform : carries_compressed_form h = false)
    (Hknown : is_unrecognized_engine (engine h) = false) :
  (compress_header h decompressed_size = Throw MaximumFileSizeException
   <-> UINT32_MAX < decompressed_size)
  /\ (decompressed_size <= UINT32_MAX ->
      exists out,
        compress_header h decompressed_size = OK out
        /\ is_demo_shape out = false
        /\ decompressed_file_size (image_fields out) = decompressed_size
        /\ other_fields (image_fields out) = other_fields h).
Proof.
  unfold compress_header. rewrite Hvalid. simpl.
  unfold carries_compressed_form in Hform.
  unfold compress_engine.
  destruct (engine h); simpl in *; try discriminate;
    try (rewrite Hform);
    simpl;
    (destruct (decompressed_size >? UINT32_MAX) eqn:Hn;
     [ split; [split; [intros _; lia | reflexivity] | intros; lia]
     | split; [split; [discriminate | intros; lia]
              | intros _; eexists; repeat split ] ]).
Qed.

Lemma compress_header_size_limit_witness :
  valid (HEK := literal_hek) (header_of CACHE_FILE_RETAIL 0) = true
  /\ (compress_header (hek := literal_hek) (header_of CACHE_FILE_RETAIL 0)
        4294967296
      = Throw MaximumFileSizeException
      <-> UINT32_MAX < 4294967296).
Proof.
  split; [reflexivity|].
  apply (compress_header_size_limit literal_hek
           (header_of CACHE_FILE_RETAIL 0) 4294967296); reflexivity.
Defined.

(** X3: what [compress_map_data] returns cannot be compressed again: when
    the loader hands out the header of the compressed buffer and
    [valid()] accepts it, [compress_map_data] throws
    [MapNeedsDecompressedException]. *)
Theorem compress_map_data_twice
    (hek : HEK) (zstd : ZSTD) (data : MapData) (level level' : Z)
    (h' : CacheFileHeader) (compressed : list byte) (m : Map)
    (Hsizeof : 0 < HEADER_SIZE)
    (Hcompress : compress_map_data data level
                 = OK {| image_header := StandardHeader h';
                         image_body := compressed |})
    (Hvalid : valid h' = true)
    (Hload : map_with_pointer {| map_header := h'; map_body := compressed |}
             = OK m)
    (Hheader : get_cache_file_header m = h') :
  compress_map_data {| map_header := h'; map_body := compressed |} level'
  = Throw MapNeedsDecompressedException.
Proof.
  unfold compress_map_data, compress_map_data_into in Hcompress.
  destruct (map_with_pointer data) as [m0|]; simpl in Hcompress;
    [|discriminate].
  destruct (compress_header (get_cache_file_header m0) (data_size data))
    as [out|] eqn:Hout; simpl in Hcompress; [|discriminate].
  destruct (ZSTD_compress _ (map_body data) level); [|discriminate].
  injection Hcompress as -> _.
  destruct (compress_header_returns _ _ _ Hout)
    as (_ & _ & _ & e & _ & Hcases & Heq).
  injection Heq as ->.
  unfold compress_map_data, compress_map_data_into.
  rewrite Hload. simpl. rewrite Hheader.
  unfold compress_header. rewrite Hvalid. simpl.
  unfold compress_engine. simpl.
  destruct Hcases as [Hc | [-> _]].
  - destruct e; try discriminate; reflexivity.
  - replace (data_size data >? 0) with true; [reflexivity|].
    symmetry. rewrite Z.gtb_ltb. apply Z.ltb_lt. unfold data_size. lia.
Qed.

Lemma compress_map_data_twice_witness :
  compress_map_data (hek := literal_hek) (zstd := Stored.zstd) unsized_map 3
    = OK {| image_header :=
              StandardHeader (header_of CACHE_FILE_RETAIL_COMPRESSED 2051);
            image_body := [x3a; x03; x0a; x0b; x0c] |}
  /\ compress_map_data (hek := literal_hek) (zstd := Stored.zstd)
       {| map_header := header_of CACHE_FILE_RETAIL_COMPRESSED 2051;
          map_body := [x3a; x03; x0a; x0b; x0c] |} 3
     = Throw MapNeedsDecompressedException.
Proof.
  split; [reflexivity|].
  apply (compress_map_data_twice literal_hek Stored.zstd unsized_map 3 3
           (header_of CACHE_FILE_RETAIL_COMPRESSED 2051)
           [x3a; x03; x0a; x0b; x0c]
           {| map_header := header_of CACHE_FILE_RETAIL_COMPRESSED 2051;
              map_body := [x3a; x03; x0a; x0b; x0c] |});
    reflexivity.
Defined.

(** The engine of a header that [decompress_map_data] returns. *)
Lemma decompress_map_data_returns_declared_size_aux
    (hek : HEK) (zstd : ZSTD) (data : MapData) (image : MapImage) :
  decompress_map_data data = OK image ->
  exists e,
    (is_uncompressed_engine e = true \/ e = CACHE_FILE_DARK_CIRCLET)
    /\ engine (image_fields (image_header image)) = e
    /\ decompressed_file_size (image_fields (image_header image)) = 0.
Proof.
  intros Hdecompress.
  unfold decompress_map_data, decompress_map_data_into in Hdecompress.
  destruct (decompress_header (map_header data)) as [out|] eqn:Hout;
    simpl in Hdecompress; [|discriminate].
  destruct ((HEADER_SIZE >? data_size data)
            || negb (valid (map_header data))).
  { destruct (valid (demo_view (map_header data))
              && engine_eqb (engine (demo_view (map_header data)))
                   CACHE_FILE_DEMO); discriminate. }
  destruct (ZSTD_decompress _ (map_body data)) as [d|]; [|discriminate].
  destruct (negb _); [discriminate|].
  injection Hdecompress as <-. simpl.
  destruct (decompress_header_returns _ _ Hout)
    as (_ & _ & e & _ & Hcases & He & Hzero & _).
  exists e. repeat split; try assumption.
  destruct Hcases as [Hc | [-> _]]; [now left | now right].
Qed.

(** X4: a buffer that [decompress_map_data] returns is as long as the
    header of the input declared: its body is what the codec made of the
    input body in a buffer of the declared size less the header, and
    with the header that is the declared size.  Its header declares size
    0, keeps the untouched fields, and has no compressed engine. *)
Theorem decompress_map_data_returns_declared_size
    (hek : HEK) (zstd : ZSTD) (data : MapData) (image : MapImage)
    (Hdecompress : decompress_map_data data = OK image) :
  Z.of_nat (length (image_body image)) + HEADER_SIZE
    = decompressed_file_size (map_header data)
  /\ ZSTD_decompress (decompressed_file_size (map_header data) - HEADER_SIZE)
       (map_body data)
     = Some (image_body image)
  /\ decompress_header (map_header data) = OK (image_header image)
  /\ decompressed_file_size (image_fields (image_header image)) = 0
  /\ other_fields (image_fields (image_header image))
     = other_fields (map_header data)
  /\ is_compressed_engine (engine (image_fields (image_header image))) = false.
Proof.
  unfold decompress_map_data, decompress_map_data_into in Hdecompress.
  destruct (decompress_header (map_header data)) as [out|] eqn:Hout;
    simpl in Hdecompress; [|discriminate].
  destruct ((HEADER_SIZE >? data_size data)
            || negb (valid (map_header data))).
  { destruct (valid (demo_view (map_header data))
              && engine_eqb (engine (demo_view (map_header data)))
                   CACHE_FILE_DEMO); discriminate. }
  destruct (ZSTD_decompress _ (map_body data)) as [d|] eqn:Hd;
    [|discriminate].
  destruct (Z.of_nat (length d) + HEADER_SIZE
            =? decompressed_file_size (map_header data)) eqn:Hsize;
    simpl in Hdecompress; [|discriminate].
  injection Hdecompress as <-. simpl.
  apply Z.eqb_eq in Hsize.
  destruct (decompress_header_returns _ _ Hout)
    as (_ & _ & e & _ & Hcases & He & Hzero & Hother).
  repeat split; try assumption.
  rewrite He. destruct Hcases as [Hc | [-> _]]; [|reflexivity].
  destruct e; try discriminate; reflexivity.
Qed.

Lemma decompress_map_data_returns_declared_size_witness :
  decompress_map_data (hek := literal_hek) (zstd := Stored.zstd)
    {| map_header := header_of CACHE_FILE_CUSTOM_EDITION_COMPRESSED 2051;
       map_body := [x3a; x03; x0a; x0b; x0c] |}
  = OK {| image_header := StandardHeader (header_of CACHE_FILE_CUSTOM_EDITION 0);
          image_body := [x0a; x0b; x0c] |}
  /\ Z.of_nat (length [x0a; x0b; x0c]) + HEADER_SIZE (HEK := literal_hek)
     = 2051.
Proof.
  split; [reflexivity|].
  apply (decompress_map_data_returns_declared_size literal_hek Stored.zstd
           {| map_header := header_of CACHE_FILE_CUSTOM_EDITION_COMPRESSED 2051;
              map_body := [x3a; x03; x0a; x0b; x0c] |}
           {| image_header :=
                StandardHeader (header_of CACHE_FILE_CUSTOM_EDITION 0);
              image_body := [x0a; x0b; x0c] |}).
  reflexivity.
Defined.

(** X5: what [decompress_map_data] returns in the standard shape cannot be
    decompressed again: [decompress_map_data] throws
    [MapNeedsCompressedException], whatever the body and whatever
    [valid()] says. *)
Theorem decompress_map_data_twice
    (hek : HEK) (zstd : ZSTD) (data : MapData)
    (h' : CacheFileHeader) (body body' : list byte)
    (Hdecompress : decompress_map_data data
                   = OK {| image_header := StandardHeader h';
                           image_body := body |}) :
  decompress_map_data {| map_header := h'; map_body := body' |}
  = Throw MapNeedsCompressedException.
Proof.
  destruct (decompress_map_data_returns_declared_size_aux hek zstd data _
              Hdecompress) as (e & Hcases & He & Hzero).
  simpl in He, Hzero.
  unfold decompress_map_data. simpl.
  unfold decompress_header, decompress_engine. rewrite He.
  destruct Hcases as [Hc | ->].
  - destruct e; try discriminate; reflexivity.
  - rewrite Hzero. reflexivity.
Qed.

Lemma decompress_map_data_twice_witness :
  decompress_map_data (hek := literal_hek) (zstd := Stored.zstd)
    {| map_header := header_of CACHE_FILE_CUSTOM_EDITION_COMPRESSED 2051;
       map_body := [x3a; x03; x0a; x0b; x0c] |}
  = OK {| image_header := StandardHeader (header_of CACHE_FILE_CUSTOM_EDITION 0);
          image_body := [x0a; x0b; x0c] |}
  /\ decompress_map_data (hek := literal_hek) (zstd := Stored.zstd)
       {| map_header := header_of CACHE_FILE_CUSTOM_EDITION 0;
          map_body := [x0a; x0b; x0c] |}
     = Throw MapNeedsCompressedException.
Proof.
  split; [reflexivity|].
  apply (decompress_map_data_twice literal_hek Stored.zstd
           {| map_header := header_of CACHE_FILE_CUSTOM_EDITION_COMPRESSED 2051;
              map_body := [x3a; x03; x0a; x0b; x0c] |}
           (header_of CACHE_FILE_CUSTOM_EDITION 0)
           [x0a; x0b; x0c] [x0a; x0b; x0c]).
  reflexivity.
Defined.

(** ** The bytes the streaming loop reads *)

Lemma requested_bytes_app log log' :
  requested_bytes (log ++ log') = (requested_bytes log + requested_bytes log')%nat.
Proof.
  induction log as [|[size|q] log IH]; simpl; [reflexivity| |exact IH].
  rewrite IH. lia.
Qed.

Section Consumption.
Context {hek : HEK} {zstd : ZSTD}.
Variable fs : FileSystem.
Variable body_length : nat.
Variable init : nat.

Lemma read_data_accounted st size input :
  accounted body_length st ->
  fst (read_data st size) = OK input ->
  accounted body_length (snd (read_data st size)).
Proof.
  unfold accounted, read_data. intros [Hsum Htotal].
  destruct ((size =? 0)%nat || (length (unread st) <? size)%nat) eqn:Hfail;
    simpl; [discriminate|]. intros _.
  apply orb_false_iff in Hfail as [_ Hlen]. apply Nat.ltb_ge in Hlen.
  rewrite requested_bytes_app, length_skipn. simpl. split; lia.
Qed.

Lemma write_data_accounted st chunk :
  accounted body_length st ->
  accounted body_length (snd (write_data fs st chunk)).
Proof.
  unfold accounted, write_data.
  destruct (fwrite_ok fs (written st) chunk); simpl; tauto.
Qed.

Lemma transfer_loop_accounted fuel :
  forall at_ st st',
    transfer_loop fuel fs (HEADER_SIZE + Z.of_nat body_length) init at_ st
      = Some (None, st') ->
    accounted body_length st ->
    requested_bytes (events st') = body_length /\ unread st' = [].
Proof.
  induction fuel as [|fuel IH]; intros at_ st st' Hrun Hst;
    simpl in Hrun; [discriminate|].
  destruct at_ as [|input_data].
  - destruct (total_read st <? HEADER_SIZE + Z.of_nat body_length) eqn:Hmore.
    + pose proof (read_data_accounted st init) as Hread.
      destruct (read_data st init) as [[input|e] st1]; simpl in Hread;
        [|discriminate].
      apply (IH _ _ _ Hrun). now apply (Hread input).
    + injection Hrun as <-. apply Z.ltb_ge in Hmore.
      destruct Hst as [Hsum Htotal].
      assert (Hnil : length (unread st) = O) by lia.
      split; [lia|]. now apply length_zero_iff_nil.
  - destruct (stream_return _) as [q|]; [|discriminate].
    set (st1 := {| decompression_stream := _; unread := unread st;
                   total_read := total_read st; written := written st;
                   events := events st ++ [Reported q] |}) in *.
    assert (Hst1 : accounted body_length st1).
    { destruct Hst as [Hsum Htotal]. unfold accounted, st1. simpl.
      rewrite requested_bytes_app. simpl. split; lia. }
    set (w := match stream_output _ with
              | [] => (OK tt, st1)
              | _ :: _ => write_data fs st1 _
              end) in *.
    assert (Hw : accounted body_length (snd w)).
    { unfold w. destruct (stream_output _); [exact Hst1|].
      now apply write_data_accounted. }
    destruct w as [[[]|e] st2]; simpl in Hw; [|discriminate].
    destruct (0 <? q)%nat.
    + pose proof (read_data_accounted st2 q) as Hread.
      destruct (read_data st2 q) as [[input|e] st3]; simpl in Hread;
        [|discriminate].
      apply (IH _ _ _ Hrun). now apply (Hread input).
    + now apply (IH _ _ _ Hrun).
Qed.

End Consumption.

(** X6: a call of [decompress_map_file] that returns without an exception
    has asked for exactly the bytes of the body of the input file, all
    requests together, and leaves an output file that begins with the
    transcoded header. *)
Theorem decompress_map_file_reads_whole_body
    (hek : HEK) (zstd : ZSTD) (fs : FileSystem) (data : MapData)
    (run : FileRun)
    (Hinput : input_file fs = MapFile data)
    (Hrun : decompress_map_file fs = Some run)
    (Hdone : thrown run = None) :
  requested_bytes (calls run) = length (map_body data)
  /\ exists header_output body,
       decompress_header (map_header data) = OK header_output
       /\ output_file run
          = Some {| file_header := Some header_output; file_body := body |}.
Proof.
  unfold decompress_map_file in Hrun. rewrite Hinput in Hrun.
  destruct (decompress_header (map_header data)) as [header_output|e];
    [|injection Hrun as <-; discriminate].
  destruct (negb (output_opens fs)); [injection Hrun as <-; discriminate|].
  destruct (negb (header_fwrite_ok fs));
    [injection Hrun as <-; discriminate|].
  destruct (ZSTD_initDStream ZSTD_createDStream) as [init stream].
  destruct (transfer_loop _ fs _ init AtWhile _) as [[e st]|] eqn:Hloop;
    [|discriminate].
  injection Hrun as <-. simpl in Hdone. subst e. simpl.
  destruct (transfer_loop_accounted fs (length (map_body data)) init
              _ _ _ _ Hloop) as [Hbytes _].
  { split; simpl; [reflexivity | lia]. }
  split; [exact Hbytes|]. now exists header_output, (written st).
Qed.

Lemma decompress_map_file_reads_whole_body_witness :
  decompress_map_file (hek := literal_hek) (zstd := Stored.zstd)
    (file_system_of complete_file)
  = Some {| thrown := None;
            output_file :=
              Some {| file_header :=
                        Some (StandardHeader
                                (header_of CACHE_FILE_CUSTOM_EDITION 0));
                      file_body := [x0a; x0b; x0c] |};
            calls := [Requested 2; Reported 3; Requested 3; Reported 0] |}
  /\ requested_bytes [Requested 2; Reported 3; Requested 3; Reported 0]
     = length [x3a; x03; x0a; x0b; x0c].
Proof.
  split; [reflexivity|].
  apply (decompress_map_file_reads_whole_body literal_hek Stored.zstd
           (file_system_of complete_file)
           {| map_header := header_of CACHE_FILE_CUSTOM_EDITION_COMPRESSED 2051;
              map_body := [x3a; x03; x0a; x0b; x0c] |}
           {| thrown := None;
              output_file :=
                Some {| file_header :=
                          Some (StandardHeader
                                  (header_of CACHE_FILE_CUSTOM_EDITION 0));
                        file_body := [x0a; x0b; x0c] |};
              calls := [Requested 2; Reported 3; Requested 3; Reported 0] |});
    reflexivity.
Defined.

(** X7: [decompress_map_file] opens the output file only once the header
    of the input was transcoded; when [decompress_header] refuses that
    header, the call throws the exception [decompress_map_data] throws
    for the same input, and no output file exists. *)
Theorem decompress_map_file_header_first
    (hek : HEK) (zstd : ZSTD) (fs : FileSystem) (run : FileRun)
    (Hrun : decompress_map_file fs = Some run) :
  (output_file run <> None ->
   exists data header_output,
     input_file fs = MapFile data
     /\ decompress_header (map_header data) = OK header_output
     /\ output_opens fs = true)
  /\ (forall data e,
        input_file fs = MapFile data ->
        decompress_header (map_header data) = Throw e ->
        thrown run = Some e /\ output_file run = None
        /\ decompress_map_data data = Throw e).
Proof.
  unfold decompress_map_file in Hrun. split.
  - intros Hout.
    destruct (input_file fs) as [| |data];
      try (injection Hrun as <-; now contradiction Hout).
    destruct (decompress_header (map_header data)) as [header_output|e]
      eqn:Hheader; [|injection Hrun as <-; now contradiction Hout].
    destruct (output_opens fs);
      [|injection Hrun as <-; now contradiction Hout].
    exists data, header_output. repeat split. exact Hheader.
  - intros data e Hinput Hheader. rewrite Hinput, Hheader in Hrun.
    injection Hrun as <-. simpl. repeat split.
    unfold decompress_map_data. now rewrite Hheader.
Qed.

Lemma decompress_map_file_header_first_witness :
  decompress_map_file (hek := literal_hek) (zstd := Stored.zstd)
    (file_system_of (MapFile unsized_map))
  = Some {| thrown := Some MapNeedsCompressedException;
            output_file := None; calls := [] |}
  /\ decompress_map_data (hek := literal_hek) (zstd := Stored.zstd) unsized_map
     = Throw MapNeedsCompressedException.
Proof.
  split; [reflexivity|].
  apply (proj2 (decompress_map_file_header_first literal_hek Stored.zstd
                  (file_system_of (MapFile unsized_map))
                  {| thrown := Some MapNeedsCompressedException;
                     output_file := None; calls := [] |} eq_refl)
           unsized_map MapNeedsCompressedException); reflexivity.
Defined.

End CompressionMore.

(* ================================================================== *)
(** * Further properties of the weapon HUD interface hooks *)

Module HookMore.
Import Parser.
Import ParserSupport.
Import HookFacts.

Section PostCompile.
Context {constants : Constants}.

Lemma static_element_post_compile_reports
    (w : BuildWorkload) (self : WeaponHUDInterfaceStaticElement)
    (tag_index : nat) (struct_offset : Z)
    (sequence_count : Z) (sequences : list BitmapGroupSequence)
    (bitmap_tag_path : BitmapTagPath) :
  get_sequence_data w (interface_bitmap self)
    = Some (sequence_count, sequences, bitmap_tag_path) ->
  sequence_count <= Z.of_nat (length sequences) ->
  0 <= static_sequence_index self ->
  static_element_post_compile tag_index struct_offset
    {| this := self; workload := w |}
  = Some (tt,
          {| this := self;
             workload :=
               add_errors w
                 (static_element_reports tag_index struct_offset
                    sequence_count sequences bitmap_tag_path self) |}).
Proof.
  intros Hdata Hcount Hindex.
  unfold static_element_post_compile, static_element_reports.
  unfold bind at 1. unfold get_this at 1. simpl.
  destruct (static_sequence_index self =? NULL_INDEX); simpl;
    [apply report_none|].
  unfold bind at 1. unfold get_workload at 1. simpl.
  unfold bind at 1. rewrite Hdata. simpl.
  destruct (static_sequence_index self >=? sequence_count) eqn:Hge;
    [apply report_one|].
  destruct (sequence_at_in_bounds sequence_count sequences _
              Hcount Hindex Hge) as [sequence Hseq].
  unfold bind at 1. rewrite Hseq. simpl.
  destruct ((bitmap_count sequence =? 0) && (sprites_count sequence =? 0));
    [apply report_one | apply report_none].
Qed.

Lemma overlay_element_post_compile_reports
    (w : BuildWorkload) (self : WeaponHUDInterfaceOverlayElement)
    (tag_index : nat) (struct_offset : Z)
    (sequence_count : Z) (sequences : list BitmapGroupSequence)
    (bitmap_tag_path : BitmapTagPath) :
  get_sequence_data w (overlay_bitmap self)
    = Some (sequence_count, sequences, bitmap_tag_path) ->
  sequence_count <= Z.of_nat (length sequences) ->
  Forall (fun o => 0 <= element_sequence_index o) (overlays self) ->
  overlay_element_post_compile tag_index struct_offset
    {| this := self; workload := w |}
  = Some (tt,
          {| this := self;
             workload :=
               add_errors w
                 (flat_map
                    (element_overlay_reports tag_index struct_offset
                       sequence_count sequences bitmap_tag_path
                       (overlays self))
                    (seq 0 (length (overlays self)))) |}).
Proof.
  intros Hdata Hcount Hunsigned.
  unfold overlay_element_post_compile.
  unfold bind at 1. unfold get_workload at 1. simpl.
  unfold bind at 1. unfold get_this at 1. simpl.
  unfold bind at 1. rewrite Hdata. simpl.
  apply for_each_index_reports.
  intros i w' Hi.
  unfold bind at 1. unfold get_this at 1. simpl.
  unfold bind at 1. unfold element_overlay_reports.
  destruct (nth_error (overlays self) i) as [overlay|] eqn:Hnth.
  2:{ apply nth_error_None in Hnth. lia. }
  simpl.
  assert (Hindex : 0 <= element_sequence_index overlay).
  { rewrite Forall_forall in Hunsigned. apply Hunsigned.
    now apply nth_error_In with i. }
  destruct (element_sequence_index overlay =? NULL_INDEX); simpl;
    [apply report_none|].
  destruct (element_sequence_index overlay >=? sequence_count) eqn:Hge;
    [apply report_one|].
  destruct (sequence_at_in_bounds sequence_count sequences _
              Hcount Hindex Hge) as [sequence Hseq].
  unfold bind at 1. rewrite Hseq. simpl.
  destruct (bitmap_count sequence =? 0);
    [apply report_one | apply report_none].
Qed.

End PostCompile.

(** X8: for a static element whose bitmap resolves to [sequence_count]
    sequences, the post-compile hook returns and reports at most one
    diagnostic: nothing when the sequence index is [NULL_INDEX]; the
    out-of-bounds error when the index is at least [sequence_count];
    otherwise the zero-sprites/bitmaps error exactly when the sequence has
    neither bitmaps nor sprites (one of the two is enough to pass). *)
Theorem static_element_checked
    (constants : Constants) (w : BuildWorkload)
    (tag_index : nat) (struct_offset : Z)
    (self : WeaponHUDInterfaceStaticElement)
    (sequence_count : Z) (sequences : list BitmapGroupSequence)
    (bitmap_tag_path : BitmapTagPath)
    (Hbitmap : get_sequence_data w (interface_bitmap self)
               = Some (sequence_count, sequences, bitmap_tag_path))
    (Hcovers : sequence_count <= Z.of_nat (length sequences))
    (Hunsigned : 0 <= static_sequence_index self) :
  exists new,
    static_element_post_compile tag_index struct_offset
      {| this := self; workload := w |}
    = Some (tt, {| this := self; workload := add_errors w new |})
    /\ (static_sequence_index self = NULL_INDEX -> new = [])
    /\ (static_sequence_index self <> NULL_INDEX ->
        sequence_count <= static_sequence_index self ->
        new = [error_of tag_index
                 (StaticElementOutOfBounds (static_sequence_index self)
                    bitmap_tag_path
                    (struct_offset / sizeof_WeaponHUDInterfaceCrosshair)
                    sequence_count)])
    /\ (static_sequence_index self <> NULL_INDEX ->
        static_sequence_index self < sequence_count ->
        exists sequence,
          sequence_at sequences (static_sequence_index self) = Some sequence
          /\ (bitmap_count sequence = 0 -> sprites_count sequence = 0 ->
              new = [error_of tag_index
                       (StaticElementZeroSpritesBitmaps
                          (static_sequence_index self) bitmap_tag_path
                          (struct_offset
                           / sizeof_WeaponHUDInterfaceCrosshair))])
          /\ (bitmap_count sequence <> 0 \/ sprites_count sequence <> 0 ->
              new = [])).
Proof.
  eexists. split.
  { apply (static_element_post_compile_reports w self tag_index struct_offset
             sequence_count sequences bitmap_tag_path
             Hbitmap Hcovers Hunsigned). }
  unfold static_element_reports. repeat split.
  - intros ->. now rewrite Z.eqb_refl.
  - intros Hnull Hout. apply Z.eqb_neq in Hnull. rewrite Hnull.
    replace (static_sequence_index self >=? sequence_count) with true
      by (symmetry; rewrite Z.geb_leb; now apply Z.leb_le).
    reflexivity.
  - intros Hnull Hin. apply Z.eqb_neq in Hnull. rewrite Hnull.
    assert (Hge : (static_sequence_index self >=? sequence_count) = false)
      by (rewrite Z.geb_leb; now apply Z.leb_gt).
    rewrite Hge.
    destruct (sequence_at_in_bounds sequence_count sequences _
                Hcovers Hunsigned Hge) as [sequence Hseq].
    exists sequence. rewrite Hseq. repeat split.
    + intros -> ->. reflexivity.
    + intros [H | H]; apply Z.eqb_neq in H; rewrite H;
        [reflexivity | now rewrite andb_false_r].
Qed.

Lemma static_element_checked_witness :
  get_sequence_data sample_workload (interface_bitmap sample_static_element)
    = Some (2, [{| bitmap_count := 1; sprites_count := 4 |};
                {| bitmap_count := 0; sprites_count := 0 |}], sample_path)
  /\ exists new,
       static_element_post_compile (constants := halo_constants) 7 104
         {| this := sample_static_element; workload := sample_workload |}
       = Some (tt, {| this := sample_static_element;
                      workload := add_errors sample_workload new |})
       /\ new = [error_of 7 (StaticElementZeroSpritesBitmaps 1 sample_path 1)].
Proof.
  split; [reflexivity|].
  destruct (static_element_checked halo_constants sample_workload 7 104
              sample_static_element
              2 [{| bitmap_count := 1; sprites_count := 4 |};
                 {| bitmap_count := 0; sprites_count := 0 |}] sample_path
              eq_refl ltac:(simpl; lia) ltac:(simpl; lia))
    as (new & Hrun & _ & _ & Hin).
  exists new. split; [exact Hrun|].
  destruct Hin as (sequence & Hseq & Hzero & _).
  - simpl. discriminate.
  - simpl. lia.
  - injection Hseq as <-. now apply Hzero.
Defined.

(** ** Reports about overlays *)

Lemma length_reports (f : nat -> list Diagnostic) (l : list nat) :
  (forall j, (length (f j) <= 1)%nat) ->
  (length (flat_map f l) <= length l)%nat.
Proof.
  intros Hone. induction l as [|j l IH]; simpl; [lia|].
  rewrite length_app. specialize (Hone j). lia.
Qed.

(** When what [f j] holds is about overlay [j], the diagnostics about
    overlay [i] among those of the overlays from [a] on are those of
    [f i]. *)
Lemma reports_about_flat_map (f : nat -> list Diagnostic) (i : nat) :
  (forall j d, In d (f j) -> message_overlay (message d) = Some j) ->
  forall n a,
    reports_about i (flat_map f (seq a n))
    = if ((a <=? i) && (i <? a + n))%nat then f i else [].
Proof.
  intros Habout.
  assert (Hone : forall j,
             reports_about i (f j) = if (j =? i)%nat then f j else []).
  { intros j. unfold reports_about.
    assert (Hall : forall l,
               (forall d, In d l -> message_overlay (message d) = Some j) ->
               filter (about_overlay i) l = if (j =? i)%nat then l else []).
    { induction l as [|d l IH]; intros Hl; [now destruct (j =? i)%nat|].
      cbn [filter]. unfold about_overlay at 1.
      rewrite (Hl d (or_introl eq_refl)).
      rewrite IH by (intros d' Hd'; apply Hl; now right).
      now destruct (j =? i)%nat. }
    apply Hall. apply Habout. }
  induction n as [|n IH]; intros a.
  - cbn [seq flat_map]. unfold reports_about. cbn [filter].
    destruct (a <=? i)%nat eqn:Hle; [|reflexivity].
    replace (i <? a + 0)%nat with false; [reflexivity|].
    symmetry. apply Nat.ltb_ge. apply Nat.leb_le in Hle. lia.
  - cbn [seq flat_map]. unfold reports_about in *.
    rewrite filter_app, Hone, IH.
    destruct (a =? i)%nat eqn:Heq.
    + apply Nat.eqb_eq in Heq. subst a.
      replace (S i <=? i)%nat with false
        by (symmetry; apply Nat.leb_gt; lia).
      rewrite Nat.leb_refl.
      replace (i <? i + S n)%nat with true
        by (symmetry; apply Nat.ltb_lt; lia).
      cbn [andb]. now rewrite app_nil_r.
    + apply Nat.eqb_neq in Heq. cbn [app].
      destruct (S a <=? i)%nat eqn:Hle.
      * apply Nat.leb_le in Hle.
        replace (a <=? i)%nat with true by (symmetry; apply Nat.leb_le; lia).
        replace (a + S n)%nat with (S a + n)%nat by lia. reflexivity.
      * apply Nat.leb_gt in Hle.
        replace (a <=? i)%nat with false
          by (symmetry; apply Nat.leb_gt; lia).
        reflexivity.
Qed.

(** The same, for all overlays of a record: the diagnostics about
    overlay [i] are those of [f i], and no diagnostic is about an overlay
    the record does not have. *)
Lemma reports_about_each (f : nat -> list Diagnostic) (n i : nat) :
  (forall j d, In d (f j) -> message_overlay (message d) = Some j) ->
  reports_about i (flat_map f (seq 0 n))
  = if (i <? n)%nat then f i else [].
Proof.
  intros Habout. rewrite (reports_about_flat_map f i Habout n 0).
  reflexivity.
Qed.

Lemma reports_of_some_overlay (f : nat -> list Diagnostic) (n : nat) d :
  (forall j d', In d' (f j) -> message_overlay (message d') = Some j) ->
  In d (flat_map f (seq 0 n)) ->
  exists i, (i < n)%nat /\ message_overlay (message d) = Some i.
Proof.
  intros Habout Hd. apply in_flat_map in Hd as (j & Hj & Hd).
  exists j. split; [apply in_seq in Hj; lia | now apply Habout].
Qed.

Section AboutOverlays.
Context {constants : Constants}.
Variable tag_index : nat.
Variable struct_offset : Z.
Variable sequence_count : Z.
Variable sequences : list BitmapGroupSequence.
Variable bitmap_tag_path : BitmapTagPath.

Lemma element_overlay_reports_about overlays j d :
  In d (element_overlay_reports tag_index struct_offset sequence_count
          sequences bitmap_tag_path overlays j) ->
  message_overlay (message d) = Some j.
Proof.
  unfold element_overlay_reports.
  destruct (nth_error overlays j) as [overlay|]; [|intros []].
  destruct (element_sequence_index overlay =? NULL_INDEX); [intros []|].
  destruct (element_sequence_index overlay >=? sequence_count).
  - intros [<- | []]. reflexivity.
  - destruct (sequence_at sequences (element_sequence_index overlay))
      as [sequence|]; [|intros []].
    destruct (bitmap_count sequence =? 0); [|intros []].
    intros [<- | []]. reflexivity.
Qed.

Lemma element_overlay_reports_length overlays j :
  (length (element_overlay_reports tag_index struct_offset sequence_count
             sequences bitmap_tag_path overlays j) <= 1)%nat.
Proof.
  unfold element_overlay_reports.
  destruct (nth_error overlays j) as [overlay|]; [|simpl; lia].
  destruct (element_sequence_index overlay =? NULL_INDEX); [simpl; lia|].
  destruct (element_sequence_index overlay >=? sequence_count);
    [simpl; lia|].
  destruct (sequence_at sequences (element_sequence_index overlay))
    as [sequence|]; [|simpl; lia].
  destruct (bitmap_count sequence =? 0); simpl; lia.
Qed.

Lemma crosshair_overlay_reports_message overlays j d :
  In d (crosshair_overlay_reports tag_index struct_offset sequence_count
          sequences bitmap_tag_path overlays j) ->
  message_overlay (message d) = Some j.
Proof.
  unfold crosshair_overlay_reports.
  destruct (nth_error overlays j) as [overlay|]; [|intros []].
  destruct (overlay_sequence_index overlay =? NULL_INDEX); [intros []|].
  destruct (overlay_sequence_index overlay >=? sequence_count).
  - intros [<- | []]. reflexivity.
  - destruct (sequence_at sequences (overlay_sequence_index overlay))
      as [sequence|]; [|intros []].
    destruct (not_a_sprite (overlay_flags overlay)).
    + destruct (bitmap_count sequence =? 0); [|intros []].
      intros [<- | []]. reflexivity.
    + destruct (sprites_count sequence =? 0); [|intros []].
      intros [<- | []]. reflexivity.
Qed.

Lemma crosshair_overlay_reports_length overlays j :
  (length (crosshair_overlay_reports tag_index struct_offset sequence_count
             sequences bitmap_tag_path overlays j) <= 1)%nat.
Proof.
  unfold crosshair_overlay_reports.
  destruct (nth_error overlays j) as [overlay|]; [|simpl; lia].
  destruct (overlay_sequence_index overlay =? NULL_INDEX); [simpl; lia|].
  destruct (overlay_sequence_index overlay >=? sequence_count);
    [simpl; lia|].
  destruct (sequence_at sequences (overlay_sequence_index overlay))
    as [sequence|]; [|simpl; lia].
  destruct (not_a_sprite (overlay_flags overlay));
    [destruct (bitmap_count sequence =? 0)
    |destruct (sprites_count sequence =? 0)]; simpl; lia.
Qed.

End AboutOverlays.

(** X9: for an overlay element whose bitmap resolves to [sequence_count]
    sequences, the post-compile hook returns, every diagnostic it reports
    is about an overlay of the element, and about each overlay it reports
    at most one.  About an overlay whose sequence index is not
    [NULL_INDEX] it reports the out-of-bounds error, and nothing else,
    when the index is at least [sequence_count], and the zero-bitmaps
    error, and nothing else, when the index is in bounds and the sequence
    has no bitmap; about an overlay without a sequence, or on a sequence
    that has bitmaps, it reports nothing. *)
Theorem overlay_element_checked
    (constants : Constants) (w : BuildWorkload)
    (tag_index : nat) (struct_offset : Z)
    (self : WeaponHUDInterfaceOverlayElement)
    (sequence_count : Z) (sequences : list BitmapGroupSequence)
    (bitmap_tag_path : BitmapTagPath)
    (Hbitmap : get_sequence_data w (overlay_bitmap self)
               = Some (sequence_count, sequences, bitmap_tag_path))
    (Hcovers : sequence_count <= Z.of_nat (length sequences))
    (Hunsigned : Forall (fun o => 0 <= element_sequence_index o)
                        (overlays self)) :
  exists new,
    overlay_element_post_compile tag_index struct_offset
      {| this := self; workload := w |}
    = Some (tt, {| this := self; workload := add_errors w new |})
    /\ (length new <= length (overlays self))%nat
    /\ (forall d, In d new ->
          exists i, (i < length (overlays self))%nat
                    /\ message_overlay (message d) = Some i)
    /\ (forall i, (length (reports_about i new) <= 1)%nat)
    /\ forall i overlay,
        nth_error (overlays self) i = Some overlay ->
        (element_sequence_index overlay = NULL_INDEX ->
         reports_about i new = [])
        /\ (element_sequence_index overlay <> NULL_INDEX ->
            sequence_count <= element_sequence_index overlay ->
            reports_about i new
            = [error_of tag_index
                 (ElementOverlayOutOfBounds (element_sequence_index overlay)
                    bitmap_tag_path i
                    (struct_offset / sizeof_WeaponHUDInterfaceCrosshair)
                    sequence_count)])
        /\ (element_sequence_index overlay <> NULL_INDEX ->
            element_sequence_index overlay < sequence_count ->
            exists sequence,
              sequence_at sequences (element_sequence_index overlay)
                = Some sequence
              /\ (bitmap_count sequence = 0 ->
                  reports_about i new
                  = [error_of tag_index
                       (ElementOverlayZeroBitmaps
                          (element_sequence_index overlay) bitmap_tag_path i
                          (struct_offset
                           / sizeof_WeaponHUDInterfaceCrosshair))])
              /\ (bitmap_count sequence <> 0 ->
                  reports_about i new = [])).
Proof.
  eexists. split.
  { apply (overlay_element_post_compile_reports w self tag_index struct_offset
             sequence_count sequences bitmap_tag_path
             Hbitmap Hcovers Hunsigned). }
  pose proof (fun j d =>
                element_overlay_reports_about tag_index struct_offset
                  sequence_count sequences bitmap_tag_path (overlays self)
                  j d) as Habout.
  split.
  { pose proof (length_reports
                  (element_overlay_reports tag_index struct_offset
                     sequence_count sequences bitmap_tag_path (overlays self))
                  (seq 0 (length (overlays self)))) as Hlength.
    rewrite length_seq in Hlength. apply Hlength.
    intros j. apply element_overlay_reports_length. }
  split.
  { intros d Hd. now apply (reports_of_some_overlay _ _ d Habout). }
  split.
  { intros i. rewrite (reports_about_each _ _ i Habout).
    destruct (i <? length (overlays self))%nat; [|simpl; lia].
    apply element_overlay_reports_length. }
  intros i overlay Hnth.
  assert (Hi : (i < length (overlays self))%nat)
    by (apply nth_error_Some; congruence).
  assert (Hindex : 0 <= element_sequence_index overlay).
  { rewrite Forall_forall in Hunsigned. apply Hunsigned.
    now apply nth_error_In with i. }
  rewrite (reports_about_each _ _ i Habout).
  replace (i <? length (overlays self))%nat with true
    by (symmetry; now apply Nat.ltb_lt).
  unfold element_overlay_reports. rewrite Hnth.
  split; [|split].
  - intros Hnull. now rewrite Hnull, Z.eqb_refl.
  - intros Hnull Hout. apply Z.eqb_neq in Hnull. rewrite Hnull.
    replace (element_sequence_index overlay >=? sequence_count) with true
      by (symmetry; rewrite Z.geb_leb; now apply Z.leb_le).
    reflexivity.
  - intros Hnull Hin. apply Z.eqb_neq in Hnull.
    assert (Hge : (element_sequence_index overlay >=? sequence_count) = false)
      by (rewrite Z.geb_leb; now apply Z.leb_gt).
    destruct (sequence_at_in_bounds sequence_count sequences _
                Hcovers Hindex Hge) as [sequence Hseq].
    exists sequence. split; [exact Hseq|].
    rewrite Hnull, Hge, Hseq. split.
    + intros Hzero. now rewrite Hzero.
    + intros Hbitmaps. apply Z.eqb_neq in Hbitmaps. now rewrite Hbitmaps.
Qed.

Lemma overlay_element_checked_witness :
  get_sequence_data sample_workload (overlay_bitmap sample_overlay_element)
    = Some (2, [{| bitmap_count := 1; sprites_count := 4 |};
                {| bitmap_count := 0; sprites_count := 0 |}], sample_path)
  /\ exists new,
       overlay_element_post_compile (constants := halo_constants) 7 104
         {| this := sample_overlay_element; workload := sample_workload |}
       = Some (tt, {| this := sample_overlay_element;
                      workload := add_errors sample_workload new |})
       /\ (length new <= 4)%nat
       /\ reports_about 2 new
          = [error_of 7 (ElementOverlayOutOfBounds 9 sample_path 2 1 2)].
Proof.
  assert (Hunsigned : Forall (fun o => 0 <= element_sequence_index o)
                             (overlays sample_overlay_element)).
  { repeat constructor; simpl; lia. }
  split; [reflexivity|].
  destruct (overlay_element_checked halo_constants sample_workload 7 104
              sample_overlay_element
              2 [{| bitmap_count := 1; sprites_count := 4 |};
                 {| bitmap_count := 0; sprites_count := 0 |}] sample_path
              eq_refl ltac:(simpl; lia) Hunsigned)
    as (new & Hrun & Hlength & _ & _ & Hall).
  exists new. split; [exact Hrun|]. split; [exact Hlength|].
  destruct (Hall 2%nat {| element_sequence_index := 9 |} eq_refl)
    as (_ & Hout & _).
  apply Hout; simpl; [discriminate | lia].
Defined.

Example overlay_element_post_compile_sample :
  overlay_element_post_compile (constants := halo_constants) 7 104
    {| this := sample_overlay_element; workload := sample_workload |}
  = Some (tt,
          {| this := sample_overlay_element;
             workload :=
               add_errors sample_workload
                 [error_of 7 (ElementOverlayZeroBitmaps 1 sample_path 0 1);
                  error_of 7 (ElementOverlayOutOfBounds 9 sample_path 2 1 2)]
          |}).
Proof. reflexivity. Qed.

(** X10: for a crosshair whose bitmap resolves to [sequence_count]
    sequences, the post-compile hook returns, every diagnostic it reports
    is about an overlay of the crosshair, and about each overlay it
    reports at most one: none for an overlay without a sequence, and the
    out-of-bounds error alone for a sequence index of at least
    [sequence_count].  Of an overlay on a sequence in bounds it checks
    the bitmaps when the overlay is flagged as not a sprite, and the
    sprites otherwise: a count of 0 is reported as the one error about
    the overlay, and a count that is not 0 leaves the overlay without a
    diagnostic. *)
Theorem crosshair_overlay_sequence_checked
    (constants : Constants) (w : BuildWorkload)
    (tag_index : nat) (struct_offset : Z)
    (self : WeaponHUDInterfaceCrosshair)
    (sequence_count : Z) (sequences : list BitmapGroupSequence)
    (bitmap_tag_path : BitmapTagPath)
    (Hbitmap : get_sequence_data w (crosshair_bitmap self)
               = Some (sequence_count, sequences, bitmap_tag_path))
    (Hcovers : sequence_count <= Z.of_nat (length sequences))
    (Hunsigned : Forall (fun o => 0 <= overlay_sequence_index o)
                        (crosshair_overlays self)) :
  exists new,
    crosshair_post_compile tag_index struct_offset
      {| this := self; workload := w |}
    = Some (tt, {| this := self; workload := add_errors w new |})
    /\ (length new <= length (crosshair_overlays self))%nat
    /\ (forall d, In d new ->
          exists i, (i < length (crosshair_overlays self))%nat
                    /\ message_overlay (message d) = Some i)
    /\ (forall i, (length (reports_about i new) <= 1)%nat)
    /\ forall i overlay,
        nth_error (crosshair_overlays self) i = Some overlay ->
        (overlay_sequence_index overlay = NULL_INDEX ->
         reports_about i new = [])
        /\ (overlay_sequence_index overlay <> NULL_INDEX ->
            sequence_count <= overlay_sequence_index overlay ->
            reports_about i new
            = [error_of tag_index
                 (CrosshairOverlayOutOfBounds (overlay_sequence_index overlay)
                    bitmap_tag_path i
                    (struct_offset / sizeof_WeaponHUDInterfaceCrosshair)
                    sequence_count)])
        /\ (overlay_sequence_index overlay <> NULL_INDEX ->
            overlay_sequence_index overlay < sequence_count ->
            exists sequence,
              sequence_at sequences (overlay_sequence_index overlay)
                = Some sequence
              /\ (not_a_sprite (overlay_flags overlay) = true ->
                  bitmap_count sequence = 0 ->
                  reports_about i new
                  = [error_of tag_index
                       (CrosshairOverlayZeroBitmaps
                          (overlay_sequence_index overlay) bitmap_tag_path i
                          (struct_offset
                           / sizeof_WeaponHUDInterfaceCrosshair))])
              /\ (not_a_sprite (overlay_flags overlay) = false ->
                  sprites_count sequence = 0 ->
                  reports_about i new
                  = [error_of tag_index
                       (CrosshairOverlayZeroSprites
                          (overlay_sequence_index overlay) bitmap_tag_path i
                          (struct_offset
                           / sizeof_WeaponHUDInterfaceCrosshair))])
              /\ ((if not_a_sprite (overlay_flags overlay)
                   then bitmap_count sequence else sprites_count sequence)
                  <> 0 ->
                  reports_about i new = [])).
Proof.
  eexists. split.
  { apply (crosshair_post_compile_reports w self tag_index struct_offset
             sequence_count sequences bitmap_tag_path
             Hbitmap Hcovers Hunsigned). }
  pose proof (fun j d =>
                crosshair_overlay_reports_message tag_index struct_offset
                  sequence_count sequences bitmap_tag_path
                  (crosshair_overlays self) j d) as Habout.
  split.
  { pose proof (length_reports
                  (crosshair_overlay_reports tag_index struct_offset
                     sequence_count sequences bitmap_tag_path
                     (crosshair_overlays self))
                  (seq 0 (length (crosshair_overlays self)))) as Hlength.
    rewrite length_seq in Hlength. apply Hlength.
    intros j. apply crosshair_overlay_reports_length. }
  split.
  { intros d Hd. now apply (reports_of_some_overlay _ _ d Habout). }
  split.
  { intros i. rewrite (reports_about_each _ _ i Habout).
    destruct (i <? length (crosshair_overlays self))%nat; [|simpl; lia].
    apply crosshair_overlay_reports_length. }
  intros i overlay Hnth.
  assert (Hi : (i < length (crosshair_overlays self))%nat)
    by (apply nth_error_Some; congruence).
  assert (Hindex : 0 <= overlay_sequence_index overlay).
  { rewrite Forall_forall in Hunsigned. apply Hunsigned.
    now apply nth_error_In with i. }
  rewrite (reports_about_each _ _ i Habout).
  replace (i <? length (crosshair_overlays self))%nat with true
    by (symmetry; now apply Nat.ltb_lt).
  unfold crosshair_overlay_reports. rewrite Hnth.
  split; [|split].
  - intros Hnull. now rewrite Hnull, Z.eqb_refl.
  - intros Hnull Hout. apply Z.eqb_neq in Hnull. rewrite Hnull.
    replace (overlay_sequence_index overlay >=? sequence_count) with true
      by (symmetry; rewrite Z.geb_leb; now apply Z.leb_le).
    reflexivity.
  - intros Hnull Hin. apply Z.eqb_neq in Hnull.
    assert (Hge : (overlay_sequence_index overlay >=? sequence_count) = false)
      by (rewrite Z.geb_leb; now apply Z.leb_gt).
    destruct (sequence_at_in_bounds sequence_count sequences _
                Hcovers Hindex Hge) as [sequence Hseq].
    exists sequence. split; [exact Hseq|].
    rewrite Hnull, Hge, Hseq. split; [|split].
    + intros Hflag Hzero. now rewrite Hflag, Hzero.
    + intros Hflag Hzero. now rewrite Hflag, Hzero.
    + intros Hcount. apply Z.eqb_neq in Hcount.
      destruct (not_a_sprite (overlay_flags overlay)); now rewrite Hcount.
Qed.

Lemma crosshair_overlay_sequence_checked_witness :
  get_sequence_data sample_workload (crosshair_bitmap empty_sequence_crosshair)
    = Some (2, [{| bitmap_count := 1; sprites_count := 4 |};
                {| bitmap_count := 0; sprites_count := 0 |}], sample_path)
  /\ exists new,
       crosshair_post_compile (constants := halo_constants) 7 0
         {| this := empty_sequence_crosshair; workload := sample_workload |}
       = Some (tt, {| this := empty_sequence_crosshair;
                      workload := add_errors sample_workload new |})
       /\ reports_about 1 new
          = [error_of 7 (CrosshairOverlayZeroBitmaps 1 sample_path 1 0)].
Proof.
  assert (Hunsigned : Forall (fun o => 0 <= overlay_sequence_index o)
                             (crosshair_overlays empty_sequence_crosshair)).
  { repeat constructor; simpl; lia. }
  split; [reflexivity|].
  destruct (crosshair_overlay_sequence_checked halo_constants sample_workload
              7 0 empty_sequence_crosshair
              2 [{| bitmap_count := 1; sprites_count := 4 |};
                 {| bitmap_count := 0; sprites_count := 0 |}] sample_path
              eq_refl ltac:(simpl; lia) Hunsigned)
    as (new & Hrun & _ & _ & _ & Hall).
  exists new. split; [exact Hrun|].
  destruct (Hall 1%nat
              {| overlay_sequence_index := 1;
                 overlay_flags := {| show_only_when_zoomed := false;
                                     dont_show_when_zoomed := false;
                                     not_a_sprite := true |} |} eq_refl)
    as (_ & _ & Hin).
  destruct Hin as (sequence & Hseq & Hbitmaps & _).
  - simpl. discriminate.
  - simpl. lia.
  - injection Hseq as <-. now apply Hbitmaps.
Defined.

Example crosshair_post_compile_empty_sequence :
  crosshair_post_compile (constants := halo_constants) 7 0
    {| this := empty_sequence_crosshair; workload := sample_workload |}
  = Some (tt,
          {| this := empty_sequence_crosshair;
             workload :=
               add_errors sample_workload
                 [error_of 7 (CrosshairOverlayZeroSprites 1 sample_path 0 0);
                  error_of 7 (CrosshairOverlayZeroBitmaps 1 sample_path 1 0)]
          |}).
Proof. reflexivity. Qed.

(** X11: for a meter whose bitmap resolves to [sequence_count] sequences,
    the post-compile hook returns and reports nothing when the sequence
    index is [NULL_INDEX]; when the index is in bounds it reports the
    zero-sprites error exactly when the sequence has no sprite, whatever
    its bitmap count. *)
Theorem meter_sprites_checked
    (constants : Constants) (w : BuildWorkload)
    (tag_index : nat) (struct_offset : Z)
    (self : WeaponHUDInterfaceMeter)
    (sequence_count : Z) (sequences : list BitmapGroupSequence)
    (bitmap_tag_path : BitmapTagPath)
    (Hbitmap : get_sequence_data w (meter_bitmap self)
               = Some (sequence_count, sequences, bitmap_tag_path))
    (Hcovers : sequence_count <= Z.of_nat (length sequences))
    (Hunsigned : 0 <= meter_sequence_index self) :
  exists new,
    meter_post_compile tag_index struct_offset
      {| this := self; workload := w |}
    = Some (tt, {| this := self; workload := add_errors w new |})
    /\ (meter_sequence_index self = NULL_INDEX -> new = [])
    /\ (meter_sequence_index self <> NULL_INDEX ->
        meter_sequence_index self < sequence_count ->
        exists sequence,
          sequence_at sequences (meter_sequence_index self) = Some sequence
          /\ (sprites_count sequence = 0 ->
              new = [error_of tag_index
                       (MeterZeroSprites (meter_sequence_index self)
                          bitmap_tag_path
                          (struct_offset
                           / sizeof_WeaponHUDInterfaceCrosshair))])
          /\ (sprites_count sequence <> 0 -> new = [])).
Proof.
  eexists. split.
  { apply (meter_post_compile_reports w self tag_index struct_offset
             sequence_count sequences bitmap_tag_path
             Hbitmap Hcovers Hunsigned). }
  unfold meter_reports. split.
  - intros ->. now rewrite Z.eqb_refl.
  - intros Hnull Hin. apply Z.eqb_neq in Hnull. rewrite Hnull.
    assert (Hge : (meter_sequence_index self >=? sequence_count) = false)
      by (rewrite Z.geb_leb; now apply Z.leb_gt).
    rewrite Hge.
    destruct (sequence_at_in_bounds sequence_count sequences _
                Hcovers Hunsigned Hge) as [sequence Hseq].
    exists sequence. rewrite Hseq. repeat split.
    + intros ->. reflexivity.
    + intros H. apply Z.eqb_neq in H. now rewrite H.
Qed.

Lemma meter_sprites_checked_witness :
  get_sequence_data sample_workload (meter_bitmap
                                       {| meter_sequence_index := 1;
                                          meter_bitmap := TagID_index 0 |})
    = Some (2, [{| bitmap_count := 1; sprites_count := 4 |};
                {| bitmap_count := 0; sprites_count := 0 |}], sample_path)
  /\ exists new,
       meter_post_compile (constants := halo_constants) 7 208
         {| this := {| meter_sequence_index := 1;
                       meter_bitmap := TagID_index 0 |};
            workload := sample_workload |}
       = Some (tt, {| this := {| meter_sequence_index := 1;
                                 meter_bitmap := TagID_index 0 |};
                      workload := add_errors sample_workload new |})
       /\ new = [error_of 7 (MeterZeroSprites 1 sample_path 2)].
Proof.
  split; [reflexivity|].
  destruct (meter_sprites_checked halo_constants sample_workload 7 208
              {| meter_sequence_index := 1; meter_bitmap := TagID_index 0 |}
              2 [{| bitmap_count := 1; sprites_count := 4 |};
                 {| bitmap_count := 0; sprites_count := 0 |}] sample_path
              eq_refl ltac:(simpl; lia) ltac:(simpl; lia))
    as (new & Hrun & _ & Hin).
  exists new. split; [exact Hrun|].
  destruct Hin as (sequence & Hseq & Hzero & _).
  - simpl. discriminate.
  - simpl. lia.
  - injection Hseq as <-. now apply Hzero.
Defined.

(** ** The zoom warning *)

Lemma count_changes_on_zoom overlays :
  forall zooms,
    fold_left (fun zooms o => if changes_on_zoom o then S zooms else zooms)
              overlays zooms
    = (zooms + length (filter changes_on_zoom overlays))%nat.
Proof.
  induction overlays as [|o overlays IH]; intros zooms; simpl; [lia|].
  rewrite IH. destruct (changes_on_zoom o); simpl; lia.
Qed.

Lemma count_all_changes_on_zoom crosshairs :
  forall zooms,
    fold_left
      (fun zooms c =>
         fold_left (fun zooms o => if changes_on_zoom o then S zooms else zooms)
                   (crosshair_overlays c) zooms)
      crosshairs zooms
    = (zooms + length (filter changes_on_zoom (all_overlays crosshairs)))%nat.
Proof.
  induction crosshairs as [|c crosshairs IH]; intros zooms; simpl; [lia|].
  rewrite IH, count_changes_on_zoom.
  unfold all_overlays. simpl. rewrite filter_app, length_app. lia.
Qed.

Lemma zoom_bit_of_types crosshairs (k : Z) :
  Forall (fun c => 0 <= crosshair_type c < 32) crosshairs ->
  exists inty,
    or_crosshair_types crosshairs 0 = Some inty
    /\ Z.testbit inty k = existsb (fun c => crosshair_type c =? k) crosshairs.
Proof.
  intros Htypes.
  destruct (testbit_or_crosshair_types crosshairs Htypes 0)
    as (inty & Hloop & Hbits).
  exists inty. split; [exact Hloop|].
  now rewrite Hbits, Z.bits_0.
Qed.

Lemma pre_compile_reports
    (constants : Constants) (tag_index : nat)
    (self : WeaponHUDInterface) (w : BuildWorkload) :
  Forall (fun c => 0 <= crosshair_type c < 32) (crosshairs self) ->
  exists self',
    pre_compile tag_index {| this := self; workload := w |}
    = Some (tt,
            {| this := self';
               workload :=
                 add_errors w (zoom_warning tag_index w (crosshairs self)) |})
    /\ crosshairs self' = crosshairs self.
Proof.
  intros Htypes.
  destruct (zoom_bit_of_types (crosshairs self) zoom Htypes)
    as (inty & Hloop & Hzoom).
  unfold pre_compile, bind, get_this, set_this, get_workload, defined,
    zoom_warning.
  simpl. rewrite Hloop. simpl. rewrite Hzoom.
  rewrite count_all_changes_on_zoom. simpl.
  destruct (negb (Compression.engine_eqb (engine_target w)
                    Compression.CACHE_FILE_DARK_CIRCLET)
            && negb (existsb (fun c => crosshair_type c =? zoom)
                       (crosshairs self))); simpl.
  - destruct (length (filter changes_on_zoom (all_overlays (crosshairs self))));
      simpl; eexists.
    + split; [unfold ret; rewrite add_errors_nil; reflexivity | reflexivity].
    + split; reflexivity.
  - eexists.
    split; [unfold ret; rewrite add_errors_nil; reflexivity | reflexivity].
Qed.

(** X12: on a record whose crosshair types are enumerators (below 32),
    [pre_compile] reports at most one diagnostic, a warning, and no error.
    It reports nothing when the target is Dark Circlet, when a crosshair
    is of the zoom type, or when no overlay of any crosshair changes on
    zoom; otherwise it reports one warning that counts the overlays that
    are flagged to show only, or not to show, when zoomed. *)
Theorem pre_compile_zoom_warning_reported
    (constants : Constants) (tag_index : nat)
    (self : WeaponHUDInterface) (w : BuildWorkload)
    (Htypes : Forall (fun c => 0 <= crosshair_type c < 32) (crosshairs self)) :
  exists self' new,
    pre_compile tag_index {| this := self; workload := w |}
    = Some (tt, {| this := self'; workload := add_errors w new |})
    /\ (engine_target w = Compression.CACHE_FILE_DARK_CIRCLET -> new = [])
    /\ ((exists c, In c (crosshairs self) /\ crosshair_type c = zoom) ->
        new = [])
    /\ ((forall o, In o (all_overlays (crosshairs self)) ->
                   changes_on_zoom o = false) ->
        new = [])
    /\ (engine_target w <> Compression.CACHE_FILE_DARK_CIRCLET ->
        (forall c, In c (crosshairs self) -> crosshair_type c <> zoom) ->
        (exists o, In o (all_overlays (crosshairs self))
                   /\ changes_on_zoom o = true) ->
        new = [{| severity := ERROR_TYPE_WARNING;
                  diagnostic_tag := tag_index;
                  message :=
                    OverlaysChangeOnZoom
                      (length (filter changes_on_zoom
                                 (all_overlays (crosshairs self)))) |}]).
Proof.
  destruct (pre_compile_reports constants tag_index self w Htypes)
    as (self' & Hrun & _).
  exists self', (zoom_warning tag_index w (crosshairs self)).
  split; [exact Hrun|]. unfold zoom_warning. repeat split.
  - intros ->. reflexivity.
  - intros (c & Hin & Hzoom).
    replace (existsb (fun c => crosshair_type c =? zoom) (crosshairs self))
      with true.
    + now rewrite andb_false_r.
    + symmetry. apply existsb_exists. exists c. split; [exact Hin|].
      now apply Z.eqb_eq.
  - intros Hnone.
    replace (filter changes_on_zoom (all_overlays (crosshairs self)))
      with (@nil WeaponHUDInterfaceCrosshairOverlay).
    + simpl. now rewrite andb_false_r.
    + symmetry. induction (all_overlays (crosshairs self)) as [|o l IH];
        [reflexivity|]. simpl. rewrite (Hnone o) by now left.
      apply IH. intros o' Ho'. apply Hnone. now right.
  - intros Htarget Hnozoom (o & Hin & Ho).
    replace (Compression.engine_eqb (engine_target w)
               Compression.CACHE_FILE_DARK_CIRCLET) with false.
    2:{ symmetry. apply not_true_is_false. intros H.
        apply TranscoderFacts.engine_eqb_eq in H. contradiction. }
    replace (existsb (fun c => crosshair_type c =? zoom) (crosshairs self))
      with false.
    2:{ symmetry. apply not_true_is_false. intros H.
        apply existsb_exists in H as (c & Hc & Heq).
        apply Z.eqb_eq in Heq. now apply (Hnozoom c). }
    simpl.
    assert (Hfound : In o (filter changes_on_zoom
                             (all_overlays (crosshairs self))))
      by (apply filter_In; now split).
    destruct (filter changes_on_zoom (all_overlays (crosshairs self)));
      [destruct Hfound | reflexivity].
Qed.

Lemma pre_compile_zoom_warning_reported_witness :
  Forall (fun c => 0 <= crosshair_type c < 32) (crosshairs zooming_interface)
  /\ exists self' new,
       pre_compile (constants := halo_constants) 7
         {| this := zooming_interface; workload := sample_workload |}
       = Some (tt, {| this := self';
                      workload := add_errors sample_workload new |})
       /\ new = [{| severity := ERROR_TYPE_WARNING;
                    diagnostic_tag := 7;
                    message := OverlaysChangeOnZoom 1 |}].
Proof.
  assert (Htypes : Forall (fun c => 0 <= crosshair_type c < 32)
                          (crosshairs zooming_interface)).
  { repeat constructor; simpl; lia. }
  split; [exact Htypes|].
  destruct (pre_compile_zoom_warning_reported halo_constants 7
              zooming_interface sample_workload Htypes)
    as (self' & new & Hrun & _ & _ & _ & Hwarn).
  exists self', new. split; [exact Hrun|].
  apply Hwarn.
  - discriminate.
  - intros c [<- | []]. simpl. discriminate.
  - eexists. split; [right; left; reflexivity | reflexivity].
Defined.

End HookMore.

(* ================================================================== *)
(** * Properties of the path functions *)

Module FileFacts.
Import File.

Local Open Scope nat_scope.

Section WithPlatform.
Context {platform : Platform}.

Lemma is_separator_system : is_separator SYSTEM_PATH_SEPARATOR = true.
Proof.
  unfold is_separator. rewrite Ascii.eqb_refl. now rewrite orb_true_r.
Qed.

Lemma is_separator_halo : is_separator HALO_PATH_SEPARATOR = true.
Proof. unfold is_separator. now rewrite Ascii.eqb_refl. Qed.

(** ** The base name *)

Lemma base_name_chars_loop_name name :
  forallb (fun c => negb (is_separator c)) name = true ->
  forall base_name, base_name_chars_loop name base_name = base_name.
Proof.
  induction name as [|c name IH]; intros Hname base_name; simpl;
    [reflexivity|].
  simpl in Hname. apply andb_true_iff in Hname as [Hc Hname].
  apply negb_true_iff in Hc. rewrite Hc. now apply IH.
Qed.

Lemma base_name_chars_loop_directory directory separator name :
  is_separator separator = true ->
  forallb (fun c => negb (is_separator c)) name = true ->
  forall base_name,
    base_name_chars_loop (directory ++ separator :: name) base_name = name.
Proof.
  intros Hseparator Hname.
  induction directory as [|c directory IH]; intros base_name; simpl.
  - rewrite Hseparator. now apply base_name_chars_loop_name.
  - destruct (is_separator c); apply IH.
Qed.

(** A path has no separator, or a last one. *)
Lemma last_separator (tag_path : chars) :
  forallb (fun c => negb (is_separator c)) tag_path = true
  \/ exists directory separator name,
       tag_path = directory ++ separator :: name
       /\ is_separator separator = true
       /\ forallb (fun c => negb (is_separator c)) name = true.
Proof.
  induction tag_path as [|c tag_path IH]; [now left|].
  destruct IH as [Hname | (directory & separator & name & -> & Hs & Hname)].
  - destruct (is_separator c) eqn:Hc.
    + right. now exists [], c, tag_path.
    + left. simpl. now rewrite Hc.
  - right. now exists (c :: directory), separator, name.
Qed.

End WithPlatform.

(** X13: converting the separators of a path keeps its length, leaves a
    path without separators as it is, and leaves no separator but the
    one converted to; converting twice is converting once, and converting
    to the preferred form and then to the Halo form is converting to the
    Halo form (and the other way round). *)
Theorem path_separators_converted (platform : Platform) (tag_path : chars) :
  length (halo_path_to_preferred_path tag_path) = length tag_path
  /\ (forall c, In c (halo_path_to_preferred_path tag_path) ->
                is_separator c = true -> c = SYSTEM_PATH_SEPARATOR)
  /\ (forall c, In c (preferred_path_to_halo_path tag_path) ->
                is_separator c = true -> c = HALO_PATH_SEPARATOR)
  /\ (forallb (fun c => negb (is_separator c)) tag_path = true ->
      halo_path_to_preferred_path tag_path = tag_path
      /\ preferred_path_to_halo_path tag_path = tag_path)
  /\ halo_path_to_preferred_path (halo_path_to_preferred_path tag_path)
     = halo_path_to_preferred_path tag_path
  /\ preferred_path_to_halo_path (halo_path_to_preferred_path tag_path)
     = preferred_path_to_halo_path tag_path
  /\ halo_path_to_preferred_path (preferred_path_to_halo_path tag_path)
     = halo_path_to_preferred_path tag_path.
Proof.
  unfold halo_path_to_preferred_path, preferred_path_to_halo_path,
    halo_path_to_preferred_path_chars, preferred_path_to_halo_path_chars.
  split; [apply length_map|].
  split.
  { intros c Hin Hc. apply in_map_iff in Hin as (c0 & <- & _).
    destruct (is_separator c0) eqn:H0; [reflexivity | congruence]. }
  split.
  { intros c Hin Hc. apply in_map_iff in Hin as (c0 & <- & _).
    destruct (is_separator c0) eqn:H0; [reflexivity | congruence]. }
  split.
  { intros Hname. split;
      (induction tag_path as [|c tag_path IH]; [reflexivity|]; simpl in *;
       apply andb_true_iff in Hname as [Hc Hname];
       apply negb_true_iff in Hc; rewrite Hc; now rewrite IH). }
  repeat split; rewrite map_map; apply map_ext; intros c;
    destruct (is_separator c) eqn:Hc;
    rewrite ?is_separator_system, ?is_separator_halo, ?Hc; reflexivity.
Qed.

(** X14: [base_name_chars] returns what follows the last separator of the
    path, and the path itself when it has no separator: the path is a
    directory part, empty or ended by a separator, followed by the base
    name, and the base name has no separator. *)
Theorem base_name_chars_after_last_separator
    (platform : Platform) (tag_path : chars) :
  forallb (fun c => negb (is_separator c)) (base_name_chars tag_path) = true
  /\ (forallb (fun c => negb (is_separator c)) tag_path = true ->
      base_name_chars tag_path = tag_path)
  /\ (forall directory separator name,
        tag_path = directory ++ separator :: name ->
        is_separator separator = true ->
        forallb (fun c => negb (is_separator c)) name = true ->
        base_name_chars tag_path = name)
  /\ exists directory,
       tag_path = directory ++ base_name_chars tag_path
       /\ (directory = []
           \/ exists before separator,
                directory = before ++ [separator]
                /\ is_separator separator = true).
Proof.
  unfold base_name_chars.
  assert (Hname : forallb (fun c => negb (is_separator c)) tag_path = true ->
                  base_name_chars_loop tag_path tag_path = tag_path).
  { intros H. now apply base_name_chars_loop_name. }
  assert (Hdirectory :
            forall directory separator name,
              tag_path = directory ++ separator :: name ->
              is_separator separator = true ->
              forallb (fun c => negb (is_separator c)) name = true ->
              base_name_chars_loop tag_path tag_path = name).
  { intros directory separator name -> Hs Hn.
    now apply base_name_chars_loop_directory. }
  destruct (last_separator tag_path)
    as [Hn | (directory & separator & name & Heq & Hs & Hn)].
  - split; [now rewrite (Hname Hn)|].
    split; [assumption|]. split; [assumption|].
    rewrite (Hname Hn).
    exists []. split; [reflexivity | now left].
  - split; [now rewrite (Hdirectory _ _ _ Heq Hs Hn)|].
    split; [assumption|]. split; [assumption|].
    rewrite (Hdirectory _ _ _ Heq Hs Hn).
    exists (directory ++ [separator]). split.
    + rewrite Heq, <- app_assoc. reflexivity.
    + right. now exists directory, separator.
Qed.

(** ** The extension *)

(** The characters of a list have a property nowhere, or somewhere for
    the last time. *)
Lemma last_such (f : char -> bool) (l : chars) :
  forallb (fun c => negb (f c)) l = true
  \/ exists before c after,
       l = before ++ c :: after
       /\ f c = true
       /\ forallb (fun c => negb (f c)) after = true.
Proof.
  induction l as [|c l IH]; [now left|].
  destruct IH as [Hafter | (before & c0 & after & -> & Hc0 & Hafter)].
  - destruct (f c) eqn:Hc.
    + right. now exists [], c, l.
    + left. simpl. now rewrite Hc.
  - right. now exists (c :: before), c0, after.
Qed.

Lemma last_dot (l : chars) :
  forallb (fun c => negb (is_dot c)) l = true
  \/ exists stem extension,
       l = stem ++ DOT :: extension
       /\ forallb (fun c => negb (is_dot c)) extension = true.
Proof.
  destruct (last_such is_dot l) as [H | (stem & c & extension & -> & Hc & H)];
    [now left|].
  right. exists stem, extension. split; [|assumption].
  unfold is_dot in Hc. apply Ascii.eqb_eq in Hc. now subst c.
Qed.

Lemma base_name_end_loop_no_dot c :
  forallb (fun c => negb (is_dot c)) c = true ->
  forall before base_name_end,
    base_name_end_loop before c base_name_end = base_name_end.
Proof.
  induction c as [|ch c IH]; intros Hc before base_name_end; simpl;
    [reflexivity|].
  simpl in Hc. apply andb_true_iff in Hc as [Hch Hc].
  apply negb_true_iff in Hch. unfold is_dot in Hch. rewrite Hch.
  now apply IH.
Qed.

Lemma base_name_end_loop_last_dot stem extension :
  forallb (fun c => negb (is_dot c)) extension = true ->
  forall before base_name_end,
    base_name_end_loop before (stem ++ DOT :: extension) base_name_end
    = Some (before ++ stem).
Proof.
  intros Hextension.
  induction stem as [|ch stem IH]; intros before base_name_end; simpl.
  - rewrite base_name_end_loop_no_dot by assumption.
    now rewrite app_nil_r.
  - rewrite IH, <- app_assoc. reflexivity.
Qed.

Lemma extension_loop_no_dot c :
  forallb (fun c => negb (is_dot c)) c = true ->
  forall before extension, extension_loop before c extension = extension.
Proof.
  induction c as [|ch c IH]; intros Hc before extension; simpl;
    [reflexivity|].
  simpl in Hc. apply andb_true_iff in Hc as [Hch Hc].
  apply negb_true_iff in Hch. unfold is_dot in Hch. rewrite Hch.
  now apply IH.
Qed.

Lemma extension_loop_last_dot stem ext :
  forallb (fun c => negb (is_dot c)) ext = true ->
  forall before extension,
    extension_loop before (stem ++ DOT :: ext) extension
    = Some (before ++ stem, ext).
Proof.
  intros Hext.
  induction stem as [|ch stem IH]; intros before extension; simpl.
  - rewrite extension_loop_no_dot by assumption.
    now rewrite app_nil_r.
  - rewrite IH, <- app_assoc. reflexivity.
Qed.

(** X15: [base_name] with [drop_extension] returns the base name up to
    its last dot, and the whole base name when it has no dot or when
    [drop_extension] is not set; a dot of a directory is never where the
    name is cut. *)
Theorem base_name_drops_last_extension
    (platform : Platform) (tag_path : chars) :
  base_name tag_path false = base_name_chars tag_path
  /\ (forallb (fun c => negb (is_dot c)) (base_name_chars tag_path) = true ->
      base_name tag_path true = base_name_chars tag_path)
  /\ (forall stem extension,
        base_name_chars tag_path = stem ++ DOT :: extension ->
        forallb (fun c => negb (is_dot c)) extension = true ->
        base_name tag_path true = stem)
  /\ (forall directory separator stem extension,
        tag_path = directory ++ separator :: stem ++ DOT :: extension ->
        is_separator separator = true ->
        forallb (fun c => negb (is_separator c)) (stem ++ DOT :: extension)
        = true ->
        forallb (fun c => negb (is_dot c)) extension = true ->
        base_name tag_path true = stem).
Proof.
  assert (Hcut : forall stem extension,
             base_name_chars tag_path = stem ++ DOT :: extension ->
             forallb (fun c => negb (is_dot c)) extension = true ->
             base_name tag_path true = stem).
  { intros stem extension Hbase Hextension. unfold base_name.
    rewrite Hbase, base_name_end_loop_last_dot by assumption.
    reflexivity. }
  split; [reflexivity|]. split; [|split; [exact Hcut|]].
  - intros Hbase. unfold base_name.
    now rewrite base_name_end_loop_no_dot.
  - intros directory separator stem extension -> Hseparator Hname Hextension.
    apply (Hcut stem extension); [|assumption].
    unfold base_name_chars.
    now apply base_name_chars_loop_directory.
Qed.

(** X16: [split_tag_class_extension] returns nothing for a path without a
    dot; for a path with one it looks up what follows the last dot, and
    returns nothing when that is no class, and the path before the last
    dot with the class otherwise.  So a result it returns is a path that,
    with a dot and an extension of that class after it, gives the path
    back. *)
Theorem split_tag_class_extension_at_last_dot
    (platform : Platform) (tag_path : chars) :
  (forallb (fun c => negb (is_dot c)) tag_path = true ->
   split_tag_class_extension tag_path = None)
  /\ (forall stem extension,
        tag_path = stem ++ DOT :: extension ->
        forallb (fun c => negb (is_dot c)) extension = true ->
        split_tag_class_extension tag_path
        = if (tag_extension_to_fourcc extension =? TAG_FOURCC_NONE)%Z
             || (tag_extension_to_fourcc extension =? TAG_FOURCC_NULL)%Z
          then None
          else Some {| path := stem;
                       fourcc := tag_extension_to_fourcc extension |})
  /\ (forall split,
        split_tag_class_extension tag_path = Some split ->
        exists extension,
          tag_path = path split ++ DOT :: extension
          /\ forallb (fun c => negb (is_dot c)) extension = true
          /\ fourcc split = tag_extension_to_fourcc extension
          /\ fourcc split <> TAG_FOURCC_NONE
          /\ fourcc split <> TAG_FOURCC_NULL).
Proof.
  unfold split_tag_class_extension, split_tag_class_extension_chars.
  assert (Hno : forallb (fun c => negb (is_dot c)) tag_path = true ->
                extension_loop [] tag_path None = None).
  { intros H. now apply extension_loop_no_dot. }
  assert (Hdot : forall stem extension,
             tag_path = stem ++ DOT :: extension ->
             forallb (fun c => negb (is_dot c)) extension = true ->
             extension_loop [] tag_path None = Some (stem, extension)).
  { intros stem extension -> H. now rewrite extension_loop_last_dot. }
  split; [|split].
  - intros H. now rewrite (Hno H).
  - intros stem extension Heq H. now rewrite (Hdot _ _ Heq H).
  - intros split.
    destruct (last_dot tag_path) as [H | (stem & extension & Heq & H)].
    + now rewrite (Hno H).
    + rewrite (Hdot _ _ Heq H).
      destruct (tag_extension_to_fourcc extension =? TAG_FOURCC_NONE)%Z
        eqn:Hnone; [discriminate|].
      destruct (tag_extension_to_fourcc extension =? TAG_FOURCC_NULL)%Z
        eqn:Hnull; [discriminate|].
      simpl. intros [= <-]. simpl. exists extension.
      apply Z.eqb_neq in Hnone, Hnull. auto.
Qed.

(** ** Trailing and doubled separators *)

Lemma c_string_terminated (s rest : chars) :
  forallb (fun c => negb (Ascii.eqb c NUL)) s = true ->
  c_string (s ++ NUL :: rest) = s.
Proof.
  induction s as [|c s IH]; intros Hs; simpl; [reflexivity|].
  simpl in Hs. apply andb_true_iff in Hs as [Hc Hs].
  apply negb_true_iff in Hc. rewrite Hc. now rewrite IH.
Qed.

Lemma nth_error_middle (s : chars) (c : char) (rest : chars) :
  nth_error (s ++ c :: rest) (length s) = Some c.
Proof.
  induction s as [|x s IH]; simpl; [reflexivity | exact IH].
Qed.

Lemma store_middle (s : chars) (c x : char) (rest : chars) :
  store (s ++ c :: rest) (length s) x = s ++ x :: rest.
Proof.
  induction s as [|y s IH]; simpl; [reflexivity | now rewrite IH].
Qed.

(** X17: for a path without NUL, on a platform whose preferred separator
    is not NUL, [remove_trailing_slashes] stays inside its buffer and
    removes the last character when it is a separator, and nothing else:
    the index of its loop goes up, so the loop ends at the terminator
    after one removal, and a path that ends with several separators keeps
    all but one. *)
Theorem remove_trailing_slashes_removes_one
    (platform : Platform) (path : chars)
    (Hseparator : INVADER_PREFERRED_PATH_SEPARATOR <> NUL)
    (Hpath : forallb (fun c => negb (Ascii.eqb c NUL)) path = true) :
  remove_trailing_slashes path
  = Some (match rev path with
          | [] => []
          | c :: before => if is_separator c then rev before else path
          end).
Proof.
  assert (Hnul : is_separator NUL = false).
  { unfold is_separator, SYSTEM_PATH_SEPARATOR.
    destruct (Ascii.eqb NUL INVADER_PREFERRED_PATH_SEPARATOR) eqn:H.
    - apply Ascii.eqb_eq in H. now symmetry in H.
    - reflexivity. }
  unfold remove_trailing_slashes, remove_trailing_slashes_chars.
  rewrite (c_string_terminated path [NUL]) by assumption.
  destruct (rev path) as [|c before] eqn:Hrev.
  - apply (f_equal (@rev char)) in Hrev. rewrite rev_involutive in Hrev.
    subst path. reflexivity.
  - apply (f_equal (@rev char)) in Hrev. rewrite rev_involutive in Hrev.
    simpl in Hrev. subst path.
    pose proof Hpath as Hwhole.
    rewrite forallb_app in Hpath. apply andb_true_iff in Hpath as [Hbefore _].
    set (s := rev before) in *.
    rewrite <- app_assoc. simpl app.
    rewrite !length_app. simpl length.
    replace (Z.of_nat (length s + 1) - 1)%Z with (Z.of_nat (length s)) by lia.
    replace (length s + 3) with (S (S (length s + 1))) by lia.
    cbn [remove_trailing_slashes_loop].
    replace (Z.of_nat (length s) >=? 0)%Z with true
      by (symmetry; apply Z.geb_le; lia).
    rewrite Nat2Z.id, nth_error_middle.
    destruct (is_separator c) eqn:Hc.
    + rewrite store_middle.
      replace (Z.of_nat (length s) + 1 >=? 0)%Z with true
        by (symmetry; apply Z.geb_le; lia).
      replace (Z.to_nat (Z.of_nat (length s) + 1)) with (length (s ++ [NUL]))
        by (rewrite length_app; simpl; lia).
      change (s ++ [NUL; NUL; NUL]) with (s ++ [NUL] ++ NUL :: [NUL]).
      rewrite app_assoc, nth_error_middle, Hnul, <- app_assoc.
      simpl app. now rewrite c_string_terminated.
    + change (s ++ [c; NUL; NUL]) with (s ++ [c] ++ NUL :: [NUL]).
      rewrite app_assoc, c_string_terminated; [reflexivity | exact Hwhole].
Qed.

Lemma remove_trailing_slashes_removes_one_witness :
  @INVADER_PREFERRED_PATH_SEPARATOR posix <> NUL
  /\ forallb (fun c => negb (Ascii.eqb c NUL)) (of_string "tags//") = true
  /\ @remove_trailing_slashes posix (of_string "tags//")
     = Some (of_string "tags/").
Proof.
  assert (Hseparator : @INVADER_PREFERRED_PATH_SEPARATOR posix <> NUL)
    by discriminate.
  assert (Hpath : forallb (fun c => negb (Ascii.eqb c NUL))
                    (of_string "tags//") = true) by reflexivity.
  split; [exact Hseparator|]. split; [exact Hpath|].
  exact (remove_trailing_slashes_removes_one posix (of_string "tags//")
           Hseparator Hpath).
Defined.





(** ** [path_matches] *)

Section Matching.
Context {platform : Platform}.

Lemma same_chars_nil_path (path : chars) :
  same_chars [] path = true -> path = [].
Proof. destruct path; [reflexivity | discriminate]. Qed.

Lemma path_matches_loop_literal (pattern : chars) :
  forallb (fun pc => negb (is_wildcard pc)) pattern = true ->
  forall fuel path,
    length pattern < fuel ->
    path_matches_loop fuel (Some path) pattern
    = Some (Answer (same_chars pattern path)).
Proof.
  induction pattern as [|pc pattern IH]; intros Hpattern fuel path Hfuel.
  - destruct fuel as [|fuel]; [inversion Hfuel|].
    destruct path; reflexivity.
  - destruct fuel as [|fuel]; [inversion Hfuel|].
    simpl in Hpattern. apply andb_true_iff in Hpattern as [Hpc Hpattern].
    apply negb_true_iff in Hpc. unfold is_wildcard in Hpc.
    apply orb_false_iff in Hpc as [Hquestion Hstar].
    simpl in Hfuel.
    destruct path as [|c path]; cbn [path_matches_loop same_chars].
    + now rewrite Hquestion, Hstar.
    + rewrite Hquestion. cbn [orb].
      fold (same_char pc c).
      destruct (same_char pc c); cbn [andb].
      * apply IH; [assumption | lia].
      * now rewrite Hstar.
Qed.

Lemma path_matches_loop_question_mark (prefix rest : chars) :
  forallb (fun pc => negb (is_wildcard pc)) prefix = true ->
  forall fuel path,
    length (prefix ++ QUESTION_MARK :: rest) < fuel ->
    same_chars prefix path = true ->
    path_matches_loop fuel (Some path) (prefix ++ QUESTION_MARK :: rest)
    = Some ReadPastEnd.
Proof.
  induction prefix as [|pc prefix IH]; intros Hprefix fuel path Hfuel Hsame.
  - apply same_chars_nil_path in Hsame. subst path.
    destruct fuel as [|[|fuel]]; simpl in Hfuel; try lia.
    reflexivity.
  - destruct fuel as [|fuel]; [inversion Hfuel|].
    simpl in Hprefix. apply andb_true_iff in Hprefix as [Hpc Hprefix].
    destruct path as [|c path]; [discriminate|].
    cbn [same_chars] in Hsame. apply andb_true_iff in Hsame as [Hc Hsame].
    unfold same_char in Hc.
    cbn [app path_matches_loop]. rewrite <- orb_assoc, Hc, orb_true_r.
    apply IH; [assumption | simpl in Hfuel; lia | assumption].
Qed.

Lemma any_pattern_matches_answers (path : chars) (patterns : list chars) :
  Forall (fun e => exists b, path_matches path e = Some (Answer b)) patterns ->
  any_pattern_matches path patterns
  = Some (Answer (existsb (fun e => returned_true (path_matches path e))
                    patterns)).
Proof.
  induction 1 as [|e patterns (b & Hb) _ IH]; [reflexivity|].
  cbn [any_pattern_matches existsb]. rewrite Hb.
  destruct b; [reflexivity | exact IH].
Qed.

End Matching.

(** X19: a pattern without wildcard is compared with the path character
    by character, two separators of any kind being taken for each other:
    [path_matches] returns true exactly when both have the same length
    and agree so at every place.  So every path without wildcard
    characters matches itself. *)
Theorem path_matches_literal_pattern
    (platform : Platform) (path pattern : chars)
    (Hpattern : forallb (fun pc => negb (is_wildcard pc)) pattern = true) :
  path_matches path pattern = Some (Answer (same_chars pattern path))
  /\ (path = pattern -> path_matches path pattern = Some (Answer true))
  /\ (length path <> length pattern ->
      path_matches path pattern = Some (Answer false)).
Proof.
  assert (Hliteral : path_matches path pattern
                     = Some (Answer (same_chars pattern path))).
  { unfold path_matches. apply path_matches_loop_literal; [assumption | lia]. }
  split; [exact Hliteral|]. rewrite Hliteral. split.
  - intros ->. do 2 f_equal. clear.
    induction pattern as [|pc pattern IH]; [reflexivity|].
    cbn [same_chars]. unfold same_char. now rewrite Ascii.eqb_refl, IH.
  - intros Hlength. do 2 f_equal. clear - Hlength.
    revert path Hlength.
    induction pattern as [|pc pattern IH]; intros [|c path] Hlength;
      try reflexivity; [now elim Hlength|].
    cbn [same_chars]. rewrite IH; [apply andb_false_r|].
    simpl in Hlength. intros H. apply Hlength. now rewrite H.
Qed.

Lemma path_matches_literal_pattern_witness :
  forallb (fun pc => negb (@is_wildcard pc))
    (of_string "weapons\pistol") = true
  /\ @path_matches posix (of_string "weapons/pistol")
       (of_string "weapons\pistol")
     = Some (Answer true).
Proof.
  assert (Hpattern : forallb (fun pc => negb (@is_wildcard pc))
                       (of_string "weapons\pistol") = true) by reflexivity.
  split; [exact Hpattern|].
  destruct (path_matches_literal_pattern posix (of_string "weapons/pistol")
              (of_string "weapons\pistol") Hpattern) as [Hliteral _].
  rewrite Hliteral. reflexivity.
Defined.

(** X20: a question mark of the pattern that stands where the path has
    ended moves the path past its terminator, and the next turn of the
    loop reads the character there: when the pattern has no wildcard
    before that question mark and agrees with the whole path up to it,
    the call has no defined behaviour, whatever follows in the pattern. *)
Theorem path_matches_question_mark_past_end
    (platform : Platform) (path prefix rest : chars)
    (Hprefix : forallb (fun pc => negb (is_wildcard pc)) prefix = true)
    (Hsame : same_chars prefix path = true) :
  path_matches path (prefix ++ QUESTION_MARK :: rest) = Some ReadPastEnd.
Proof.
  unfold path_matches.
  apply path_matches_loop_question_mark; [assumption | lia | assumption].
Qed.

Lemma path_matches_question_mark_past_end_witness :
  forallb (fun pc => negb (@is_wildcard pc)) (of_string "ab") = true
  /\ @same_chars posix (of_string "ab") (of_string "ab") = true
  /\ @path_matches posix (of_string "ab") (of_string "ab?") = Some ReadPastEnd.
Proof.
  assert (Hprefix : forallb (fun pc => negb (@is_wildcard pc))
                      (of_string "ab") = true) by reflexivity.
  assert (Hsame : @same_chars posix (of_string "ab") (of_string "ab") = true)
    by reflexivity.
  split; [exact Hprefix|]. split; [exact Hsame|].
  exact (path_matches_question_mark_past_end posix (of_string "ab")
           (of_string "ab") [] Hprefix Hsame).
Defined.

(** X21: a star of the pattern is compared with the character of the
    path before it is taken as a wildcard.  Facing a star of the path it
    stands for that one character only, so the pattern made of one star
    does not match a path that begins with a star and goes on; facing the
    end of the path, or a character it is not equal to (the star being no
    separator of the platform), a last star matches whatever is left. *)
Theorem path_matches_star_literal_first
    (platform : Platform) (path pattern : chars) :
  path_matches (STAR :: path) (STAR :: pattern) = path_matches path pattern
  /\ path_matches (STAR :: path) [STAR]
     = Some (Answer (match path with [] => true | _ :: _ => false end))
  /\ path_matches [] [STAR] = Some (Answer true)
  /\ (forall c,
        Ascii.eqb STAR c = false ->
        is_separator STAR && is_separator c = false ->
        path_matches (c :: path) [STAR] = Some (Answer true)).
Proof.
  split; [|split; [|split]].
  - unfold path_matches. cbn [length path_matches_loop].
    change (Ascii.eqb STAR QUESTION_MARK) with false.
    now rewrite Ascii.eqb_refl.
  - unfold path_matches. cbn [length path_matches_loop].
    change (Ascii.eqb STAR QUESTION_MARK) with false.
    rewrite Ascii.eqb_refl. cbn [orb]. now destruct path.
  - reflexivity.
  - intros c Hc Hseparators. unfold path_matches.
    cbn [length path_matches_loop].
    change (Ascii.eqb STAR QUESTION_MARK) with false.
    rewrite Hc, Hseparators. reflexivity.
Qed.

(** X22: with lists of patterns none of which runs into undefined
    behaviour on the path, [path_matches] returns true exactly when no
    pattern of [exclude] matches and either a pattern of [include] does
    or [include] is empty: an exclusion wins over an inclusion. *)
Theorem path_matches_exclusion_wins
    (platform : Platform) (path : chars) (include exclude : list chars)
    (Hexclude : Forall (fun e => exists b, path_matches path e
                                            = Some (Answer b)) exclude)
    (Hinclude : Forall (fun i => exists b, path_matches path i
                                            = Some (Answer b)) include) :
  path_matches_lists path include exclude
  = Some (Answer
      (negb (existsb (fun e => returned_true (path_matches path e)) exclude)
       && (existsb (fun i => returned_true (path_matches path i)) include
           || match include with [] => true | _ :: _ => false end))).
Proof.
  unfold path_matches_lists.
  rewrite (any_pattern_matches_answers path exclude Hexclude).
  destruct (existsb _ exclude); [reflexivity|].
  rewrite (any_pattern_matches_answers path include Hinclude).
  destruct (existsb _ include); reflexivity.
Qed.

Lemma path_matches_exclusion_wins_witness :
  Forall (fun e => exists b, @path_matches posix (of_string "a/b.c") e
                             = Some (Answer b)) [of_string "*.c"]
  /\ Forall (fun i => exists b, @path_matches posix (of_string "a/b.c") i
                                = Some (Answer b)) [of_string "a\*"]
  /\ @path_matches_lists posix (of_string "a/b.c")
       [of_string "a\*"] [of_string "*.c"]
     = Some (Answer false).
Proof.
  assert (Hexclude :
            Forall (fun e => exists b, @path_matches posix (of_string "a/b.c") e
                                       = Some (Answer b)) [of_string "*.c"]).
  { repeat constructor. exists true. reflexivity. }
  assert (Hinclude :
            Forall (fun i => exists b, @path_matches posix (of_string "a/b.c") i
                                       = Some (Answer b)) [of_string "a\*"]).
  { repeat constructor. exists true. reflexivity. }
  split; [exact Hexclude|]. split; [exact Hinclude|].
  rewrite (path_matches_exclusion_wins posix (of_string "a/b.c")
             [of_string "a\*"] [of_string "*.c"] Hexclude Hinclude).
  reflexivity.
Defined.

Lemma path_matches_loop_prefix (platform : Platform) (prefix pattern : chars) :
  forallb (fun pc => negb (is_wildcard pc)) prefix = true ->
  forall a path,
    length a = length prefix ->
    path_matches (a ++ path) (prefix ++ pattern)
    = if same_chars prefix a then path_matches path pattern
      else Some (Answer false).
Proof.
  induction prefix as [|pc prefix IH]; intros Hprefix a path Hlength.
  - destruct a; [reflexivity | discriminate].
  - destruct a as [|c a]; [discriminate|].
    simpl in Hprefix. apply andb_true_iff in Hprefix as [Hpc Hprefix].
    apply negb_true_iff in Hpc. unfold is_wildcard in Hpc.
    apply orb_false_iff in Hpc as [Hquestion Hstar].
    injection Hlength as Hlength.
    specialize (IH Hprefix a path Hlength).
    unfold path_matches in *.
    cbn [app length path_matches_loop same_chars].
    rewrite Hquestion. cbn [orb]. fold (same_char pc c).
    destruct (same_char pc c); cbn [andb].
    + exact IH.
    + now rewrite Hstar.
Qed.

(** X23: a pattern that begins without wildcard is matched in two
    steps: its beginning is compared with as many characters of the
    path, and when they agree the answer is that of the rest of the
    pattern on the rest of the path, and false when they do not. *)
Theorem path_matches_literal_prefix
    (platform : Platform) (a path prefix pattern : chars)
    (Hprefix : forallb (fun pc => negb (is_wildcard pc)) prefix = true)
    (Hlength : length a = length prefix) :
  (same_chars prefix a = true ->
   path_matches (a ++ path) (prefix ++ pattern) = path_matches path pattern)
  /\ (same_chars prefix a = false ->
      path_matches (a ++ path) (prefix ++ pattern) = Some (Answer false)).
Proof.
  rewrite (path_matches_loop_prefix platform prefix pattern Hprefix a path
             Hlength).
  split; intros ->; reflexivity.
Qed.

Lemma path_matches_literal_prefix_witness :
  forallb (fun pc => negb (@is_wildcard pc)) (of_string "levels\") = true
  /\ length (of_string "levels/") = length (of_string "levels\")
  /\ @path_matches posix (of_string "levels/a10/a10")
       (of_string "levels\*")
     = @path_matches posix (of_string "a10/a10") (of_string "*").
Proof.
  assert (Hprefix : forallb (fun pc => negb (@is_wildcard pc))
                      (of_string "levels\") = true) by reflexivity.
  assert (Hlength : length (of_string "levels/")
                    = length (of_string "levels\")) by reflexivity.
  split; [exact Hprefix|]. split; [exact Hlength|].
  destruct (path_matches_literal_prefix posix (of_string "levels/")
              (of_string "a10/a10") (of_string "levels\") (of_string "*")
              Hprefix Hlength) as [Hsame _].
  apply Hsame. reflexivity.
Defined.

(** ** [split_tag_path] *)





(** ** The duplicates of the listing *)

Lemma chars_eqb_eq (a b : chars) : chars_eqb a b = true <-> a = b.
Proof.
  revert b. induction a as [|x a IH]; intros [|y b]; simpl;
    try (split; [discriminate | discriminate]); [tauto|].
  rewrite andb_true_iff, Ascii.eqb_eq, IH.
  split; [intros [-> ->]; reflexivity | intros [= -> ->]; auto].
Qed.

Lemma same_tag_key (tagi tagj : TagFile) :
  same_tag tagi tagj = true <-> tag_key tagi = tag_key tagj.
Proof.
  unfold same_tag, tag_key.
  rewrite andb_true_iff, Z.eqb_eq, chars_eqb_eq.
  split; [intros [-> ->]; reflexivity | intros [= -> ->]; auto].
Qed.

Lemma first_same_tag_some all_tags tagi :
  forall count j k,
    first_same_tag all_tags tagi j count = Some k ->
    j <= k < j + count
    /\ exists tagk, nth_error all_tags k = Some tagk
                    /\ same_tag tagi tagk = true.
Proof.
  induction count as [|count IH]; intros j k Hfirst; [discriminate|].
  cbn [first_same_tag] in Hfirst.
  destruct (nth_error all_tags j) as [tagj|] eqn:Hj; [|discriminate].
  destruct (same_tag tagi tagj) eqn:Hsame.
  - injection Hfirst as <-. split; [lia|]. now exists tagj.
  - apply IH in Hfirst as [Hk Htag]. split; [lia | exact Htag].
Qed.

Lemma skipn_at_length {A : Type} (l l' : list A) :
  skipn (length l) (l ++ l') = l'.
Proof. induction l as [|a l IH]; [reflexivity | exact IH]. Qed.

Lemma skipn_after_length {A : Type} (l : list A) (a : A) (l' : list A) :
  skipn (S (length l)) (l ++ a :: l') = l'.
Proof. induction l as [|b l IH]; [reflexivity | exact IH]. Qed.

Lemma first_same_tag_none all_tags tagi :
  forall count j,
    j + count = length all_tags ->
    (first_same_tag all_tags tagi j count = None
     <-> forall tagk, In tagk (skipn j all_tags) -> same_tag tagi tagk = false).
Proof.
  induction count as [|count IH]; intros j Hlength.
  - rewrite skipn_all2 by lia. split; [intros _ tagk [] | reflexivity].
  - cbn [first_same_tag].
    destruct (nth_error all_tags j) as [tagj|] eqn:Hj.
    + destruct (nth_error_split _ _ Hj) as (l1 & l2 & Heq & Hl1).
      assert (Hskip : skipn j all_tags = tagj :: skipn (S j) all_tags).
      { rewrite Heq, <- Hl1.
        now rewrite skipn_at_length, skipn_after_length. }
      rewrite Hskip.
      destruct (same_tag tagi tagj) eqn:Hsame.
      * split; [discriminate|]. intros Hall.
        rewrite (Hall tagj (or_introl eq_refl)) in Hsame. discriminate.
      * rewrite (IH (S j)) by lia. split.
        -- intros Hall tagk [<- | Hin]; [exact Hsame | now apply Hall].
        -- intros Hall tagk Hin. apply Hall. now right.
    + apply nth_error_None in Hj. lia.
Qed.

Lemma first_same_tag_app kept more tagi :
  forall count j,
    j + count <= length kept ->
    first_same_tag (kept ++ more) tagi j count
    = first_same_tag kept tagi j count.
Proof.
  induction count as [|count IH]; intros j Hlength; [reflexivity|].
  cbn [first_same_tag]. rewrite nth_error_app1 by lia.
  destruct (nth_error kept j) as [tagj|]; [|reflexivity].
  destruct (same_tag tagi tagj); [reflexivity|].
  apply IH. lia.
Qed.

Lemma nth_error_at_length {A : Type} (l : list A) (a : A) (l' : list A) :
  nth_error (l ++ a :: l') (length l) = Some a.
Proof.
  rewrite nth_error_app2, Nat.sub_diag by lia. reflexivity.
Qed.

Lemma erase_at_length l tag l' : erase (l ++ tag :: l') (length l) = l ++ l'.
Proof.
  unfold erase.
  rewrite skipn_after_length, firstn_app, Nat.sub_diag, firstn_all.
  cbn [firstn]. now rewrite app_nil_r.
Qed.

Lemma erase_app1 l l' j :
  j < length l -> erase (l ++ l') j = erase l j ++ l'.
Proof.
  intros Hj. unfold erase.
  rewrite firstn_app, skipn_app.
  replace (j - length l) with 0 by lia.
  replace (S j - length l) with 0 by lia.
  cbn [firstn skipn]. now rewrite app_nil_r, app_assoc.
Qed.

Lemma length_erase l j : j < length l -> S (length (erase l j)) = length l.
Proof.
  intros Hj. unfold erase.
  rewrite length_app, length_firstn, length_skipn. lia.
Qed.

(** The loop of the source, with its indices and its removals, keeps
    what [keep_lowest_directory] keeps, and ends. *)
Lemma filter_duplicates_loop_keeps (fuel : nat) :
  forall kept rest,
    length kept + 2 * length rest < fuel ->
    filter_duplicates_loop fuel (kept ++ rest) (length kept)
    = Some (keep_lowest_directory kept rest).
Proof.
  induction fuel as [|fuel IH]; intros kept rest Hfuel; [inversion Hfuel|].
  destruct rest as [|tagi rest'].
  - cbn [filter_duplicates_loop keep_lowest_directory].
    rewrite app_nil_r.
    replace (nth_error kept (length kept)) with (@None TagFile)
      by (symmetry; apply nth_error_None; lia).
    reflexivity.
  - cbn [filter_duplicates_loop keep_lowest_directory].
    rewrite nth_error_at_length.
    rewrite first_same_tag_app by lia.
    simpl in Hfuel.
    destruct (first_same_tag kept tagi 0 (length kept)) as [j|] eqn:Hfirst.
    + destruct (first_same_tag_some _ _ _ _ _ Hfirst)
        as (Hj & tagj & Htagj & _).
      rewrite nth_error_app1 by lia. rewrite Htagj.
      destruct (tag_directory tagj <? tag_directory tagi).
      * rewrite erase_at_length. apply IH. lia.
      * rewrite erase_app1 by lia.
        assert (Hlength : length (erase kept j ++ [tagi]) = length kept).
        { rewrite length_app. simpl.
          pose proof (length_erase kept j ltac:(lia)). lia. }
        change (erase kept j ++ tagi :: rest')
          with (erase kept j ++ [tagi] ++ rest').
        rewrite app_assoc, <- Hlength. apply IH. lia.
    + change (kept ++ tagi :: rest') with (kept ++ [tagi] ++ rest').
      rewrite app_assoc.
      replace (S (length kept)) with (length (kept ++ [tagi]))
        by (rewrite length_app; simpl; lia).
      apply IH. rewrite length_app. simpl. lia.
Qed.

Lemma NoDup_snoc {A : Type} (l : list A) (a : A) :
  NoDup l -> ~ In a l -> NoDup (l ++ [a]).
Proof.
  intros Hl Ha. apply NoDup_app; [assumption | repeat constructor; intros [] |].
  intros x Hx [<- | []]. contradiction.
Qed.

(** What [keep_lowest_directory] keeps: one tag of each key, of a
    directory not above that of any tag of the key, taken from the
    tags given. *)
Lemma keep_lowest_directory_kept (rest : list TagFile) :
  forall kept,
    NoDup (map tag_key kept) ->
    NoDup (map tag_key (keep_lowest_directory kept rest))
    /\ (forall t, In t (kept ++ rest) ->
          exists r, In r (keep_lowest_directory kept rest)
                    /\ tag_key r = tag_key t
                    /\ tag_directory r <= tag_directory t)
    /\ (forall r, In r (keep_lowest_directory kept rest) ->
                  In r (kept ++ rest)).
Proof.
  induction rest as [|tagi rest' IH]; intros kept Hkept.
  - cbn [keep_lowest_directory]. rewrite app_nil_r.
    split; [assumption|]. split; [|auto].
    intros t Ht. exists t. auto.
  - cbn [keep_lowest_directory].
    destruct (first_same_tag kept tagi 0 (length kept)) as [j|] eqn:Hfirst.
    + destruct (first_same_tag_some _ _ _ _ _ Hfirst)
        as (Hj & tagj & Htagj & Hsame).
      rewrite Htagj. apply same_tag_key in Hsame.
      destruct (nth_error_split _ _ Htagj) as (l1 & l2 & Heq & Hl1).
      destruct (tag_directory tagj <? tag_directory tagi) eqn:Hdirectory.
      * apply Nat.ltb_lt in Hdirectory.
        destruct (IH kept Hkept) as (Hnodup & Hall & Hfrom).
        split; [assumption|]. split.
        -- intros t Ht. apply in_elt_inv in Ht as [<- | Ht'].
           ++ destruct (Hall tagj) as (r & Hr & Hkey & Hle).
              { apply in_or_app. left. eapply nth_error_In; eassumption. }
              exists r. split; [assumption|]. split; [congruence | lia].
           ++ now apply Hall.
        -- intros r Hr. apply Hfrom in Hr.
           apply in_app_or in Hr as [Hr | Hr]; apply in_or_app;
             [now left | right; now right].
      * apply Nat.ltb_ge in Hdirectory.
        assert (Herase : erase kept j = l1 ++ l2).
        { rewrite Heq, <- Hl1. apply erase_at_length. }
        assert (Hkept' : NoDup (map tag_key (erase kept j ++ [tagi]))).
        { rewrite map_app. cbn [map]. rewrite Herase.
          rewrite Heq, map_app in Hkept. cbn [map] in Hkept.
          apply NoDup_remove in Hkept as [Hnodup Hnotin].
          rewrite <- map_app in Hnodup, Hnotin.
          apply NoDup_snoc; [assumption | now rewrite Hsame]. }
        destruct (IH _ Hkept') as (Hnodup & Hall & Hfrom).
        split; [assumption|]. split.
        -- intros t Ht.
           assert (Hcases : t = tagj \/ In t ((erase kept j ++ [tagi]) ++ rest')).
           { rewrite Herase. rewrite Heq in Ht.
             rewrite <- app_assoc in Ht.
             apply in_elt_inv in Ht as [<- | Ht']; [now left|].
             right. rewrite !in_app_iff in *. cbn [In] in *. tauto. }
           destruct Hcases as [-> | Hlater]; [|now apply Hall].
           destruct (Hall tagi) as (r & Hr & Hkey & Hle).
           { rewrite !in_app_iff. cbn [In]. tauto. }
           exists r. split; [assumption|]. split; [congruence | lia].
        -- intros r Hr. apply Hfrom in Hr.
           rewrite Herase in Hr. rewrite Heq.
           rewrite !in_app_iff in *. cbn [In] in *. tauto.
    + assert (Hnone : forall tagk, In tagk kept -> same_tag tagi tagk = false).
      { apply (first_same_tag_none kept tagi (length kept) 0); auto. }
      assert (Hkept' : NoDup (map tag_key (kept ++ [tagi]))).
      { rewrite map_app. cbn [map]. apply NoDup_snoc; [assumption|].
        intros Hin. apply in_map_iff in Hin as (tagk & Hkey & Hin).
        symmetry in Hkey. apply same_tag_key in Hkey.
        rewrite (Hnone tagk Hin) in Hkey. discriminate. }
      destruct (IH _ Hkept') as (Hnodup & Hall & Hfrom).
      rewrite <- app_assoc in Hall, Hfrom. auto.
Qed.

Lemma keep_lowest_directory_distinct (rest : list TagFile) :
  forall kept,
    NoDup (map tag_key (kept ++ rest)) ->
    keep_lowest_directory kept rest = kept ++ rest.
Proof.
  induction rest as [|tagi rest' IH]; intros kept Hdistinct.
  - cbn [keep_lowest_directory]. now rewrite app_nil_r.
  - cbn [keep_lowest_directory].
    replace (first_same_tag kept tagi 0 (length kept)) with (@None nat).
    + change (kept ++ tagi :: rest') with (kept ++ [tagi] ++ rest') in *.
      rewrite app_assoc in *. now apply IH.
    + symmetry. apply first_same_tag_none; [reflexivity|].
      cbn [skipn]. intros tagk Hin.
      destruct (same_tag tagi tagk) eqn:Hsame; [|reflexivity].
      apply same_tag_key in Hsame.
      rewrite map_app in Hdistinct. cbn [map] in Hdistinct.
      apply NoDup_remove_2 in Hdistinct. elim Hdistinct.
      apply in_or_app. left. rewrite Hsame. now apply in_map.
Qed.

(** X25: the removal of duplicates at the end of
    [load_virtual_tag_folder] ends, for every listing, with a listing in
    which no two tags have the same class and path; every tag it keeps is
    one of the listing; and for every tag of the listing it keeps a tag
    of the same class and path whose directory index is not greater, so
    the first tags directory that holds a tag is the one that counts.  A
    listing without duplicates is returned as it is. *)
Theorem filter_duplicates_keeps_lowest_directory (all_tags : list TagFile) :
  exists result,
    filter_duplicates all_tags = Some result
    /\ NoDup (map tag_key result)
    /\ (forall t, In t all_tags ->
          exists r, In r result
                    /\ same_tag r t = true
                    /\ tag_directory r <= tag_directory t)
    /\ (forall r, In r result -> In r all_tags)
    /\ (NoDup (map tag_key all_tags) -> result = all_tags).
Proof.
  exists (keep_lowest_directory [] all_tags).
  split.
  { unfold filter_duplicates.
    apply (filter_duplicates_loop_keeps _ [] all_tags). simpl. lia. }
  destruct (keep_lowest_directory_kept all_tags [] (NoDup_nil _))
    as (Hnodup & Hall & Hfrom).
  split; [assumption|]. split; [|split; [exact Hfrom|]].
  - intros t Ht. destruct (Hall t Ht) as (r & Hr & Hkey & Hle).
    exists r. split; [assumption|]. split; [|assumption].
    now apply same_tag_key.
  - intros Hdistinct. now apply (keep_lowest_directory_distinct all_tags []).
Qed.

End FileFacts.
